(** * fiasco.io: the CHIANTI file parsers and their HDF5 writers

    A shallow embedding of [fiasco/io/generic.py] (class [GenericParser]) and
    [fiasco/io/sources/non_ion_sources.py] (classes [AbundParser],
    [IoneqParser], [IpParser]), followed by the properties of the ingestion
    pipeline that are stated about them.

    Layout of the development:
    - [Py]       the Python values, exceptions and [str] / [os.path] helpers
                 the parsers call;
    - [Fortran]  the fixed-width record reader ([fortranformat]);
    - [Astropy]  the columnar table ([QTable]) and numpy's [astype];
    - [H5]       the hierarchical store ([h5py]) as a finite map of paths;
    - the parsers themselves, in a section over the two configuration values
      the code reads from outside ([fiasco.defaults] and [periodictable]);
    - the theorems. *)

From Stdlib Require Import ZArith QArith Qabs String Ascii List Lia.
From stdpp Require Import base option list gmap strings pretty.

Set Default Proof Using "Type".

(* ===================================================================== *)
(** ** Python values, exceptions and string helpers                       *)
(* ===================================================================== *)

Module Py.

(** Exceptions raised on the paths the parsers take.  The payload is what the
    exception object carries: a class never holds more than is listed here.
    [NotModelled] is no Python exception: it marks the places where this
    development does not follow numpy (a number cast to an integer it does
    not fit, the digits of a float kept symbolic, a two-dimensional column
    that is not of floats); no parser of these files gets there. *)
Inductive exc : Type :=
| ValueError (what : string) (literal : string)
| TypeError (what : string)
| OverflowError (what : string)
| KeyError (key : string)
| IndexError
| AttributeError (attr : string)
| UnboundLocalError (var : string)
| FileNotFoundError (path : string)
| InvalidFormat (fmt : string)
| NotModelled (what : string).

Definition exc_class (e : exc) : string :=
  match e with
  | ValueError _ _ => "ValueError"
  | TypeError _ => "TypeError"
  | OverflowError _ => "OverflowError"
  | KeyError _ => "KeyError"
  | IndexError => "IndexError"
  | AttributeError _ => "AttributeError"
  | UnboundLocalError _ => "UnboundLocalError"
  | FileNotFoundError _ => "FileNotFoundError"
  | InvalidFormat _ => "InvalidFormat"
  | NotModelled _ => "NotModelled"
  end.

(** A computation that returns or raises. *)
Inductive result (A : Type) : Type :=
| Ok (a : A)
| Raise (e : exc).
Arguments Ok {A} a.
Arguments Raise {A} e.

#[global] Instance result_ret : MRet result := λ A a, Ok a.
#[global] Instance result_bind : MBind result := λ A B k m,
  match m with
  | Ok a => k a
  | Raise e => Raise e
  end.

(** [for x in xs: acc = f(acc, x)], stopping at the first exception. *)
Fixpoint for_loop {A S} (f : S → A → result S) (s : S) (xs : list A) : result S :=
  match xs with
  | [] => Ok s
  | x :: xs' => s' ← f s x; for_loop f s' xs'
  end.

(** [[f(x) for x in xs]], stopping at the first exception, is stdpp's
    [mapM] at [result]. *)

Definition from_option {A} (e : exc) (o : option A) : result A :=
  match o with
  | Some a => Ok a
  | None => Raise e
  end.

(** *** Characters *)

(** A character is a code point below 256.  [str.isspace] there: TAB..CR,
    FS..US, the blank, NEL (U+0085) and the no-break space (U+00A0). *)
Definition isspace (c : ascii) : bool :=
  let n := nat_of_ascii c in
  ((9 <=? n) && (n <=? 13)) || ((28 <=? n) && (n <=? 32)) || (n =? 133) || (n =? 160).

Definition isdigit (c : ascii) : bool :=
  let n := nat_of_ascii c in (48 <=? n) && (n <=? 57).

Definition digit_val (c : ascii) : Z := Z.of_nat (nat_of_ascii c) - 48.

(** [str.lower] on one character: the capitals of ASCII and of Latin-1. *)
Definition lower_ascii (c : ascii) : ascii :=
  let n := nat_of_ascii c in
  if ((65 <=? n) && (n <=? 90)) || ((192 <=? n) && (n <=? 222) && negb (n =? 215))
  then ascii_of_nat (n + 32) else c.

(** *** [str] methods *)

Fixpoint lstrip (s : string) : string :=
  match s with
  | EmptyString => EmptyString
  | String c s' => if isspace c then lstrip s' else s
  end.

Fixpoint rstrip (s : string) : string :=
  match s with
  | EmptyString => EmptyString
  | String c s' =>
      match rstrip s' with
      | EmptyString => if isspace c then EmptyString else String c EmptyString
      | r => String c r
      end
  end.

(** [s.strip()] *)
Definition strip (s : string) : string := rstrip (lstrip s).

Fixpoint split_go (s : string) (cur : option string) : list string :=
  match s with
  | EmptyString => match cur with Some w => [w] | None => [] end
  | String c s' =>
      if isspace c
      then match cur with
           | Some w => w :: split_go s' None
           | None => split_go s' None
           end
      else split_go s' (Some (default EmptyString cur +:+ String c EmptyString))
  end.

(** [s.split()]: the maximal runs of non-blank characters. *)
Definition split (s : string) : list string := split_go s None.

(** [s.lower()] *)
Fixpoint lower (s : string) : string :=
  match s with
  | EmptyString => EmptyString
  | String c s' => String (lower_ascii c) (lower s')
  end.

(** [''.join(ss)] *)
Definition join (ss : list string) : string := foldr String.append EmptyString ss.

(** [sep.join(ss)] *)
Fixpoint join_with (sep : string) (ss : list string) : string :=
  match ss with
  | [] => EmptyString
  | [s] => s
  | s :: ss' => s +:+ sep +:+ join_with sep ss'
  end.

(** [s.split(c)[0]]: the text before the first [c] (all of [s] without one). *)
Fixpoint split_first (c : ascii) (s : string) : string :=
  match s with
  | EmptyString => EmptyString
  | String c' s' => if Ascii.eqb c c' then EmptyString else String c' (split_first c s')
  end.

(** The text after the last [c], all of [s] when [c] does not occur. *)
Fixpoint after_last (c : ascii) (s : string) : string :=
  match s with
  | EmptyString => EmptyString
  | String c' s' =>
      if existsb (Ascii.eqb c) (list_ascii_of_string s') then after_last c s'
      else if Ascii.eqb c c' then s' else s
  end.

(** The text before the last [c]; [None] when [c] does not occur. *)
Fixpoint before_last (c : ascii) (s : string) : option string :=
  match s with
  | EmptyString => None
  | String c' s' =>
      match before_last c s' with
      | Some r => Some (String c' r)
      | None => if Ascii.eqb c c' then Some EmptyString else None
      end
  end.

(** [os.path.basename(p)] *)
Definition basename (p : string) : string := after_last "/"%char p.

(** [os.path.splitext(p)[0]] for a path without directory part: cut at the
    last dot unless only dots precede it. *)
Definition splitext_root (p : string) : string :=
  match before_last "."%char p with
  | Some r =>
      if forallb (Ascii.eqb "."%char) (list_ascii_of_string r) then p else r
  | None => p
  end.

(** [os.path.join(a, b)] *)
Definition path_join (a b : string) : string :=
  match b with
  | String "/"%char _ => b
  | _ =>
      match a with
      | EmptyString => b
      | _ => if String.eqb (after_last "/"%char a) EmptyString
             then a +:+ b else a +:+ "/" +:+ b
      end
  end.

Definition path_join_all (a : string) (bs : list string) : string :=
  foldl path_join a bs.

End Py.

(* ===================================================================== *)
(** ** Numbers                                                            *)
(* ===================================================================== *)

Module Num.
Import Py.

(** A [float] is kept as the exact value it denotes as long as that value is
    in the range of the doubles: a decimal read from text is the rational it
    spells, [10.**x] and [x - y] are computed where the outcome is rational
    and stay symbolic where it is not.  Outside the range a value is what the
    double is, [inf] or zero; [nan] is absorbing.  Rationals are always
    stored reduced ([Qred]), so that equal values are equal terms. *)
Inductive real : Type :=
| Rat (q : Q)
| Inf (negative : bool)
| NaN
| Pow10 (x : real)
| Minus (x y : real).

Definition rat (q : Q) : real := Rat (Qred q).

(** From [huge] on a value rounds to [inf], up to [tiny] it rounds to zero:
    [2^1024 - 2^970] and [2^-1075]. *)
Definition huge : Q := inject_Z (2 ^ 1024 - 2 ^ 970).
Definition tiny : Q := 1 # (2 ^ 1075).

(** The float of value [q]. *)
Definition fl (q : Q) : real :=
  if Qle_bool huge (Qabs q) then Inf (Qnum q <? 0)%Z
  else if Qle_bool (Qabs q) tiny then Rat 0
  else rat q.

(** [x - y] *)
Definition sub (x y : real) : real :=
  match x, y with
  | NaN, _ | _, NaN => NaN
  | Inf a, Inf b => if Bool.eqb a b then NaN else Inf a
  | Inf a, _ => Inf a
  | _, Inf b => Inf (negb b)
  | Rat a, Rat b => fl (a - b)
  | _, _ => Minus x y
  end.

(** The exponents from which [10.**x] is [inf], and up to which it is zero:
    the decimal logarithms of [huge] and [tiny], to seventeen digits. *)
Definition pow_overflow : Q := 30825471555991675 # 100000000000000.
Definition pow_underflow : Q := - (32360724533877976 # 100000000000000).

(** [10.**x] *)
Definition ten_pow (x : real) : real :=
  match x with
  | NaN => NaN
  | Inf negative => if negative then Rat 0 else Inf false
  | Rat q =>
      let q' := Qred q in
      if Qle_bool pow_overflow q' then Inf false
      else if Qle_bool q' pow_underflow then Rat 0
      else if Pos.eqb (Qden q') 1 then fl (Qpower 10 (Qnum q')) else Pow10 (Rat q')
  | _ => Pow10 x
  end.

(** [int(x)] on a float: truncation toward zero. *)
Definition trunc (x : real) : result Z :=
  match x with
  | Rat q => Ok (Z.quot (Qnum q) (Zpos (Qden q)))
  | Inf _ => Raise (OverflowError "cannot convert float infinity to integer")
  | NaN => Raise (ValueError "cannot convert float NaN to integer" "")
  | _ => Raise (NotModelled "integer part of a float kept symbolic")
  end.

(** *** Decimal literals *)

(** A run of digits.  With [grouped] (Python's literals) one underscore may
    stand between two digits. *)
Fixpoint digits (grouped : bool) (s : list ascii) (acc : Z) (n : nat)
    : Z * nat * list ascii :=
  match s with
  | c :: s' =>
      if isdigit c then digits grouped s' (10 * acc + digit_val c)%Z (S n)
      else if grouped && Ascii.eqb c "_" && (0 <? n)
                && match s' with d :: _ => isdigit d | [] => false end
           then digits grouped s' acc n
           else (acc, n, s)
  | [] => (acc, n, [])
  end.

Definition sign (s : list ascii) : bool * list ascii :=
  match s with
  | "-"%char :: s' => (true, s')
  | "+"%char :: s' => (false, s')
  | _ => (false, s)
  end.

Definition signed (neg : bool) (v : Z) : Z := if neg then (- v)%Z else v.

(** An optional sign and at least one digit, nothing after. *)
Definition integer_literal (grouped : bool) (s : list ascii) : option Z :=
  let '(neg, r) := sign s in
  match digits grouped r 0 0 with
  | (v, S _, []) => Some (signed neg v)
  | _ => None
  end.

(** [int(s)] on a [str] *)
Definition int_of_str (s : string) : result Z :=
  from_option (ValueError "invalid literal for int() with base 10" s)
              (integer_literal true (list_ascii_of_string (strip s))).

(** Digits with an optional point, at least one digit in all: the digits
    read as one integer, how many follow the point, and whether there is a
    point. *)
Definition mantissa (grouped : bool) (s : list ascii)
    : option (Z * nat * bool * list ascii) :=
  let '(ip, ni, r1) := digits grouped s 0 0 in
  match r1 with
  | "."%char :: r2 =>
      let '(m, nf, r3) := digits grouped r2 ip 0 in
      match ni + nf with
      | O => None
      | S _ => Some (m, nf, true, r3)
      end
  | _ =>
      match ni with
      | O => None
      | S _ => Some (ip, O, false, r1)
      end
  end.

Definition is_exp_letter (fortran : bool) (c : ascii) : bool :=
  Ascii.eqb c "e" || Ascii.eqb c "E"
  || (fortran && (Ascii.eqb c "d" || Ascii.eqb c "D")).

(** The exponent part: empty, a letter and a signed integer, or (Fortran
    only) a bare signed integer. *)
Definition exponent (fortran : bool) (s : list ascii) : option Z :=
  match s with
  | [] => Some 0%Z
  | c :: r =>
      if is_exp_letter fortran c then integer_literal (negb fortran) r
      else if fortran && (Ascii.eqb c "+" || Ascii.eqb c "-")
           then integer_literal false s
           else None
  end.

(** [m * 10^e], as a float.  A power of ten far beyond the doubles is not
    computed: [|m| < 2 * 2^log2|m|]. *)
Definition scale10 (m e : Z) : real :=
  if (m =? 0)%Z then Rat 0
  else if (400 <? e)%Z then Inf (m <? 0)%Z
  else if (e + Z.log2 (Z.abs m) + 1 <? -400)%Z then Rat 0
  else fl (inject_Z m * Qpower 10 e).

(** A real literal; [implied] is the number of decimals a Fortran field
    without a point is read with. *)
Definition real_literal (fortran : bool) (implied : nat) (s : list ascii) : option real :=
  let '(neg, r) := sign s in
  match mantissa (negb fortran) r with
  | Some (m, nf, point, r') =>
      match exponent fortran r' with
      | Some e =>
          let shift := if point then Z.of_nat nf else Z.of_nat implied in
          Some (scale10 (signed neg m) (e - shift))
      | None => None
      end
  | None => None
  end.

(** The spellings of the values that are no numbers: [inf], [infinity] and
    [nan] in any case, with an optional sign. *)
Definition special_literal (s : list ascii) : option real :=
  let '(neg, r) := sign s in
  let word := string_of_list_ascii (lower_ascii <$> r) in
  if String.eqb word "inf" || String.eqb word "infinity" then Some (Inf neg)
  else if String.eqb word "nan" then Some NaN
  else None.

(** [float(s)] on a [str] *)
Definition float_of_str (s : string) : result real :=
  let t := list_ascii_of_string (strip s) in
  from_option (ValueError "could not convert string to float" s)
    (match special_literal t with
     | Some x => Some x
     | None => real_literal false 0 t
     end).

(** *** The text of a float *)

(** [floor(log10(a/b))] for positive [a] and [b]. *)
Definition decimal_exponent (a b : Z) : Z :=
  let e := (Z.of_nat (String.length (pretty a)) - Z.of_nat (String.length (pretty b)))%Z in
  if (0 <=? e)%Z
  then (if (b * 10 ^ e <=? a)%Z then e else e - 1)%Z
  else (if (b <=? a * 10 ^ (- e))%Z then e else e - 1)%Z.

(** [a/b] rounded to the nearest integer, ties to even. *)
Definition round_div (a b : Z) : Z :=
  let m := (a / b)%Z in
  let r := (a mod b)%Z in
  match (2 * r ?= b)%Z with
  | Lt => m
  | Gt => (m + 1)%Z
  | Eq => if Z.even m then m else (m + 1)%Z
  end.

Fixpoint strip_zeros (fuel : nat) (m : Z) : Z :=
  match fuel with
  | O => m
  | S fuel' => if (m mod 10 =? 0)%Z then strip_zeros fuel' (m / 10)%Z else m
  end.

Fixpoint zeros (n : nat) : string :=
  match n with
  | O => EmptyString
  | S n' => String "0" (zeros n')
  end.

(** The digits [d] of a value whose first digit stands for [10^e], laid out
    as [repr] does: plainly from [1e-4] up to [1e16], with an exponent of at
    least two digits otherwise. *)
Definition layout (d : string) (e : Z) : string :=
  let nd := String.length d in
  if ((-4 <=? e) && (e <? 16))%Z
  then
    if (e <? 0)%Z then "0." +:+ zeros (Z.to_nat (- e - 1)) +:+ d
    else
      let k := S (Z.to_nat e) in
      if nd <=? k then d +:+ zeros (k - nd) +:+ ".0"
      else String.substring 0 k d +:+ "." +:+ String.substring k (nd - k) d
  else
    let x := pretty (Z.abs e) in
    String.substring 0 1 d
    +:+ (if nd <=? 1 then "" else "." +:+ String.substring 1 (nd - 1) d)
    +:+ "e" +:+ (if (e <? 0)%Z then "-" else "+")
    +:+ (if String.length x <=? 1 then "0" +:+ x else x).

(** [repr(x)], which is also the text numpy gives a float: the value to
    seventeen significant digits, without trailing zeros.  This is what the
    double prints as for every decimal of up to fifteen digits.  The digits
    of a value kept symbolic are not known. *)
Definition float_repr (x : real) : option string :=
  match x with
  | NaN => Some "nan"
  | Inf negative => Some (if negative then "-inf" else "inf")
  | Rat q =>
      let a := Z.abs (Qnum q) in
      let b := Zpos (Qden q) in
      if (a =? 0)%Z then Some "0.0"
      else
        let e := decimal_exponent a b in
        let m := if (e <=? 16)%Z then round_div (a * 10 ^ (16 - e)) b
                 else round_div a (b * 10 ^ (e - 16)) in
        let '(m, e) := if (10 ^ 17 <=? m)%Z then ((m / 10)%Z, (e + 1)%Z) else (m, e) in
        Some ((if (Qnum q <? 0)%Z then "-" else "")
              +:+ layout (pretty (strip_zeros 17 m)) e)
  | _ => None
  end.

End Num.

(* ===================================================================== *)
(** ** The fixed-width record reader                                      *)
(* ===================================================================== *)

Module Fortran.
Import Py Num.

(** What [fformat.read] and [str.split] hand to the table: Python objects. *)
Inductive pyval : Type :=
| PInt (z : Z)
| PFloat (x : real)
| PStr (s : string)
| PNone
| PArray (xs : list real).

(** The edit descriptors the parsers' formats use. *)
Inductive edit : Type :=
| I (w : nat)
| F (w d : nat)
| E (w d : nat)
| A (w : nat).

Definition width (ed : edit) : nat :=
  match ed with I w | F w _ | E w _ | A w => w end.

(** [record[pos:pos+w]] and what follows it: a record that ends early gives
    a short, possibly empty, field. *)
Fixpoint take_field (w : nat) (record : string) : string * string :=
  match w, record with
  | O, _ => (EmptyString, record)
  | S _, EmptyString => (EmptyString, EmptyString)
  | S w', String c r => let '(f, rest) := take_field w' r in (String c f, rest)
  end.

(** Blanks inside a numeric field are ignored (the default, [BN]). *)
Fixpoint remove_blanks (s : string) : string :=
  match s with
  | EmptyString => EmptyString
  | String c s' =>
      if Ascii.eqb c " " then remove_blanks s' else String c (remove_blanks s')
  end.

Fixpoint pad (w : nat) (s : string) : string :=
  match w, s with
  | O, _ => s
  | S w', EmptyString => String " " (pad w' EmptyString)
  | S w', String c s' => String c (pad w' s')
  end.

(** What is left of a numeric field when its blanks are gone: nothing, or
    a sign alone, reads as zero. *)
Definition reads_as_zero (t : string) : bool :=
  String.eqb t "" || String.eqb t "-" || String.eqb t "+".

(** One field under one descriptor: a field past the end of the record is
    unwritten ([None]); a numeric field that is blank, or a sign and blanks,
    reads as zero; anything else that is not a number of the descriptor's
    kind is a [ValueError]. *)
Definition read_field (ed : edit) (field : string) : result pyval :=
  match ed with
  | A w => Ok (PStr (pad w field))
  | I _ =>
      match field with
      | EmptyString => Ok PNone
      | _ =>
          let t := remove_blanks field in
          if reads_as_zero t then Ok (PInt 0)
          else from_option (ValueError "not a valid input for integer" field)
                 (PInt <$> integer_literal false (list_ascii_of_string (strip t)))
      end
  | F _ d | E _ d =>
      match field with
      | EmptyString => Ok PNone
      | _ =>
          let t := remove_blanks field in
          if reads_as_zero t then Ok (PFloat (Rat 0))
          else from_option (ValueError "not a valid input for real" field)
                 (PFloat <$> real_literal true d (list_ascii_of_string (strip t)))
      end
  end.

(** The fields of a record, one value per descriptor. *)
Fixpoint read_fields (fmt : list edit) (record : string) : result (list pyval) :=
  match fmt with
  | [] => Ok []
  | ed :: fmt' =>
      let '(field, rest) := take_field (width ed) record in
      v ← read_field ed field;
      vs ← read_fields fmt' rest;
      Ok (v :: vs)
  end.

(** A line as [readlines] gives it ends with its newline, if it has one; the
    newline is no part of the record. *)
Fixpoint chomp (line : string) : string :=
  match line with
  | EmptyString => EmptyString
  | String c rest =>
      match rest with
      | EmptyString => if Ascii.eqb c "010" then EmptyString else line
      | _ => String c (chomp rest)
      end
  end.

(** [FortranRecordReader(fmt).read(line)] *)
Definition read (fmt : list edit) (line : string) : result (list pyval) :=
  read_fields fmt (chomp line).

(** The fields themselves, before conversion. *)
Fixpoint fields (fmt : list edit) (record : string) : list string :=
  match fmt with
  | [] => []
  | ed :: fmt' =>
      let '(field, rest) := take_field (width ed) record in
      field :: fields fmt' rest
  end.

(** [float(z)] on an [int] *)
Definition float_of_int (z : Z) : result real :=
  if Qle_bool huge (Qabs (inject_Z z))
  then Raise (OverflowError "int too large to convert to float")
  else Ok (rat (inject_Z z)).

(** One entry of a sequence made a float, as [np.array(vs, dtype=float)] and
    [astype(float)] on an array of Python objects do. *)
Definition cast_float (v : pyval) : result real :=
  match v with
  | PFloat x => Ok x
  | PInt z => float_of_int z
  | PStr s => float_of_str s
  | PNone => Ok NaN
  | PArray _ => Raise (ValueError "setting an array element with a sequence" "")
  end.

(** [np.array(vs, dtype=float)] on what a numeric format read. *)
Definition float_array (vs : list pyval) : result (list real) := mapM cast_float vs.

End Fortran.

(* ===================================================================== *)
(** ** Tables                                                             *)
(* ===================================================================== *)

Module Astropy.
Import Py Num Fortran.

(** The entries of a parser's [dtypes] list: Python's [int], [float], [str]. *)
Inductive dtype : Type := Int | Float | Str.

(** A column's array.  [CArray] is the two-dimensional float array numpy
    builds from a column whose entries are themselves arrays. *)
Inductive coldata : Type :=
| CObject (vs : list pyval)
| CInt (zs : list Z)
| CFloat (xs : list real)
| CStr (ss : list string)
| CArray (xss : list (list real)).

Record Column : Type := { unit : option string; data : coldata }.

(** [QTable]: the named columns in order, and the [meta] dictionary. *)
Record QTable : Type := { columns : list (string * Column); meta : gmap string string }.

(** [zip( *table)]: as many columns as the shortest row has entries. *)
Definition zip_star (table : list (list pyval)) : list (list pyval) :=
  match table with
  | [] => []
  | r :: rs =>
      let n := foldr (λ row m, Nat.min (length row) m) (length r) rs in
      (λ j, (λ row, default PNone (row !! j)) <$> table) <$> seq 0 n
  end.

(** [int(v)]: Python's integers have no bound.  An array converts when it
    has one entry. *)
Definition py_int (v : pyval) : result Z :=
  match v with
  | PInt z => Ok z
  | PStr s => int_of_str s
  | PFloat x => trunc x
  | PNone => Raise (TypeError "int() argument must be a string or a number")
  | PArray [x] => trunc x
  | PArray _ => Raise (TypeError "only length-1 arrays can be converted to Python scalars")
  end.

(** An [int] array holds 64 bits. *)
Definition int64 (z : Z) (e : exc) : result Z :=
  if ((- 2 ^ 63 <=? z) && (z <? 2 ^ 63))%Z then Ok z else Raise e.

(** numpy's [astype] on one entry of an array of text or of Python objects:
    the entry is converted as Python converts it, and has to fit. *)
Definition cast_int (v : pyval) : result Z :=
  match v with
  | PArray _ => Raise (ValueError "setting an array element with a sequence" "")
  | _ => z ← py_int v; int64 z (OverflowError "Python int too large to convert to C long")
  end.

(** Text stays as it is, a number is written out. *)
Definition cast_str (v : pyval) : result string :=
  match v with
  | PStr s => Ok s
  | PNone => Ok "None"
  | PInt z => Ok (pretty z)
  | PFloat x => from_option (NotModelled "text of a float kept symbolic") (float_repr x)
  | PArray _ => Raise (ValueError "setting an array element with a sequence" "")
  end.

(** One entry of an array of numbers.  The machine's cast to [int] never
    raises: it truncates, and what it leaves for a value that does not fit
    is not followed here.  In an array of floats an [int] is a float. *)
Definition number_to_int (v : pyval) : result Z :=
  let unfit := NotModelled "a number that does not fit 64 bits, cast to int" in
  match v with
  | PInt z => int64 z unfit
  | PFloat (Rat q) => int64 (Z.quot (Qnum q) (Zpos (Qden q))) unfit
  | _ => Raise unfit
  end.

Definition float_text (v : pyval) : result string :=
  match v with
  | PInt z => cast_str (PFloat (rat (inject_Z z)))
  | _ => cast_str v
  end.

Definition is_int (v : pyval) : bool :=
  match v with PInt _ => true | _ => false end.

Definition is_text (v : pyval) : bool :=
  match v with PStr _ => true | _ => false end.

(** An array of text holds its entries without the NULs at their end. *)
Fixpoint stored (s : string) : string :=
  match s with
  | EmptyString => EmptyString
  | String c s' =>
      match stored s' with
      | EmptyString => if Ascii.eqb c "000" then EmptyString else String c EmptyString
      | r => String c r
      end
  end.

Definition as_stored (v : pyval) : pyval :=
  match v with PStr s => PStr (stored s) | _ => v end.

Definition is_number (v : pyval) : bool :=
  match v with PInt _ | PFloat _ => true | _ => false end.

Definition as_array (v : pyval) : option (list real) :=
  match v with PArray xs => Some xs | _ => None end.

(** [np.array(vs).astype(dt)].  The entries of a column come from one
    descriptor of a format, or are all text, so they are of one kind, with
    [None] among them where a record was short.  A non-empty column of
    equally long arrays is a two-dimensional float array, and a ragged one
    is no array; a column of numbers is an array of [int] or of [float],
    cast by the machine; every other column, an array of text or of Python
    objects, is cast entry by entry as Python converts the entry. *)
Definition astype (dt : dtype) (vs : list pyval) : result coldata :=
  match vs, mapM as_array vs with
  | _ :: _, Some xss =>
      if forallb (λ ys, length ys =? length (default [] (head xss))) xss
      then match dt with
           | Float => Ok (CArray xss)
           | Int | Str => Raise (NotModelled "two-dimensional column of int or str")
           end
      else Raise (ValueError "setting an array element with a sequence" "")
  | _, _ =>
      if forallb is_number vs
      then match dt with
           | Int => zs ← mapM number_to_int vs; Ok (CInt zs)
           | Str => ss ← mapM (if forallb is_int vs then cast_str else float_text) vs;
                    Ok (CStr ss)
           | Float => xs ← mapM cast_float vs; Ok (CFloat xs)
           end
      else
        let vs := if forallb is_text vs then as_stored <$> vs else vs in
        match dt with
        | Int => zs ← mapM cast_int vs; Ok (CInt zs)
        | Str => ss ← mapM cast_str vs; Ok (CStr ss)
        | Float => xs ← mapM cast_float vs; Ok (CFloat xs)
        end
  end.

(** A token that does not cast to the declared type of its column, with the
    exception its cast raises.  An array entry of a [float] column is carried
    through, not cast. *)
Definition cast_fails (dt : dtype) (v : pyval) (e : exc) : Prop :=
  match dt with
  | Int => cast_int v = Raise e
  | Float => as_array v = None ∧ cast_float v = Raise e
  | Str => cast_str v = Raise e
  end.

(** Rows of text, as [str.split] gives them: every entry a [str]. *)
Definition text_rows (table : list (list string)) : list (list pyval) :=
  (λ row : list string, PStr <$> row) <$> table.

(** The table of [parse]: [QTable(data=..., names=headings)] followed by the
    loop over [zip(headings, units, dtypes)] that sets each column's unit and
    casts it.  Columns past the end of [units] or [dtypes] stay as built. *)
Fixpoint typed_columns (headings : list string) (units : list (option string))
    (dtypes : list dtype) (cols : list (list pyval)) : result (list (string * Column)) :=
  match headings, cols with
  | name :: headings', vs :: cols' =>
      match units, dtypes with
      | u :: units', dt :: dtypes' =>
          d ← astype dt vs;
          rest ← typed_columns headings' units' dtypes' cols';
          Ok ((name, {| unit := u; data := d |}) :: rest)
      | _, _ =>
          Ok (zip (name :: headings')
                  ((λ ws, {| unit := None; data := CObject ws |}) <$> (vs :: cols')))
      end
  | _, _ => Ok []
  end.

(** The data of [QTable(data=..., names=headings)]: the columns of
    [zip( *table)], and one empty column for each heading when there are
    none (no rows, or a row without a token). *)
Definition table_data (headings : list string) (table : list (list pyval))
    : list (list pyval) :=
  match zip_star table with
  | [] => (λ _, []) <$> headings
  | cols => cols
  end.

Definition build (headings : list string) (units : list (option string))
    (dtypes : list dtype) (table : list (list pyval)) : result QTable :=
  let cols := table_data headings table in
  if negb (length cols =? length headings)
  then Raise (ValueError "names must match number of columns" "")
  else if negb (bool_decide (NoDup headings))
  then Raise (ValueError "duplicate column names" "")
  else
    cs ← typed_columns headings units dtypes cols;
    Ok {| columns := cs; meta := ∅ |}.

(** *** Access *)

Definition colnames (df : QTable) : list string := (columns df).*1.

(** [df[name]] *)
Fixpoint assoc {A} (name : string) (l : list (string * A)) : option A :=
  match l with
  | [] => None
  | (n, a) :: l' => if String.eqb n name then Some a else assoc name l'
  end.

Definition column (df : QTable) (name : string) : result Column :=
  from_option (KeyError name) (assoc name (columns df)).

Definition col_length (d : coldata) : nat :=
  match d with
  | CObject vs => length vs
  | CInt zs => length zs
  | CFloat xs => length xs
  | CStr ss => length ss
  | CArray xss => length xss
  end.

(** [len(df)] *)
Definition nrows (df : QTable) : nat :=
  match columns df with
  | [] => 0
  | (_, c) :: _ => col_length (data c)
  end.

(** [col[i]] as a Python object *)
Definition cell (d : coldata) (i : nat) : option pyval :=
  match d with
  | CObject vs => vs !! i
  | CInt zs => PInt <$> zs !! i
  | CFloat xs => PFloat <$> xs !! i
  | CStr ss => PStr <$> ss !! i
  | CArray xss => PArray <$> xss !! i
  end.

(** [row[name]] for the [i]-th row of the table *)
Definition row_get (df : QTable) (i : nat) (name : string) : result pyval :=
  c ← column df name;
  from_option IndexError (cell (data c) i).

(** [df[name] = Column(...)] / [df[name] = quantity]: replace in place, or
    append a new column. *)
Fixpoint assoc_set {A} (name : string) (a : A) (l : list (string * A)) : list (string * A) :=
  match l with
  | [] => [(name, a)]
  | (n, b) :: l' =>
      if String.eqb n name then (n, a) :: l' else (n, b) :: assoc_set name a l'
  end.

Definition set_column (df : QTable) (name : string) (c : Column) : result QTable :=
  if negb (bool_decide (columns df = [])) && negb (col_length (data c) =? nrows df)
  then Raise (ValueError "inconsistent data column lengths" "")
  else Ok {| columns := assoc_set name c (columns df); meta := meta df |}.

(** [df.meta[key] = value] *)
Definition set_meta (df : QTable) (key value : string) : QTable :=
  {| columns := columns df; meta := <[key := value]> (meta df) |}.

(** [df.meta[key]] *)
Definition get_meta (df : QTable) (key : string) : result string :=
  from_option (KeyError key) (meta df !! key).

(** [col.unit.to_string()] *)
Definition unit_to_string (c : Column) : result string :=
  from_option (AttributeError "to_string") (unit c).

End Astropy.

(* ===================================================================== *)
(** ** The hierarchical store                                             *)
(* ===================================================================== *)

Module H5.
Import Py Num Fortran Astropy.

(** What a dataset holds: one value of a row, or a whole column. *)
Inductive value : Type :=
| Scalar (v : pyval)
| Array (d : coldata).

(** A node of the file: a group or a dataset, each with its attributes. *)
Inductive node : Type :=
| Group (attrs : gmap string string)
| Dataset (data : value) (attrs : gmap string string).

Definition attrs_of (n : node) : gmap string string :=
  match n with Group a | Dataset _ a => a end.

Definition with_attrs (n : node) (a : gmap string string) : node :=
  match n with
  | Group _ => Group a
  | Dataset d _ => Dataset d a
  end.

Definition is_group (n : node) : bool :=
  match n with Group _ => true | Dataset _ _ => false end.

(** The file, keyed by the path of each node from the root.  Names are used
    as they are joined: the elements, file stems and column names the
    parsers pass are plain (not empty, no [/] inside). *)
Abbreviation store := (gmap string node).

(** [grp_name + '/' + name] *)
Definition child (grp_name name : string) : string := grp_name +:+ "/" +:+ name.

(** The proper prefixes of a path that end before a [/]. *)
Fixpoint ancestors_go (pre s : string) : list string :=
  match s with
  | EmptyString => []
  | String c s' =>
      let pre' := pre +:+ String c EmptyString in
      if Ascii.eqb c "/" then pre :: ancestors_go pre' s' else ancestors_go pre' s'
  end.

Definition ancestors (path : string) : list string := ancestors_go EmptyString path.

(** [path in hf] *)
Definition contains (hf : store) (path : string) : bool :=
  bool_decide (is_Some (hf !! path)).

Definition ensure_group (p : string) (hf : store) : store :=
  match hf !! p with
  | Some _ => hf
  | None => <[p := Group ∅]> hf
  end.

(** [hf.create_group(path)]: missing intermediate groups are created, an
    existing node of that name is an error. *)
Definition create_group (hf : store) (path : string) : result store :=
  match hf !! path with
  | Some _ => Raise (ValueError "unable to create group (name already exists)" path)
  | None => Ok (<[path := Group ∅]> (foldr ensure_group hf (ancestors path)))
  end.

(** [hf[path].attrs[key]] *)
Definition get_attr (hf : store) (path key : string) : result string :=
  n ← from_option (KeyError path) (hf !! path);
  from_option (KeyError key) (attrs_of n !! key).

(** [hf[path].attrs[key] = v] *)
Definition set_attr (hf : store) (path key v : string) : result store :=
  n ← from_option (KeyError path) (hf !! path);
  Ok (<[path := with_attrs n (<[key := v]> (attrs_of n))]> hf).

(** [hf[path].attrs[key] = v] for a [path] that has a child in the file.  A
    node with a child is a group in HDF5; on a map that breaks this (a dataset
    where the parent should be) the assignment raises instead. *)
Definition set_group_attr (hf : store) (path key v : string) : result store :=
  n ← from_option (KeyError path) (hf !! path);
  match n with
  | Group a => Ok (<[path := Group (<[key := v]> a)]> hf)
  | Dataset _ _ => Raise (TypeError "a dataset cannot have children")
  end.

(** [name in grp] for the object [grp = hf[grp_name]]: only a group can be
    asked. *)
Definition group_contains (hf : store) (grp_name name : string) : result bool :=
  n ← from_option (KeyError grp_name) (hf !! grp_name);
  if is_group n then Ok (contains hf (child grp_name name))
  else Raise (TypeError "argument of type 'Dataset' is not iterable").

(** [grp.create_dataset(name, data=v)] *)
Definition create_dataset (hf : store) (grp_name name : string) (v : value) : result store :=
  match hf !! child grp_name name with
  | Some _ => Raise (ValueError "unable to create dataset (name already exists)" name)
  | None => Ok (<[child grp_name name := Dataset v ∅]> hf)
  end.

(** The [footer] attribute of the node at a path, if both exist. *)
Definition footer_of (hf : store) (path : string) : option string :=
  n ← hf !! path; attrs_of n !! "footer".

End H5.

(* ===================================================================== *)
(** ** The parsers                                                        *)
(* ===================================================================== *)

Import Py Num Fortran Astropy H5.

Definition nl : string := String "010" EmptyString.

(** What a parser object stores on itself while it reads a file
    ([IoneqParser.preprocessor] sets all three). *)
Record pstate : Type := {
  fformat_temperature : option (list edit);
  fformat_ioneq : option (list edit);
  temperature : option (list real)
}.

Definition fresh : pstate :=
  {| fformat_temperature := None; fformat_ioneq := None; temperature := None |}.

(** A parser class as [parse] sees it: the class attributes and the two
    methods a subclass may override. *)
Record Parser : Type := {
  full_path : string;
  headings : list string;
  units : list (option string);
  dtypes : list dtype;
  preprocessor :
    pstate → list (list pyval) → string → nat → result (pstate * list (list pyval));
  postprocessor : QTable → result QTable
}.

(** The process as the parsers see it: the text files on disk by path (as
    [readlines] returns them), the paths opened for reading so far, oldest
    first, and the HDF5 file the writers are handed. *)
Record World : Type := {
  files : gmap string (list string);
  opened : list string;
  hf : store
}.

Definition open_file (w : World) (path : string) : World :=
  {| files := files w; opened := opened w ++ [path]; hf := hf w |}.

(** What a call of [parse] comes to. *)
Inductive outcome : Type :=
| PyNone
| Returned (df : QTable)
| Raised (e : exc).

(** The loop of [parse] over [enumerate(lines)]: the rows collected and, when
    the loop left through [break], the text bound to [comment]. *)
Fixpoint scan (p : Parser) (st : pstate) (table : list (list pyval)) (i : nat)
    (lines : list string) : result (list (list pyval) * option string) :=
  match lines with
  | [] => Ok (table, None)
  | line :: rest =>
      if String.eqb (strip line) "-1" then Ok (table, Some (join rest))
      else
        '(st', table') ← preprocessor p st table line i;
        scan p st' table' (S i) rest
  end.

(** [GenericParser.parse] up to [df.meta['footer'] = comment]. *)
Definition parse_table (p : Parser) (lines : list string) : result QTable :=
  '(table, comment) ← scan p fresh [] 0 lines;
  df ← build (headings p) (units p) (dtypes p) table;
  footer ← from_option (UnboundLocalError "comment") comment;
  Ok (set_meta df "footer" footer).

(** The rest of [parse], given the lines of the [VERSION] file. *)
Definition parse_finish (p : Parser) (df : QTable) (vlines : list string) : result QTable :=
  first ← from_option IndexError (vlines !! 0);
  postprocessor p (set_meta df "chianti_version" (strip first)).

(** [GenericParser.preprocessor]; [fformat] is the class attribute of that
    name where the class has one. *)
Definition GenericParser_preprocessor (fformat : option (list edit))
    (st : pstate) (table : list (list pyval)) (line : string) (index : nat)
    : result (pstate * list (list pyval)) :=
  items ← match fformat with
          | Some fmt => read fmt line
          | None => Ok (PStr <$> split (strip line))
          end;
  let items := (λ item, match item with PStr s => PStr (strip s) | _ => item end) <$> items in
  Ok (st, table ++ [items]).

(** The labelled footer block of [AbundParser.to_hdf5] and
    [IpParser.to_hdf5]. *)
Definition footer_block (dataset_name footer : string) : string :=
  dataset_name +:+ nl +:+ "------------------" +:+ nl +:+ footer +:+ nl +:+ "        ".

Definition as_str (e : exc) (v : pyval) : result string :=
  match v with PStr s => Ok s | _ => Raise e end.

(** [if grp_name not in hf: grp = hf.create_group(grp_name);
    grp.attrs['footer'] = '' else: grp = hf[grp_name]], as all three
    non-ion writers open their group. *)
Definition find_or_create (hf : store) (grp_name : string) : result store :=
  if contains hf grp_name then Ok hf
  else hf' ← create_group hf grp_name; set_attr hf' grp_name "footer" "".

(** The body shared, line for line, by the row loops of [AbundParser.to_hdf5]
    (lines 50-58) and [IpParser.to_hdf5] (lines 133-141): find or create the
    group, append the footer block, create the dataset unless it is there. *)
Definition write_once (hf : store) (grp_name dataset_name footer : string)
    (data : result pyval) (unit_string : result string) : result store :=
  hf1 ← find_or_create hf grp_name;
  f ← get_attr hf1 grp_name "footer";
  hf2 ← set_attr hf1 grp_name "footer" (f +:+ footer);
  present ← group_contains hf2 grp_name dataset_name;
  if (present : bool) then Ok hf2
  else
    v ← data;
    hf3 ← create_dataset hf2 grp_name dataset_name (Scalar v);
    u ← unit_string;
    set_attr hf3 (child grp_name dataset_name) "unit" u.

(** [df[name] == 1], [df[name]] as floats *)
Definition equals_one (d : coldata) : result (list bool) :=
  match d with
  | CInt zs => Ok ((λ z, Z.eqb z 1) <$> zs)
  | CFloat xs => Ok ((λ x, match x with Rat q => Qeq_bool q 1 | _ => false end) <$> xs)
  | _ => Raise (TypeError "comparison of a non-numeric column")
  end.

Definition as_floats (d : coldata) : result (list real) :=
  match d with
  | CFloat xs => Ok xs
  | CInt zs => Ok ((λ z, rat (inject_Z z)) <$> zs)
  | _ => Raise (TypeError "unsupported operand type(s) for -")
  end.

(** [x[mask]] *)
Fixpoint select {A} (xs : list A) (mask : list bool) : list A :=
  match xs, mask with
  | x :: xs', b :: mask' => if b then x :: select xs' mask' else select xs' mask'
  | _, _ => []
  end.

(** [x - y] on one-dimensional arrays ([y] is never longer than [x] here):
    elementwise for equal lengths, against the single element of [y]
    otherwise.  Anything else does not broadcast, or broadcasts to an empty
    array that cannot replace the column. *)
Definition broadcast_sub (xs ys : list real) : result (list real) :=
  if length ys =? length xs then Ok (zip_with sub xs ys)
  else match ys with
       | [y] => Ok ((λ x, sub x y) <$> xs)
       | _ => Raise (ValueError "operands could not be broadcast together" "")
       end.

(** A token of the whitespace decoder: not empty, no white space in it. *)
Definition word (w : string) : Prop :=
  w ≠ EmptyString ∧ Forall (λ c, isspace c = false) (list_ascii_of_string w).

(** The shape of a data row of an ionization-equilibrium file: two leading
    entries, the grid [t], and [n] fractions. *)
Definition grid_row (n : nat) (t : list real) (row : list pyval) : Prop :=
  ∃ a b fr, row = [a; b; PArray t; PArray fr] ∧ length fr = n.

Section Parsers.

(** [fiasco.defaults['chianti_dbase_root']] *)
Variable chianti_dbase_root : string.

(** [periodictable.elements[Z].symbol]; [None] where the lookup raises. *)
Variable element_symbol : Z → option string.

Definition version_path : string := path_join chianti_dbase_root "VERSION".

(** [GenericParser.parse] *)
Definition parse (p : Parser) (w : World) : outcome * World :=
  match files w !! full_path p with
  | None => (PyNone, w)
  | Some lines =>
      let w1 := open_file w (full_path p) in
      match parse_table p lines with
      | Raise e => (Raised e, w1)
      | Ok df =>
          match files w1 !! version_path with
          | None => (Raised (FileNotFoundError version_path), w1)
          | Some vlines =>
              let w2 := open_file w1 version_path in
              match parse_finish p df vlines with
              | Raise e => (Raised e, w2)
              | Ok df' => (Returned df', w2)
              end
          end
      end
  end.

(** *** GenericParser *)

(** An instance of a [GenericParser] subclass for ion files: the constructor
    argument and the class attributes the subclass supplies. *)
Record IonParser : Type := {
  ion_filename : string;
  filetype : string;
  ion_headings : list string;
  ion_units : list (option string);
  ion_dtypes : list dtype;
  fformat : option (list edit)
}.

Definition ion_name (p : IonParser) : string := split_first "." (ion_filename p).
Definition element (p : IonParser) : string := split_first "_" (ion_name p).

(** [GenericParser.postprocessor] *)
Definition GenericParser_postprocessor (p : IonParser) (df : QTable) : result QTable :=
  Ok (set_meta (set_meta df "element" (element p)) "ion" (ion_name p)).

Definition GenericParser (p : IonParser) : Parser := {|
  full_path := path_join_all chianti_dbase_root [element p; ion_name p; ion_filename p];
  headings := ion_headings p;
  units := ion_units p;
  dtypes := ion_dtypes p;
  preprocessor := GenericParser_preprocessor (fformat p);
  postprocessor := GenericParser_postprocessor p
|}.

(** ['SKIP'] for a column without unit, else [col.unit.to_string()]. *)
Definition unit_attr (c : Column) : string :=
  match unit c with None => "SKIP" | Some u => u end.

(** The loop body of [GenericParser.to_hdf5] for one column. *)
Definition write_column (grp_name : string) (hf : store) (col : string * Column) : result store :=
  present ← group_contains hf grp_name col.1;
  hf1 ← (if (present : bool) then Ok hf
         else create_dataset hf grp_name col.1 (Array (data col.2)));
  set_attr hf1 (child grp_name col.1) "unit" (unit_attr col.2).

(** [GenericParser.to_hdf5] *)
Definition GenericParser_to_hdf5 (p : IonParser) (hf : store) (df : QTable) : result store :=
  let grp_name := join_with "/" [element p; ion_name p; filetype p] in
  let ion_grp := join_with "/" [element p; ion_name p] in
  hf1 ← (if contains hf grp_name then Ok hf
         else
           hf' ← create_group hf grp_name;
           v ← get_meta df "chianti_version";
           hf' ← set_attr hf' grp_name "chianti_version" v;
           f ← get_meta df "footer";
           set_attr hf' grp_name "footer" f);
  hf2 ← set_group_attr hf1 ion_grp "element" (element p);
  hf3 ← set_group_attr hf2 ion_grp "ion" (ion_name p);
  for_loop (write_column grp_name) hf3 (columns df).

(** *** AbundParser *)

Definition abund_headings : list string :=
  ["atomic number"; "abundance relative to H"; "element"].

(** [periodictable.elements[int(atomic_number)].symbol.lower()] for the
    [i]-th entry of the atomic-number column. *)
Definition repaired_symbol (z : Column) (i : nat) : result string :=
  atomic_number ← from_option IndexError (cell (data z) i);
  n ← py_int atomic_number;
  sym ← from_option (KeyError (pretty n)) (element_symbol n);
  Ok (lower sym).

(** [df['element'][0]] *)
Definition first_element (df : QTable) : result pyval :=
  el ← column df "element";
  from_option IndexError (cell (data el) 0).

(** [AbundParser.postprocessor] *)
Definition AbundParser_postprocessor (abundance_filename : string) (df : QTable)
    : result QTable :=
  c ← column df "abundance relative to H";
  xs ← as_floats (data c);
  z ← column df "atomic number";
  mask ← equals_one (data z);
  ys ← broadcast_sub xs (select xs mask);
  _ ← (match unit c with
        | Some (String _ _) => Raise (TypeError "exponent of a power must be dimensionless")
        | _ => Ok ()
        end);
  df ← set_column df "abundance relative to H" {| unit := unit c; data := CFloat (ten_pow <$> ys) |};
  first ← first_element df;
  df ← (match first with
        | PStr EmptyString =>
            z ← column df "atomic number";
            col ← mapM (repaired_symbol z) (seq 0 (col_length (data z)));
            set_column df "element" {| unit := None; data := CStr col |}
        | _ => Ok df
        end);
  Ok (set_meta df "abundance_filename" abundance_filename).

Definition AbundParser (abundance_filename : string) : Parser := {|
  full_path := path_join_all chianti_dbase_root ["abundance"; abundance_filename];
  headings := abund_headings;
  units := [None; Some ""; None];
  dtypes := [Int; Float; Str];
  preprocessor := GenericParser_preprocessor (Some [I 3; F 7 3; A 5]);
  postprocessor := AbundParser_postprocessor abundance_filename
|}.

(** [grp_name] of [AbundParser.to_hdf5]: [element/abundance]. *)
Definition abund_group (df : QTable) (row : nat) : result string :=
  el ← row_get df row "element";
  el ← as_str (AttributeError "lower") el;
  Ok (join_with "/" [lower el; "abundance"]).

(** [AbundParser.to_hdf5] *)
Definition AbundParser_to_hdf5 (abundance_filename : string) (hf : store) (df : QTable)
    : result store :=
  let dataset_name := splitext_root (basename abundance_filename) in
  f ← get_meta df "footer";
  let footer := footer_block dataset_name f in
  for_loop (λ hf row,
      grp_name ← abund_group df row;
      write_once hf grp_name dataset_name footer
        (row_get df row "abundance relative to H")
        (c ← column df "abundance relative to H"; unit_to_string c))
    hf (seq 0 (nrows df)).

(** *** IoneqParser *)

(** [fortranformat.FortranRecordReader(fmt)] for a format with a repeat
    count taken from the file: a count of zero repeats nothing, and a
    negative one is no format. *)
Definition repeated (n : Z) (fixed : list edit) (ed : edit) : result (list edit) :=
  if (0 <=? n)%Z then Ok (fixed ++ replicate (Z.to_nat n) ed)
  else Raise (InvalidFormat (pretty n)).

(** [IoneqParser.preprocessor] *)
Definition IoneqParser_preprocessor (st : pstate) (table : list (list pyval))
    (line : string) (index : nat) : result (pstate * list (list pyval)) :=
  match index with
  | 0 =>
      w ← from_option IndexError (split (strip line) !! 0);
      num_entries ← int_of_str w;
      ft ← repeated num_entries [] (F 6 2);
      fi ← repeated num_entries [I 3; I 3] (E 10 2);
      Ok ({| fformat_temperature := Some ft; fformat_ioneq := Some fi;
             temperature := temperature st |}, table)
  | 1 =>
      ft ← from_option (AttributeError "fformat_temperature") (fformat_temperature st);
      vs ← read ft line;
      xs ← float_array vs;
      Ok ({| fformat_temperature := fformat_temperature st;
             fformat_ioneq := fformat_ioneq st;
             temperature := Some (ten_pow <$> xs) |}, table)
  | _ =>
      fi ← from_option (AttributeError "fformat_ioneq") (fformat_ioneq st);
      items ← read fi line;
      t ← from_option (AttributeError "temperature") (temperature st);
      fr ← float_array (drop 2 items);
      Ok (st, table ++ [take 2 items ++ [PArray t; PArray fr]])
  end.

Definition IoneqParser_postprocessor (ioneq_filename : string) (df : QTable) : result QTable :=
  Ok (set_meta df "ioneq_filename" ioneq_filename).

Definition IoneqParser (ioneq_filename : string) : Parser := {|
  full_path := path_join_all chianti_dbase_root ["ioneq"; ioneq_filename];
  headings := ["atomic number"; "ion"; "temperature"; "ionization fraction"];
  units := [None; None; Some "K"; Some ""];
  dtypes := [Int; Int; Float; Float];
  preprocessor := IoneqParser_preprocessor;
  postprocessor := IoneqParser_postprocessor ioneq_filename
|}.

(** [periodictable.elements[int(row['atomic number'])].symbol.lower()] *)
Definition row_symbol (df : QTable) (row : nat) : result string :=
  v ← row_get df row "atomic number";
  n ← py_int v;
  sym ← from_option (KeyError (pretty n)) (element_symbol n);
  Ok (lower sym).

(** [grp_name] of the ion-resolved writers: [el/el_ion/filetype]. *)
Definition ion_group (df : QTable) (row : nat) (filetype : string) : result string :=
  el ← row_symbol df row;
  v ← row_get df row "ion";
  ion ← py_int v;
  Ok (join_with "/" [el; el +:+ "_" +:+ pretty ion; filetype]).

(** [IoneqParser.to_hdf5] *)
Definition IoneqParser_to_hdf5 (ioneq_filename : string) (hf : store) (df : QTable)
    : result store :=
  let dataset_name := splitext_root (basename ioneq_filename) in
  for_loop (λ hf row,
      grp_name ← ion_group df row "ioneq";
      hf1 ← find_or_create hf grp_name;
      present ← group_contains hf1 grp_name dataset_name;
      if (present : bool) then Ok hf1
      else
        let sub_grp := child grp_name dataset_name in
        hf2 ← create_group hf1 sub_grp;
        f ← get_meta df "footer";
        hf3 ← set_attr hf2 sub_grp "footer" f;
        t ← row_get df row "temperature";
        hf4 ← create_dataset hf3 sub_grp "temperature" (Scalar t);
        c ← column df "temperature";
        u ← unit_to_string c;
        hf5 ← set_attr hf4 (child sub_grp "temperature") "unit" u;
        x ← row_get df row "ionization fraction";
        hf6 ← create_dataset hf5 sub_grp "ionization fraction" (Scalar x);
        c ← column df "ionization fraction";
        u ← unit_to_string c;
        set_attr hf6 (child sub_grp "ionization fraction") "unit" u)
    hf (seq 0 (nrows df)).

(** *** IpParser *)

Definition IpParser_postprocessor (ip_filename : string) (df : QTable) : result QTable :=
  Ok (set_meta df "ip_filename" ip_filename).

Definition IpParser (ip_filename : string) : Parser := {|
  full_path := path_join_all chianti_dbase_root ["ip"; ip_filename];
  headings := ["atomic number"; "ion"; "ionization potential"];
  units := [None; None; Some "1 / cm"];
  dtypes := [Int; Int; Float];
  preprocessor := GenericParser_preprocessor None;
  postprocessor := IpParser_postprocessor ip_filename
|}.

(** [IpParser.to_hdf5] *)
Definition IpParser_to_hdf5 (ip_filename : string) (hf : store) (df : QTable)
    : result store :=
  let dataset_name := splitext_root (basename ip_filename) in
  f ← get_meta df "footer";
  let footer := footer_block dataset_name f in
  for_loop (λ hf row,
      grp_name ← ion_group df row "ip";
      write_once hf grp_name dataset_name footer
        (row_get df row "ionization potential")
        (c ← column df "ionization potential"; unit_to_string c))
    hf (seq 0 (nrows df)).

(** The two groups [GenericParser.to_hdf5] addresses: [element/ion] and,
    below it, [element/ion/filetype]. *)
Definition ion_group_of (p : IonParser) : string :=
  join_with "/" [element p; ion_name p].

Definition file_group_of (p : IonParser) : string :=
  join_with "/" [element p; ion_name p; filetype p].

(** *** Dispatch *)

(** A parser object, as far as its [to_hdf5] method goes. *)
Inductive writer : Type :=
| IonWriter (p : IonParser)
| AbundWriter (abundance_filename : string)
| IoneqWriter (ioneq_filename : string)
| IpWriter (ip_filename : string).

(** [parser.to_hdf5(hf, df)] *)
Definition to_hdf5 (w : writer) (hf : store) (df : QTable) : result store :=
  match w with
  | IonWriter p => GenericParser_to_hdf5 p hf df
  | AbundWriter f => AbundParser_to_hdf5 f hf df
  | IoneqWriter f => IoneqParser_to_hdf5 f hf df
  | IpWriter f => IpParser_to_hdf5 f hf df
  end.

(** The group a row of the table is written to. *)
Definition row_group (w : writer) (df : QTable) (row : nat) : result string :=
  match w with
  | IonWriter p => Ok (join_with "/" [element p; ion_name p; filetype p])
  | AbundWriter _ => abund_group df row
  | IoneqWriter _ => ion_group df row "ioneq"
  | IpWriter _ => ion_group df row "ip"
  end.

Definition targets (r : result string) (g : string) : bool :=
  match r with
  | Ok g' => String.eqb g' g
  | Raise _ => false
  end.

(** How many rows of the table are written to the group [g]. *)
Definition hits (w : writer) (df : QTable) (g : string) : nat :=
  length (List.filter (λ row, targets (row_group w df row) g) (seq 0 (nrows df))).

(** [dataset_name]: the stem of the file the parser was made for. *)
Definition dataset_name (w : writer) : string :=
  match w with
  | IonWriter p => splitext_root (basename (ion_filename p))
  | AbundWriter f | IoneqWriter f | IpWriter f => splitext_root (basename f)
  end.

(** The labelled footer block a source contributes. *)
Definition block (w : writer) (df : QTable) : result string :=
  f ← get_meta df "footer"; Ok (footer_block (dataset_name w) f).

(** The parser object behind a writer: the same object has both methods. *)
Definition parser_of (w : writer) : Parser :=
  match w with
  | IonWriter p => GenericParser p
  | AbundWriter f => AbundParser f
  | IoneqWriter f => IoneqParser f
  | IpWriter f => IpParser f
  end.

(** What the parser's [postprocessor] adds to [df.meta]. *)
Definition provenance (w : writer) (m : gmap string string) : gmap string string :=
  match w with
  | IonWriter p => <["ion" := ion_name p]> (<["element" := element p]> m)
  | AbundWriter f => <["abundance_filename" := f]> m
  | IoneqWriter f => <["ioneq_filename" := f]> m
  | IpWriter f => <["ip_filename" := f]> m
  end.

(** The lines of a source before its data rows: the count and the
    temperature grid of an ionization-equilibrium file. *)
Definition header_lines (w : writer) : nat :=
  match w with
  | IoneqWriter _ => 2
  | _ => 0
  end.

(** The column whose values [AbundParser.to_hdf5] and [IpParser.to_hdf5]
    store. *)
Definition value_column (w : writer) : string :=
  match w with
  | AbundWriter _ => "abundance relative to H"
  | IpWriter _ => "ionization potential"
  | IonWriter _ | IoneqWriter _ => ""
  end.

(** The writers that append to the footer of the group. *)
Definition accumulating (w : writer) : bool :=
  match w with
  | AbundWriter _ | IpWriter _ => true
  | IonWriter _ | IoneqWriter _ => false
  end.

End Parsers.

(** The number of positions of [s] at which [pat] starts. *)
Fixpoint occurrences (pat s : string) : nat :=
  (if String.prefix pat s then 1 else 0) +
  match s with
  | EmptyString => 0
  | String _ s' => occurrences pat s'
  end.

(** *** Relations between two states of the file *)

(** Every node of [hf] is in [hf'], unchanged. *)
Definition extends (hf hf' : store) : Prop :=
  ∀ k n, hf !! k = Some n → hf' !! k = Some n.

(** Every dataset of [hf] is in [hf'] with the same data, its attributes
    unchanged or with the unit of one of the columns [cs] assigned. *)
Definition restamps (cs : list (string * Column)) (hf hf' : store) : Prop :=
  ∀ k d a, hf !! k = Some (Dataset d a) →
    ∃ a', hf' !! k = Some (Dataset d a') ∧
          (a' = a ∨ ∃ c, c ∈ cs ∧ a' = <["unit" := unit_attr c.2]> a).

(** Every node of [hf] is in [hf'] and is still a group, or still a
    dataset. *)
Definition same_kind (hf hf' : store) : Prop :=
  ∀ k n, hf !! k = Some n → ∃ n', hf' !! k = Some n' ∧ is_group n' = is_group n.

(* ===================================================================== *)
(** ** A small database to run the code on                                *)
(* ===================================================================== *)

Module Scenario.

Definition root : string := "/chianti".

(** The first entries of the periodic table; index 0 is the neutron. *)
Definition symbols (z : Z) : option string :=
  if (z <? 0)%Z then None
  else ["n"; "H"; "He"; "Li"; "Be"; "B"; "C"; "N"; "O"] !! Z.to_nat z.

(** The abundance file of the specification's scenario, the ionization
    equilibrium files (the scenario's line, and the same numbers laid out in
    the columns of the format [2I3,3E10.2]), ionization-potential files (one
    complete, one that lacks its terminator, two with a token that is not a
    number), and the version marker. *)
Definition abund_lines : list string :=
  ["1  7.300  h" +:+ nl; "-1" +:+ nl; "comment" +:+ nl].

(** An abundance file that lists hydrogen twice. *)
Definition abund_twice_lines : list string :=
  ["  1 12.000 h" +:+ nl; "  1 12.000 H" +:+ nl; " -1" +:+ nl; "comment" +:+ nl].

Definition ioneq_lines : list string :=
  ["3"; "4.00  4.50  5.00"; " 1  1 1.0e-2 5.0e-1 1.0e-2"; "-1"].

Definition ioneq_fixed_lines : list string :=
  ["3"; "4.00  4.50  5.00"; "  1  1  1.00e-02  5.00e-01  1.00e-02"; "-1"].

Definition ioneq_two_rows : list string :=
  ["3"; "4.00  4.50  5.00";
   "  1  1  1.00e-02  5.00e-01  1.00e-02";
   "  1  2  9.90e-01  5.00e-01  9.90e-01"; "-1"].

Definition ip_lines : list string :=
  ["  1  1  109678.77" +:+ nl; "  2  1  198310.67" +:+ nl; " -1" +:+ nl; "%file: chianti.ip" +:+ nl].

Definition ip_unterminated : list string :=
  ["  1  1  109678.77" +:+ nl; "  2  1  198310.67" +:+ nl].

Definition disk : gmap string (list string) :=
  {[ "/chianti/abundance/sun.abund" := abund_lines;
     "/chianti/abundance/dup.abund" := abund_twice_lines;
     "/chianti/ioneq/chianti.ioneq" := ioneq_lines;
     "/chianti/ioneq/fixed.ioneq" := ioneq_fixed_lines;
     "/chianti/ioneq/two.ioneq" := ioneq_two_rows;
     "/chianti/ip/chianti.ip" := ip_lines;
     "/chianti/ip/cut.ip" := ip_unterminated;
     "/chianti/ip/short.ip" := ip_unterminated;
     "/chianti/ip/bad0.ip" := ["  x  1  2.0" +:+ nl; " -1" +:+ nl];
     "/chianti/ip/bad1.ip" := ["  1  1  2.0" +:+ nl; "  2  x  3.0" +:+ nl; " -1" +:+ nl];
     "/chianti/VERSION" := ["8.0.2" +:+ nl] ]}.

Definition world : World := {| files := disk; opened := []; hf := ∅ |}.

Definition the_table (o : outcome) : QTable :=
  match o with
  | Returned df => df
  | _ => {| columns := []; meta := ∅ |}
  end.

Definition the_result (r : result QTable) : QTable :=
  match r with
  | Ok df => df
  | Raise _ => {| columns := []; meta := ∅ |}
  end.

Definition the_store (r : result store) : store :=
  match r with Ok s => s | Raise _ => ∅ end.

(** The table [AbundParser('sun.abund').parse()] returns. *)
Definition sun : QTable := the_table (parse root (AbundParser root symbols "sun.abund") world).1.

(** A second abundance source for the same element. *)
Definition other : QTable :=
  {| columns := [("atomic number", {| unit := None; data := CInt [1%Z] |});
                 ("abundance relative to H", {| unit := Some ""; data := CFloat [Rat 1] |});
                 ("element", {| unit := None; data := CStr ["h"] |})];
     meta := {[ "footer" := "other source" ]} |}.

(** The file after [sun] has been written once, and twice. *)
Definition once : store := the_store (to_hdf5 symbols (AbundWriter "sun.abund") ∅ sun).
Definition twice : store := the_store (to_hdf5 symbols (AbundWriter "sun.abund") once sun).

(** The file after [sun] and then [other]. *)
Definition both : store := the_store (to_hdf5 symbols (AbundWriter "other.abund") once other).

(** The table [AbundParser('dup.abund').parse()] returns, with its two rows
    for hydrogen; the file after it has been written, and after [other] has
    been written too. *)
Definition dup : QTable := the_table (parse root (AbundParser root symbols "dup.abund") world).1.
Definition dup_once : store := the_store (to_hdf5 symbols (AbundWriter "dup.abund") ∅ dup).
Definition dup_both : store :=
  the_store (to_hdf5 symbols (AbundWriter "other.abund") dup_once other).

(** Abundance tables as [parse] hands them to the post-processor: one whose
    first row lacks the element, one where only a later row does. *)
Definition abundances (elements : list string) : QTable :=
  {| columns := [("atomic number", {| unit := None; data := CInt [1%Z; 2%Z] |});
                 ("abundance relative to H",
                  {| unit := Some ""; data := CFloat [Rat 12; Rat (1093 # 100)] |});
                 ("element", {| unit := None; data := CStr elements |})];
     meta := {[ "footer" := "" ]} |}.

(** An abundance table without hydrogen. *)
Definition helium_only : QTable :=
  {| columns := [("atomic number", {| unit := None; data := CInt [2%Z] |});
                 ("abundance relative to H",
                  {| unit := Some ""; data := CFloat [Rat (1093 # 100)] |});
                 ("element", {| unit := None; data := CStr ["he"] |})];
     meta := {[ "footer" := "" ]} |}.

Definition repaired : QTable :=
  the_result (AbundParser_postprocessor symbols "sun.abund" (abundances [""; "xx"])).

(** An ion file parser, a table of its columns, and the same table with the
    unit of one column changed. *)
Definition elvlc : IonParser :=
  {| ion_filename := "h_1.elvlc"; filetype := "elvlc";
     ion_headings := ["level"; "energy"];
     ion_units := [None; Some "1 / cm"];
     ion_dtypes := [Int; Float];
     fformat := None |}.

Definition levels (u : option string) : QTable :=
  {| columns := [("level", {| unit := None; data := CInt [1%Z; 2%Z] |});
                 ("energy", {| unit := u; data := CFloat [Rat 0; Rat 82259] |})];
     meta := {[ "footer" := "levels"; "chianti_version" := "8.0.2" ]} |}.

Definition levels_once : store :=
  the_store (to_hdf5 symbols (IonWriter elvlc) ∅ (levels (Some "1 / cm"))).
Definition levels_twice : store :=
  the_store (to_hdf5 symbols (IonWriter elvlc) levels_once (levels (Some "eV"))).

(** The table of the two-row ionization-equilibrium file, and the file after
    it has been written. *)
Definition fractions : QTable :=
  the_table (parse root (IoneqParser root "two.ioneq") world).1.

Definition fractions_once : store :=
  the_store (to_hdf5 symbols (IoneqWriter "two.ioneq") ∅ fractions).

(** The file after an abundance table with two rows for hydrogen. *)
Definition doubled : store :=
  the_store (to_hdf5 symbols (AbundWriter "sun.abund") ∅ (abundances ["h"; "H"])).

End Scenario.

Import Scenario.

(* ===================================================================== *)
(** ** The helpers on small inputs                                        *)
(* ===================================================================== *)

Example strip_terminator : strip (" -1" +:+ nl) = "-1".
Proof. reflexivity. Qed.

Example split_on_blanks : split "  1  1  109678.77 " = ["1"; "1"; "109678.77"].
Proof. reflexivity. Qed.

Example stem_of_path :
  splitext_root (basename "abundance/sun_photospheric.abund") = "sun_photospheric" ∧
  splitext_root ".abund" = ".abund".
Proof. split; reflexivity. Qed.

Example path_of_source :
  full_path (IpParser "/chianti" "chianti.ip") = "/chianti/ip/chianti.ip" ∧
  version_path "/chianti" = "/chianti/VERSION".
Proof. split; reflexivity. Qed.

Example read_abundance_record :
  read [I 3; F 7 3; A 5] " 26  7.500 Fe" = Ok [PInt 26; PFloat (Rat (15 # 2)); PStr " Fe  "] ∧
  read [F 7 3] "  12000" = Ok [PFloat (Rat 12)] ∧
  read [I 3; F 7 3] " 26" = Ok [PInt 26; PNone].
Proof. repeat split; vm_compute; reflexivity. Qed.

Example float_literals :
  float_of_str "1.0e-2" = Ok (Rat (1 # 100)) ∧
  float_of_str " -12.5E+1 " = Ok (Rat (-125)) ∧
  float_of_str "1e" = Raise (ValueError "could not convert string to float" "1e") ∧
  int_of_str "1.0" = Raise (ValueError "invalid literal for int() with base 10" "1.0").
Proof. repeat split; vm_compute; reflexivity. Qed.

(** The newline of a line is no part of its record, and a sign alone is a
    zero. *)
Example short_records :
  read [I 3; F 7 3; A 5] ("  1" +:+ nl) = Ok [PInt 1; PNone; PStr "     "] ∧
  read [I 3; F 7 3; A 5] ("  -  7.300  h" +:+ nl) =
    Ok [PInt 0; PFloat (Rat (73 # 10)); PStr "  h  "] ∧
  read [I 3; I 3] "  1  x" =
    Raise (ValueError "not a valid input for integer" "  x").
Proof. repeat split; vm_compute; reflexivity. Qed.

(** What is no number, and the numbers beyond the doubles and beyond 64
    bits. *)
Example literals_at_the_limits :
  float_of_str "nan" = Ok NaN ∧ float_of_str "-Infinity" = Ok (Inf true) ∧
  float_of_str "1e999" = Ok (Inf false) ∧ float_of_str "1e-999" = Ok (Rat 0) ∧
  float_of_str "1_000.5" = Ok (Rat (2001 # 2)) ∧ int_of_str "1_000" = Ok 1000%Z ∧
  cast_int (PStr "9223372036854775807") = Ok 9223372036854775807%Z ∧
  cast_int (PStr "9223372036854775808") =
    Raise (OverflowError "Python int too large to convert to C long").
Proof. repeat split; vm_compute; reflexivity. Qed.

(** Numbers as text. *)
Example numbers_as_text :
  astype Str [PFloat (Rat (73 # 10)); PFloat (Rat 100000); PFloat (Rat (1 # 100000))] =
    Ok (CStr ["7.3"; "100000.0"; "1e-05"]) ∧
  astype Str [PInt 26; PInt (-1)] = Ok (CStr ["26"; "-1"]) ∧
  astype Str [PStr "h"; PNone] = Ok (CStr ["h"; "None"]) ∧
  astype Int [PFloat (Rat (15 # 2)); PFloat (Rat (-3 # 2))] = Ok (CInt [7%Z; (-1)%Z]) ∧
  astype Int [PInt 1; PNone] =
    Raise (TypeError "int() argument must be a string or a number").
Proof. repeat split; vm_compute; reflexivity. Qed.

(** White space beyond ASCII. *)
Example latin_1_spaces :
  strip (String "160" "fe" +:+ String "133" "") = "fe" ∧
  split ("fe" +:+ String "160" "26") = ["fe"; "26"].
Proof. split; vm_compute; reflexivity. Qed.

Example powers_of_ten :
  ten_pow (Rat 4) = Rat 10000 ∧ ten_pow (Rat (-2)) = Rat (1 # 100) ∧
  ten_pow (Rat (9 # 2)) = Pow10 (Rat (9 # 2)) ∧ ten_pow NaN = NaN ∧
  ten_pow (Rat 309) = Inf false ∧ ten_pow (Inf true) = Rat 0.
Proof. repeat split; vm_compute; reflexivity. Qed.

Example groups_on_the_way : ancestors "h/h_1/ip" = ["h"; "h/h_1"].
Proof. reflexivity. Qed.

Example footer_block_layout :
  footer_block "sun" "comment" =
  "sun" +:+ nl +:+ "------------------" +:+ nl +:+ "comment" +:+ nl +:+ "        ".
Proof. reflexivity. Qed.

Example broadcast_cases :
  broadcast_sub [Rat 12; Rat 11] [Rat 12] = Ok [Rat 0; Rat (-1)] ∧
  broadcast_sub [Rat 12; Rat 11] [Rat 12; Rat 11] = Ok [Rat 0; Rat 0] ∧
  broadcast_sub [Rat 12; Rat 11] [] =
    Raise (ValueError "operands could not be broadcast together" "").
Proof. repeat split; vm_compute; reflexivity. Qed.

(* ===================================================================== *)
(** ** Facts about the building blocks                                    *)
(* ===================================================================== *)

(** *** Sequencing *)

Lemma bind_Ok {A B} (m : result A) (k : A → result B) (b : B) :
  m ≫= k = Ok b → ∃ a, m = Ok a ∧ k a = Ok b.
Proof. destruct m as [a|e]; simpl; [eauto | discriminate]. Qed.

Lemma from_option_Ok {A} (e : exc) (o : option A) (a : A) :
  from_option e o = Ok a → o = Some a.
Proof. destruct o; simpl; congruence. Qed.

(** Take the first step of a successful sequence: its value and its
    equation. *)
Tactic Notation "step" hyp(H) "as" simple_intropattern(a) simple_intropattern(Ha) :=
  apply bind_Ok in H as (a & Ha & H).

(** A loop invariant: what every successful turn preserves holds at the end. *)
Lemma for_loop_invariant {A S} (f : S → A → result S) (P : S → Prop) (xs : list A) :
  (∀ s x s', P s → f s x = Ok s' → P s') →
  ∀ s s', P s → for_loop f s xs = Ok s' → P s'.
Proof.
  intros Hstep. induction xs as [|x xs IH]; intros s s' Hs H; simpl in H.
  - by injection H as <-.
  - step H as s1 H1. eauto.
Qed.

Lemma mapM_cons {A B} (f : A → result B) (x : A) (xs : list A) :
  mapM f (x :: xs) = f x ≫= λ y, mapM f xs ≫= λ ys, Ok (y :: ys).
Proof. reflexivity. Qed.

(** A failing element makes the whole comprehension fail. *)
Lemma mapM_Raise_elem {A B} (f : A → result B) (xs : list A) (x : A) (e : exc) :
  x ∈ xs → f x = Raise e → ∃ e', mapM f xs = Raise e'.
Proof.
  intros Hin Hx. induction Hin as [x xs|x y xs Hin IH]; rewrite mapM_cons.
  - rewrite Hx. simpl. eauto.
  - destruct (f y) as [b|e1]; simpl; [|eauto].
    destruct (IH Hx) as [e' ->]. simpl. eauto.
Qed.

Lemma mapM_Ok_length {A B} (f : A → result B) (xs : list A) (ys : list B) :
  mapM f xs = Ok ys → length ys = length xs.
Proof.
  revert ys. induction xs as [|x xs IH]; intros ys H.
  - by injection H as <-.
  - rewrite mapM_cons in H. step H as y Hy. step H as ys' Hys.
    injection H as <-. simpl. f_equal. eauto.
Qed.

(** *** Paths *)

Lemma string_app_length (s t : string) :
  String.length (s +:+ t) = String.length s + String.length t.
Proof. induction s as [|c s IH]; simpl; [done | by rewrite IH]. Qed.

Lemma child_neq (grp_name name : string) : child grp_name name ≠ grp_name.
Proof.
  intros H. apply (f_equal String.length) in H.
  unfold child in H. rewrite !string_app_length in H. simpl in H. lia.
Qed.

(** *** The store primitives *)

Section store_facts.
Implicit Types (hf : store) (k p : string) (n : node).

Lemma ensure_groups_lookup (l : list string) hf k :
  foldr ensure_group hf l !! k =
  match hf !! k with
  | Some n => Some n
  | None => if decide (k ∈ l) then Some (Group ∅) else None
  end.
Proof.
  induction l as [|p l IH]; cbn [foldr].
  - destruct (hf !! k); [done|].
    destruct (decide (k ∈ [])) as [Hin|]; [|done]. by apply elem_of_nil in Hin.
  - assert (ensure_group p (foldr ensure_group hf l) !! k =
            match foldr ensure_group hf l !! k with
            | Some n => Some n
            | None => if decide (k = p) then Some (Group ∅) else None
            end) as ->.
    { unfold ensure_group at 1.
      destruct (foldr ensure_group hf l !! p) as [n|] eqn:Ep.
      - destruct (foldr ensure_group hf l !! k) eqn:Ek; [done|].
        destruct (decide (k = p)) as [->|]; [congruence | done].
      - destruct (decide (k = p)) as [->|Hne].
        + by rewrite lookup_insert_eq, Ep.
        + rewrite lookup_insert_ne by done.
          by destruct (foldr ensure_group hf l !! k). }
    rewrite IH. destruct (hf !! k); [done|].
    destruct (decide (k ∈ l)) as [Hin|Hni].
    + rewrite decide_True; [done | apply elem_of_cons; by right].
    + destruct (decide (k = p)) as [->|Hne].
      * rewrite decide_True; [done | apply elem_of_cons; by left].
      * rewrite decide_False; [done|]. by intros [?|?]%elem_of_cons.
Qed.

(** Creating a group leaves every node that was there as it was, and what it
    adds are groups without attributes. *)
Lemma create_group_Ok hf p hf' :
  create_group hf p = Ok hf' →
  hf !! p = None ∧ hf' !! p = Some (Group ∅) ∧
  (∀ k n, hf !! k = Some n → hf' !! k = Some n) ∧
  (∀ k, hf !! k = None → hf' !! k = None ∨ hf' !! k = Some (Group ∅)).
Proof.
  unfold create_group. destruct (hf !! p) eqn:Ep; [discriminate|].
  intros [= <-]. split; [done|]. split; [apply lookup_insert_eq|]. split.
  - intros k n Hk. rewrite lookup_insert_ne by congruence.
    by rewrite ensure_groups_lookup, Hk.
  - intros k Hk. destruct (decide (p = k)) as [->|Hne].
    + right. apply lookup_insert_eq.
    + rewrite lookup_insert_ne by done. rewrite ensure_groups_lookup, Hk.
      destruct (decide _); auto.
Qed.

Lemma set_attr_Ok hf p key v hf' :
  set_attr hf p key v = Ok hf' →
  ∃ n, hf !! p = Some n ∧ hf' = <[p := with_attrs n (<[key := v]> (attrs_of n))]> hf.
Proof.
  unfold set_attr. intros H. step H as n Hn. apply from_option_Ok in Hn.
  injection H as <-. eauto.
Qed.

Lemma set_group_attr_Ok hf p key v hf' :
  set_group_attr hf p key v = Ok hf' →
  ∃ a, hf !! p = Some (Group a) ∧ hf' = <[p := Group (<[key := v]> a)]> hf.
Proof.
  unfold set_group_attr. intros H. step H as n Hn. apply from_option_Ok in Hn.
  destruct n; [|discriminate]. injection H as <-. eauto.
Qed.

Lemma create_dataset_Ok hf g name v hf' :
  create_dataset hf g name v = Ok hf' →
  hf !! child g name = None ∧ hf' = <[child g name := Dataset v ∅]> hf.
Proof.
  unfold create_dataset. destruct (hf !! child g name); [discriminate|].
  by intros [= <-].
Qed.

Lemma group_contains_Ok hf g name b :
  group_contains hf g name = Ok b →
  (∃ a, hf !! g = Some (Group a)) ∧ b = contains hf (child g name).
Proof.
  unfold group_contains. intros H. step H as n Hn. apply from_option_Ok in Hn.
  destruct n; simpl in H; [|discriminate]. injection H as <-. eauto.
Qed.

Lemma get_attr_Ok hf p key v :
  get_attr hf p key = Ok v → ∃ n, hf !! p = Some n ∧ attrs_of n !! key = Some v.
Proof.
  unfold get_attr. intros H. step H as n Hn.
  apply from_option_Ok in Hn. apply from_option_Ok in H. eauto.
Qed.

Lemma contains_true hf p : contains hf p = true ↔ is_Some (hf !! p).
Proof. unfold contains. by rewrite bool_decide_eq_true. Qed.

Lemma contains_false hf p : contains hf p = false ↔ hf !! p = None.
Proof. unfold contains. by rewrite bool_decide_eq_false, eq_None_not_Some. Qed.

End store_facts.

(** *** Opening a group and writing once *)

Section writer_facts.
Implicit Types (hf : store) (k g : string) (n : node).

Lemma attrs_with_attrs n (a : gmap string string) : attrs_of (with_attrs n a) = a.
Proof. by destruct n. Qed.

Lemma footer_of_insert hf k n :
  footer_of (<[k := n]> hf) k = attrs_of n !! "footer".
Proof. unfold footer_of. by rewrite lookup_insert_eq. Qed.

Lemma footer_of_insert_ne hf k k' n :
  k ≠ k' → footer_of (<[k := n]> hf) k' = footer_of hf k'.
Proof. intros Hne. unfold footer_of. by rewrite lookup_insert_ne. Qed.

(** Opening a group: nodes that exist stay as they are; a group that had to
    be created starts with the empty footer; whatever else appears is a group
    without attributes. *)
Lemma find_or_create_Ok hf g hf1 :
  find_or_create hf g = Ok hf1 →
  (∀ k n, hf !! k = Some n → hf1 !! k = Some n) ∧
  (∀ k, hf !! k = None → k ≠ g → hf1 !! k = None ∨ hf1 !! k = Some (Group ∅)) ∧
  (hf !! g = None → hf1 !! g = Some (Group {["footer" := ""]})).
Proof.
  unfold find_or_create. destruct (contains hf g) eqn:Hc.
  - intros [= <-]. apply contains_true in Hc as [n Hn].
    split; [done|]. split; [auto|]. congruence.
  - intros H. step H as hf0 H0.
    apply create_group_Ok in H0 as (Hg & Hg0 & Hold & Hnew).
    apply set_attr_Ok in H as (n & Hn & ->).
    rewrite Hg0 in Hn. injection Hn as <-. simpl.
    split; [|split].
    + intros k n Hk. rewrite lookup_insert_ne by congruence. auto.
    + intros k Hk Hne. rewrite lookup_insert_ne by done. auto.
    + intros _. by rewrite lookup_insert_eq, insert_empty.
Qed.

Lemma find_or_create_footer hf g hf1 k :
  find_or_create hf g = Ok hf1 → k ≠ g → footer_of hf1 k = footer_of hf k.
Proof.
  intros H Hne. apply find_or_create_Ok in H as (Hold & Hnew & _).
  unfold footer_of. destruct (hf !! k) as [n|] eqn:Hk.
  - by rewrite (Hold _ _ Hk).
  - destruct (Hnew _ Hk Hne) as [-> | ->]; done.
Qed.

(** What a successful turn of the row loop of [AbundParser.to_hdf5] or
    [IpParser.to_hdf5] does to the file. *)
Lemma write_once_Ok hf g dn fo data u hf' :
  write_once hf g dn fo data u = Ok hf' →
  (∀ k n, hf !! k = Some n → k ≠ g → hf' !! k = Some n) ∧
  (∃ a, hf' !! g = Some (Group a)) ∧
  footer_of hf' g = Some (default "" (footer_of hf g) +:+ fo) ∧
  (∀ k, k ≠ g → footer_of hf' k = footer_of hf k) ∧
  is_Some (hf' !! child g dn) ∧
  (∀ d a, hf !! g ≠ Some (Dataset d a)).
Proof.
  unfold write_once. intros H.
  step H as hf1 H1. step H as f Hf. step H as hf2 H2. step H as present Hp.
  pose proof (λ k, find_or_create_footer hf g hf1 k H1) as Hfoot1.
  apply find_or_create_Ok in H1 as (Hold & Hnew & Hfresh).
  apply get_attr_Ok in Hf as (n1 & Hn1 & Hf).
  apply set_attr_Ok in H2 as (n1' & Hn1' & ->).
  rewrite Hn1 in Hn1'. injection Hn1' as <-.
  apply group_contains_Ok in Hp as ([a Ha] & ->).
  rewrite lookup_insert_eq in Ha.
  assert (footer_of hf g = Some f ∨ footer_of hf g = None ∧ f = "") as Hprev.
  { unfold footer_of. destruct (hf !! g) as [n|] eqn:Hg.
    - left. rewrite (Hold _ _ Hg) in Hn1. injection Hn1 as <-. done.
    - right. split; [done|]. rewrite (Hfresh eq_refl) in Hn1.
      injection Hn1 as <-. simpl in Hf.
      rewrite lookup_singleton_eq in Hf. congruence. }
  assert (default "" (footer_of hf g) = f) as Hdef
    by (destruct Hprev as [-> | [-> ->]]; done).
  set (hf2 := <[g := with_attrs n1 (<["footer" := f +:+ fo]> (attrs_of n1))]> hf1) in *.
  assert (∀ k n, hf !! k = Some n → k ≠ g → hf2 !! k = Some n) as Hkeep2.
  { intros k n Hk Hne. unfold hf2. rewrite lookup_insert_ne by done. eauto. }
  assert (∀ d a0, hf !! g ≠ Some (Dataset d a0)) as Hnods.
  { intros d a0 Hd. rewrite (Hold _ _ Hd) in Hn1. injection Hn1 as <-. done. }
  assert (footer_of hf2 g = Some (f +:+ fo)) as Hg2.
  { unfold hf2. rewrite footer_of_insert, attrs_with_attrs. apply lookup_insert_eq. }
  assert (∀ k, k ≠ g → footer_of hf2 k = footer_of hf k) as Hother2.
  { intros k Hne. unfold hf2. rewrite footer_of_insert_ne by done. auto. }
  destruct (contains hf2 (child g dn)) eqn:Hc.
  - injection H as <-. apply contains_true in Hc.
    rewrite Hdef. unfold hf2 at 2. rewrite lookup_insert_eq. eauto 12.
  - apply contains_false in Hc.
    step H as v Hv. step H as hf3 H3. step H as us Hu.
    apply create_dataset_Ok in H3 as (_ & ->).
    apply set_attr_Ok in H as (n3 & Hn3 & ->).
    rewrite lookup_insert_eq in Hn3. injection Hn3 as <-. simpl.
    pose proof (child_neq g dn) as Hcg.
    split; [|split; [|split; [|split; [|split]]]]; [| | | | |done].
    + intros k n Hk Hne.
      destruct (decide (k = child g dn)) as [->|Hkc].
      * rewrite (Hkeep2 _ _ Hk Hne) in Hc. discriminate.
      * rewrite !lookup_insert_ne by done. auto.
    + exists a. rewrite !lookup_insert_ne by done.
      unfold hf2. by rewrite lookup_insert_eq.
    + rewrite Hdef. rewrite !footer_of_insert_ne by done. done.
    + intros k Hne. destruct (decide (k = child g dn)) as [->|Hkc].
      * rewrite footer_of_insert. simpl. rewrite insert_empty.
        rewrite lookup_singleton_ne by done.
        rewrite <- (Hother2 _ Hne). unfold footer_of. by rewrite Hc.
      * rewrite !footer_of_insert_ne by done. auto.
    + rewrite lookup_insert_eq. eauto.
Qed.

End writer_facts.

(** *** The row loop of the accumulating writers *)

Section row_loop.
Variables (grp : nat → result string) (dn fo : string)
          (data : nat → result pyval) (u : result string).

Local Abbreviation turn :=
  (λ (hf : store) (row : nat), g ← grp row; write_once hf g dn fo (data row) u).

Lemma string_app_cons (x : ascii) (a b : string) :
  String x a +:+ b = String x (a +:+ b).
Proof. reflexivity. Qed.

Lemma string_app_assoc (a b c : string) : (a +:+ b) +:+ c = a +:+ (b +:+ c).
Proof. induction a as [|x a IH]; [done | by rewrite !string_app_cons, IH]. Qed.

Lemma string_app_nil_r (a : string) : a +:+ "" = a.
Proof. induction a as [|x a IH]; [done | by rewrite string_app_cons, IH]. Qed.

(** Datasets that exist are never touched by the loop. *)
Lemma row_loop_keeps (rows : list nat) (hf hf' : store) k d a :
  for_loop turn hf rows = Ok hf' →
  hf !! k = Some (Dataset d a) → hf' !! k = Some (Dataset d a).
Proof.
  intros H Hk. revert H.
  apply (for_loop_invariant turn (λ s, s !! k = Some (Dataset d a))); [|done].
  intros s row s' Hs Hturn. simpl in Hturn. step Hturn as g Hg.
  apply write_once_Ok in Hturn as (Hkeep & _ & _ & _ & _ & Hnods).
  apply Hkeep; [done|]. intros ->. by eapply Hnods.
Qed.

(** The footer of a group after the loop: what it was, then one block per
    row written to the group. *)
Lemma row_loop_footer (rows : list nat) (hf hf' : store) (g : string) :
  for_loop turn hf rows = Ok hf' →
  footer_of hf' g =
  match length (List.filter (λ row, targets (grp row) g) rows) with
  | 0 => footer_of hf g
  | S j => Some (default "" (footer_of hf g) +:+ join (replicate (S j) fo))
  end.
Proof.
  revert hf. induction rows as [|row rows IH]; intros hf H; simpl in H.
  - by injection H as <-.
  - step H as hf1 H1. step H1 as g1 Hg1.
    apply write_once_Ok in H1 as (_ & _ & Hfoot & Hother & _).
    rewrite (IH _ H). simpl. rewrite Hg1. simpl.
    destruct (String.eqb g1 g) eqn:Heq.
    + apply String.eqb_eq in Heq as ->. simpl. rewrite Hfoot. simpl.
      destruct (length _) as [|j]; simpl.
      * by rewrite string_app_nil_r.
      * by rewrite string_app_assoc.
    + apply String.eqb_neq in Heq. by rewrite (Hother g) by done.
Qed.

End row_loop.

(** *** What the writers leave alone *)

Section keeping.
Implicit Types (hf : store) (k p : string) (n : node).

Lemma extends_refl hf : extends hf hf.
Proof. by intros k n. Qed.

Lemma extends_trans hf1 hf2 hf3 : extends hf1 hf2 → extends hf2 hf3 → extends hf1 hf3.
Proof. intros H12 H23 k n Hk. eauto. Qed.

Lemma extends_None hf hf' p : extends hf hf' → hf' !! p = None → hf !! p = None.
Proof.
  intros He Hp. destruct (hf !! p) as [n|] eqn:E; [|done].
  apply He in E. congruence.
Qed.

Lemma extends_insert hf hf' p n : extends hf hf' → hf !! p = None → extends hf (<[p := n]> hf').
Proof.
  intros He Hp k m Hk. rewrite lookup_insert_ne by congruence. auto.
Qed.

Lemma extends_create_group hf p hf' : create_group hf p = Ok hf' → extends hf hf'.
Proof. intros H. apply create_group_Ok in H as (_ & _ & Hold & _). exact Hold. Qed.

Lemma extends_find_or_create hf g hf' : find_or_create hf g = Ok hf' → extends hf hf'.
Proof. intros H. apply find_or_create_Ok in H as (Hold & _). exact Hold. Qed.

(** Creating a node and then assigning one of its attributes. *)
Lemma extends_fresh_group hf0 hf p hf1 key v hf2 :
  extends hf0 hf → create_group hf p = Ok hf1 → set_attr hf1 p key v = Ok hf2 →
  extends hf0 hf2.
Proof.
  intros He Hc Hs. pose proof Hc as Hc'. apply create_group_Ok in Hc' as (Hp & _).
  apply set_attr_Ok in Hs as (n & _ & ->).
  apply extends_insert; [|by eapply extends_None].
  eapply extends_trans; [done|]. by eapply extends_create_group.
Qed.

Lemma extends_fresh_dataset hf0 hf g name v hf1 key x hf2 :
  extends hf0 hf → create_dataset hf g name v = Ok hf1 →
  set_attr hf1 (child g name) key x = Ok hf2 →
  extends hf0 hf2.
Proof.
  intros He Hc Hs. apply create_dataset_Ok in Hc as (Hp & ->).
  apply set_attr_Ok in Hs as (n & _ & ->).
  pose proof (extends_None _ _ _ He Hp) as Hp0.
  by do 2 (apply extends_insert; [|done]).
Qed.

Lemma restamps_refl cs hf : restamps cs hf hf.
Proof. intros k d a Hk. eauto. Qed.

Lemma extends_restamps cs hf hf' : extends hf hf' → restamps cs hf hf'.
Proof. intros He k d a Hk. eauto. Qed.

Lemma restamps_trans cs hf1 hf2 hf3 :
  restamps cs hf1 hf2 → restamps cs hf2 hf3 → restamps cs hf1 hf3.
Proof.
  intros H12 H23 k d a Hk.
  destruct (H12 _ _ _ Hk) as (a2 & Hk2 & Ha2).
  destruct (H23 _ _ _ Hk2) as (a3 & Hk3 & Ha3).
  exists a3. split; [done|].
  destruct Ha3 as [-> | (c & Hc & ->)]; [done|].
  right. exists c. split; [done|].
  destruct Ha2 as [-> | (c2 & _ & ->)]; [done|].
  by rewrite insert_insert_eq.
Qed.

Lemma restamps_mono cs cs' hf hf' : cs ⊆ cs' → restamps cs hf hf' → restamps cs' hf hf'.
Proof.
  intros Hsub H k d a Hk. destruct (H _ _ _ Hk) as (a' & Hk' & Ha').
  exists a'. split; [done|]. destruct Ha' as [-> | (c & Hc & ->)]; eauto.
Qed.

(** Assigning an attribute of a group touches no dataset. *)
Lemma restamps_set_group_attr cs hf p key v hf' :
  set_group_attr hf p key v = Ok hf' → restamps cs hf hf'.
Proof.
  intros H. apply set_group_attr_Ok in H as (a0 & Hp & ->).
  intros k d a Hk. exists a. split; [|by left].
  rewrite lookup_insert_ne by congruence. done.
Qed.

(** One column of [GenericParser.to_hdf5]. *)
Lemma restamps_write_column g hf col hf' :
  write_column g hf col = Ok hf' → restamps [col] hf hf'.
Proof.
  unfold write_column. intros H. step H as present Hp. step H as hf1 H1.
  apply group_contains_Ok in Hp as (_ & ->).
  apply set_attr_Ok in H as (n & Hn & ->).
  destruct (contains hf (child g col.1)) eqn:Hc.
  - injection H1 as <-. intros k d a Hk.
    destruct (decide (k = child g col.1)) as [->|Hne].
    + rewrite Hk in Hn. injection Hn as <-. simpl.
      exists (<["unit" := unit_attr col.2]> a). rewrite lookup_insert_eq.
      split; [done|]. right. exists col. split; [|done].
      by apply list_elem_of_singleton.
    + exists a. rewrite lookup_insert_ne by done. auto.
  - apply contains_false in Hc. apply create_dataset_Ok in H1 as (_ & ->).
    apply extends_restamps. do 2 (apply extends_insert; [|done]).
    apply extends_refl.
Qed.

Lemma restamps_columns g (cs : list (string * Column)) hf hf' :
  for_loop (write_column g) hf cs = Ok hf' → restamps cs hf hf'.
Proof.
  revert hf. induction cs as [|col cs IH]; intros hf H; simpl in H.
  - injection H as <-. apply restamps_refl.
  - step H as hf1 H1. eapply restamps_trans.
    + eapply restamps_mono; [|by eapply restamps_write_column].
      intros c Hc%list_elem_of_singleton. subst c. apply elem_of_cons. by left.
    + eapply restamps_mono; [|by eapply IH].
      intros c Hc. apply elem_of_cons. by right.
Qed.

End keeping.

(** *** The writers *)

Section writers.
Variable sym : Z → option string.
Implicit Types (w : writer) (hf : store) (df : QTable).

(** [AbundParser.to_hdf5] and [IpParser.to_hdf5] are the same loop. *)
Lemma accumulating_loop w hf df hf' :
  accumulating w = true → to_hdf5 sym w hf df = Ok hf' →
  ∃ f data u,
    get_meta df "footer" = Ok f ∧
    for_loop (λ hf row,
        g ← row_group sym w df row;
        write_once hf g (dataset_name w) (footer_block (dataset_name w) f) (data row) u)
      hf (seq 0 (nrows df)) = Ok hf'.
Proof.
  intros Hw H. destruct w as [p|fn|fn|fn]; try discriminate; simpl in H.
  - unfold AbundParser_to_hdf5 in H. step H as f Hf.
    exists f. do 2 eexists. split; [done|]. exact H.
  - unfold IpParser_to_hdf5 in H. step H as f Hf.
    exists f. do 2 eexists. split; [done|]. exact H.
Qed.

(** The footer of any group after an accumulating write. *)
Lemma accumulating_footer w hf df hf' g b :
  accumulating w = true → to_hdf5 sym w hf df = Ok hf' → block w df = Ok b →
  footer_of hf' g =
  match hits sym w df g with
  | 0 => footer_of hf g
  | S j => Some (default "" (footer_of hf g) +:+ join (replicate (S j) b))
  end.
Proof.
  intros Hw H Hb. apply accumulating_loop in H as (f & data & u & Hf & H); [|done].
  unfold block in Hb. rewrite Hf in Hb. injection Hb as <-.
  unfold hits. by eapply row_loop_footer.
Qed.

Lemma accumulating_keeps w hf df hf' k d a :
  accumulating w = true → to_hdf5 sym w hf df = Ok hf' →
  hf !! k = Some (Dataset d a) → hf' !! k = Some (Dataset d a).
Proof.
  intros Hw H Hk. apply accumulating_loop in H as (f & data & u & Hf & H); [|done].
  by eapply row_loop_keeps.
Qed.

(** [IoneqParser.to_hdf5] only ever adds nodes. *)
Lemma ioneq_extends fn hf df hf' :
  IoneqParser_to_hdf5 sym fn hf df = Ok hf' → extends hf hf'.
Proof.
  unfold IoneqParser_to_hdf5.
  apply (for_loop_invariant _ (extends hf)); [|apply extends_refl].
  intros s row s' Hs H.
  step H as g Hg. step H as hf1 H1. step H as present Hp.
  assert (extends hf hf1) as He1.
  { eapply extends_trans; [done|]. by eapply extends_find_or_create. }
  destruct present.
  - by injection H as <-.
  - step H as hf2 H2. step H as f Hf. step H as hf3 H3.
    step H as t Ht. step H as hf4 H4. step H as c Hc. step H as u Hu.
    step H as hf5 H5. step H as x Hx. step H as hf6 H6.
    step H as c' Hc'. step H as u' Hu'.
    pose proof (extends_fresh_group _ _ _ _ _ _ _ He1 H2 H3) as He3.
    pose proof (extends_fresh_dataset _ _ _ _ _ _ _ _ _ He3 H4 H5) as He5.
    exact (extends_fresh_dataset _ _ _ _ _ _ _ _ _ He5 H6 H).
Qed.

(** [GenericParser.to_hdf5] adds nodes, assigns attributes of groups, and
    assigns the unit of the dataset of each column. *)
Lemma generic_restamps p hf df hf' :
  GenericParser_to_hdf5 p hf df = Ok hf' → restamps (columns df) hf hf'.
Proof.
  unfold GenericParser_to_hdf5. intros H.
  step H as hf1 H1. step H as hf2 H2. step H as hf3 H3.
  assert (extends hf hf1) as He1.
  { destruct (contains hf _) eqn:Hc.
    - injection H1 as <-. apply extends_refl.
    - step H1 as hf0 H0. step H1 as v Hv. step H1 as hf0' H0'. step H1 as f Hf.
      pose proof (extends_fresh_group _ _ _ _ _ _ _ (extends_refl hf) H0 H0') as He0.
      pose proof H0 as Hg. apply create_group_Ok in Hg as (Hg & _).
      apply set_attr_Ok in H1 as (n & _ & ->). by apply extends_insert. }
  eapply restamps_trans; [by apply extends_restamps|].
  eapply restamps_trans; [by eapply restamps_set_group_attr|].
  eapply restamps_trans; [by eapply restamps_set_group_attr|].
  by eapply restamps_columns.
Qed.

End writers.

(* ===================================================================== *)
(** ** Writing to the store                                               *)
(* ===================================================================== *)

(** Writing a source again appends its block again: the footer of a group the
    source has one row for ends with two copies of the block. *)
Lemma rewrite_appends_again sym (w : writer) (df : QTable) (hf hf1 hf2 : store)
    (g b : string) :
  accumulating w = true → hits sym w df g = 1 → block w df = Ok b →
  to_hdf5 sym w hf df = Ok hf1 → to_hdf5 sym w hf1 df = Ok hf2 →
  footer_of hf2 g = Some (default "" (footer_of hf g) +:+ b +:+ b).
Proof.
  intros Hw Hhit Hb H1 H2.
  rewrite (accumulating_footer sym w hf1 df hf2 g b Hw H2 Hb), Hhit.
  rewrite (accumulating_footer sym w hf df hf1 g b Hw H1 Hb), Hhit.
  simpl. by rewrite !string_app_nil_r, string_app_assoc.
Qed.

(** C1, at the input where it fails.  [AbundParser('sun.abund')] parses the
    one-row file of the scenario and writes the table to an empty file twice.
    There is one dataset [h/abundance/sun] and the second write leaves it as
    the first made it, but the footer of [h/abundance], which held the block
    of the source once after the first write, holds it twice after the
    second: the block is appended before the code looks whether the dataset
    is there. *)
Theorem abund_rewrite_repeats_footer :
  ∃ b,
    block (AbundWriter "sun.abund") sun = Ok b ∧
    to_hdf5 symbols (AbundWriter "sun.abund") ∅ sun = Ok once ∧
    to_hdf5 symbols (AbundWriter "sun.abund") once sun = Ok twice ∧
    once !! "h/abundance/sun" = Some (Dataset (Scalar (PFloat (Rat 1))) {[ "unit" := "" ]}) ∧
    twice !! "h/abundance/sun" = once !! "h/abundance/sun" ∧
    footer_of once "h/abundance" = Some b ∧
    footer_of twice "h/abundance" = Some (b +:+ b) ∧
    occurrences b (b +:+ b) = 2.
Proof. eexists. repeat split; vm_compute; reflexivity. Qed.

(** C7, at the input where it fails.  Where each source has one row for
    the group the footer is as claimed: [AbundParser('sun.abund')] and then
    [AbundParser('other.abund')], written to an empty file, leave in
    [h/abundance] the block of the first followed by the block of the
    second.  [AbundParser('dup.abund')] parses a file with two rows for
    hydrogen; after it and then [other] the footer of [h/abundance] is the
    block of [dup] twice, followed by the block of [other]: the block is
    appended once for each row, not once for each source. *)
Theorem footer_blocks_follow_rows :
  let rule := "------------------" in
  let of_sun := "sun" +:+ nl +:+ rule +:+ nl +:+ "comment" +:+ nl +:+ nl +:+ "        " in
  let of_dup := "dup" +:+ nl +:+ rule +:+ nl +:+ "comment" +:+ nl +:+ nl +:+ "        " in
  let of_other := "other" +:+ nl +:+ rule +:+ nl +:+ "other source" +:+ nl +:+ "        " in
  to_hdf5 symbols (AbundWriter "sun.abund") ∅ sun = Ok once ∧
  to_hdf5 symbols (AbundWriter "other.abund") once other = Ok both ∧
  footer_of once "h/abundance" = Some of_sun ∧
  footer_of both "h/abundance" = Some (of_sun +:+ of_other) ∧
  (parse root (AbundParser root symbols "dup.abund") world).1 = Returned dup ∧
  columns dup =
    [("atomic number", {| unit := None; data := CInt [1%Z; 1%Z] |});
     ("abundance relative to H", {| unit := Some ""; data := CFloat [Rat 1; Rat 1] |});
     ("element", {| unit := None; data := CStr ["h"; "H"] |})] ∧
  to_hdf5 symbols (AbundWriter "dup.abund") ∅ dup = Ok dup_once ∧
  to_hdf5 symbols (AbundWriter "other.abund") dup_once other = Ok dup_both ∧
  footer_of dup_once "h/abundance" = Some (of_dup +:+ of_dup) ∧
  footer_of dup_both "h/abundance" = Some (of_dup +:+ of_dup +:+ of_other) ∧
  occurrences of_dup (of_dup +:+ of_dup +:+ of_other) = 2.
Proof. repeat split; vm_compute; reflexivity. Qed.

(** C4 as stated fails for [GenericParser.to_hdf5]: the file holds the
    dataset [h/h_1/elvlc/energy] with unit [1 / cm]; writing a table whose
    [energy] column has the unit [eV] keeps the data and replaces the unit
    attribute. *)
Lemma generic_rewrite_replaces_unit :
  to_hdf5 symbols (IonWriter elvlc) levels_once (levels (Some "eV")) = Ok levels_twice ∧
  levels_once !! "h/h_1/elvlc/energy" =
    Some (Dataset (Array (CFloat [Rat 0; Rat 82259])) {[ "unit" := "1 / cm" ]}) ∧
  levels_twice !! "h/h_1/elvlc/energy" =
    Some (Dataset (Array (CFloat [Rat 0; Rat 82259])) {[ "unit" := "eV" ]}) ∧
  levels_twice !! "h/h_1/elvlc/energy" ≠ levels_once !! "h/h_1/elvlc/energy".
Proof. repeat split; try (vm_compute; reflexivity). vm_compute. discriminate. Qed.

(** C4, amended.  A write never replaces the data of a dataset that is in
    the file.  [AbundParser.to_hdf5], [IoneqParser.to_hdf5] and
    [IpParser.to_hdf5] leave its attributes as they are too;
    [GenericParser.to_hdf5] leaves them as they are or assigns the unit
    attribute from a column of the table, and touches no other attribute. *)
Theorem existing_dataset_kept sym (w : writer) (hf : store) (df : QTable) (hf' : store)
    (k : string) (d : value) (a : gmap string string) :
  to_hdf5 sym w hf df = Ok hf' → hf !! k = Some (Dataset d a) →
  ∃ a', hf' !! k = Some (Dataset d a') ∧
        match w with
        | IonWriter _ => a' = a ∨ ∃ c, c ∈ columns df ∧ a' = <["unit" := unit_attr c.2]> a
        | _ => a' = a
        end.
Proof.
  intros H Hk. destruct w as [p|fn|fn|fn]; simpl in H.
  - exact (generic_restamps p hf df hf' H k d a Hk).
  - exists a. split; [|done].
    by apply (accumulating_keeps sym (AbundWriter fn) hf df hf').
  - exists a. split; [|done]. by apply (ioneq_extends sym fn hf df hf' H).
  - exists a. split; [|done].
    by apply (accumulating_keeps sym (IpWriter fn) hf df hf').
Qed.

Lemma existing_dataset_kept_witness :
  ∃ a', twice !! "h/abundance/sun" = Some (Dataset (Scalar (PFloat (Rat 1))) a') ∧
        a' = {[ "unit" := "" ]}.
Proof.
  refine (existing_dataset_kept symbols (AbundWriter "sun.abund") once sun twice
            "h/abundance/sun" (Scalar (PFloat (Rat 1))) {[ "unit" := "" ]} _ _);
    vm_compute; reflexivity.
Defined.

(* ===================================================================== *)
(** ** Parsing                                                            *)
(* ===================================================================== *)

Section parse_facts.
Variable root : string.
Implicit Types (p : Parser) (w : World).

(** Without a terminator line the loop of [parse] runs off the end of the
    file and [comment] is never bound. *)
Lemma scan_unterminated p (lines : list string) :
  Forall (λ line, strip line ≠ "-1") lines →
  ∀ st table i rows comment,
    scan p st table i lines = Ok (rows, comment) → comment = None.
Proof.
  induction 1 as [|line lines Hline _ IH]; intros st table i rows comment H; simpl in H.
  - by injection H as _ <-.
  - destruct (String.eqb (strip line) "-1") eqn:Heq.
    + by apply String.eqb_eq in Heq.
    + step H as r Hr. destruct r as [st' table']. eauto.
Qed.

(** [parse] changes nothing but the list of opened files, and opens at most
    the source file and then the version marker. *)
Lemma parse_world p w :
  files (parse root p w).2 = files w ∧ hf (parse root p w).2 = hf w ∧
  ∃ more, opened (parse root p w).2 = opened w ++ more ∧
          (more = [] ∨ more = [full_path p] ∨ more = [full_path p; version_path root]).
Proof.
  unfold parse. destruct (files w !! full_path p) as [lines|].
  - destruct (parse_table p lines) as [df|e]; simpl.
    + destruct (files w !! version_path root) as [vlines|]; simpl.
      * destruct (parse_finish p df vlines); simpl;
          (split; [done|]; split; [done|]; eexists; split;
           [by rewrite <- app_assoc | auto]).
      * split; [done|]. split; [done|]. eauto.
    + split; [done|]. split; [done|]. eauto.
  - simpl. split; [done|]. split; [done|]. exists []. by rewrite app_nil_r; auto.
Qed.

End parse_facts.

(** C9. When the file a parser resolves to does not exist, [parse] returns
    [None] (no table, no exception) and changes nothing: no file is opened
    and the store is as it was. *)
Theorem missing_source_is_skipped (root : string) (p : Parser) (w : World) :
  files w !! full_path p = None →
  parse root p w = (PyNone, w) ∧ hf (parse root p w).2 = hf w.
Proof. intros H. unfold parse. by rewrite H. Qed.

Lemma missing_source_is_skipped_witness :
  parse root (AbundParser root symbols "absent.abund") world = (PyNone, world) ∧
  hf (parse root (AbundParser root symbols "absent.abund") world).2 = hf world.
Proof.
  apply (missing_source_is_skipped root (AbundParser root symbols "absent.abund") world).
  vm_compute. reflexivity.
Defined.

(** C3 as stated fails: the same parser object parses the same file twice
    in one process, and the version marker is opened twice. *)
Lemma version_marker_read_twice :
  let p := IpParser root "chianti.ip" in
  let first := parse root p world in
  let second := parse root p first.2 in
  (∃ df, first.1 = Returned df) ∧ (∃ df, second.1 = Returned df) ∧
  opened second.2 =
    ["/chianti/ip/chianti.ip"; "/chianti/VERSION"; "/chianti/ip/chianti.ip"; "/chianti/VERSION"] ∧
  length (filter (λ f, f = version_path root) (opened second.2)) = 2.
Proof.
  cbv zeta. split; [|split; [|split]].
  - eexists. vm_compute. reflexivity.
  - eexists. vm_compute. reflexivity.
  - vm_compute. reflexivity.
  - vm_compute. reflexivity.
Qed.

(** C3, amended.  Every call of [parse] that returns a table opens the
    source file and then the version marker, once each, and stamps the table
    with what the marker holds at that moment: the table is the
    post-processed table built from the source with the first line of the
    marker, stripped, as its version.  Nothing is kept from one call to the
    next. *)
Theorem version_marker_read_by_each_parse (root : string) (p : Parser) (w w' : World)
    (df : QTable) :
  parse root p w = (Returned df, w') →
  opened w' = opened w ++ [full_path p; version_path root] ∧
  ∃ lines df0 first rest,
    files w !! full_path p = Some lines ∧
    parse_table p lines = Ok df0 ∧
    files w !! version_path root = Some (first :: rest) ∧
    postprocessor p (set_meta df0 "chianti_version" (strip first)) = Ok df.
Proof.
  unfold parse. intros H.
  destruct (files w !! full_path p) as [lines|]; [|discriminate].
  destruct (parse_table p lines) as [df0|e] eqn:Ht; [|discriminate].
  simpl in H. destruct (files w !! version_path root) as [vlines|]; [|discriminate].
  destruct (parse_finish p df0 vlines) as [df1|e] eqn:Hf; [|discriminate].
  injection H as <- <-. simpl. rewrite <- app_assoc. split; [done|].
  unfold parse_finish in Hf. step Hf as first Hfirst.
  apply from_option_Ok in Hfirst. destruct vlines as [|l rest]; [discriminate|].
  injection Hfirst as ->. eauto 10.
Qed.

Lemma version_marker_read_by_each_parse_witness :
  opened (parse root (IpParser root "chianti.ip") world).2 =
  opened world ++ [full_path (IpParser root "chianti.ip"); version_path root].
Proof.
  refine (proj1 (version_marker_read_by_each_parse root (IpParser root "chianti.ip") world
            (parse root (IpParser root "chianti.ip") world).2
            (the_table (parse root (IpParser root "chianti.ip") world).1) _)).
  vm_compute. reflexivity.
Defined.

(** C2 as stated fails: a file without terminator makes [parse] raise, but
    what it raises is Python's [UnboundLocalError] for the variable
    [comment]; the same exception object arises for two different sources,
    so it identifies neither. *)
Lemma unterminated_raises_unbound_local :
  (parse root (IpParser root "cut.ip") world).1 = Raised (UnboundLocalError "comment") ∧
  (parse root (IpParser root "short.ip") world).1 = Raised (UnboundLocalError "comment") ∧
  full_path (IpParser root "cut.ip") ≠ full_path (IpParser root "short.ip") ∧
  exc_class (UnboundLocalError "comment") ≠ "MalformedSource".
Proof. repeat split; try (vm_compute; reflexivity); vm_compute; discriminate. Qed.

(** C2, amended.  For a source file none of whose lines strips to [-1],
    [parse] returns neither a table nor [None]: it raises.  The exception is
    the one of the line decoder or of the table builder when one of them
    fails, and otherwise the [UnboundLocalError] for [comment]. *)
Theorem unterminated_source_raises (root : string) (p : Parser) (w : World)
    (lines : list string) :
  files w !! full_path p = Some lines →
  Forall (λ line, strip line ≠ "-1") lines →
  ∃ e, (parse root p w).1 = Raised e ∧
       match scan p fresh [] 0 lines with
       | Raise e' => e = e'
       | Ok (table, _) =>
           match build (headings p) (units p) (dtypes p) table with
           | Raise e' => e = e'
           | Ok _ => e = UnboundLocalError "comment"
           end
       end.
Proof.
  intros Hfile Hlines. unfold parse. rewrite Hfile. unfold parse_table.
  destruct (scan p fresh [] 0 lines) as [[table comment]|e] eqn:Hscan; simpl.
  - apply (scan_unterminated p lines Hlines) in Hscan as ->.
    destruct (build _ _ _ table) as [df|e]; simpl; eauto.
  - eauto.
Qed.

Lemma unterminated_source_raises_witness :
  ∃ e, (parse root (IpParser root "cut.ip") world).1 = Raised e ∧ e = UnboundLocalError "comment".
Proof.
  refine (unterminated_source_raises root (IpParser root "cut.ip") world ip_unterminated _ _).
  - vm_compute. reflexivity.
  - repeat constructor; vm_compute; discriminate.
Defined.

(* ===================================================================== *)
(** ** Building the table                                                 *)
(* ===================================================================== *)

Section build_facts.
Implicit Types (table : list (list pyval)) (vs row : list pyval).

Lemma zip_star_lookup table (c : nat) vs :
  zip_star table !! c = Some vs →
  vs = (λ row, default PNone (row !! c)) <$> table.
Proof.
  unfold zip_star. destruct table as [|r rs]; [done|].
  rewrite list_lookup_fmap. intros H.
  destruct (seq 0 _ !! c) as [j|] eqn:Hj; [|done].
  apply lookup_seq in Hj as [-> _]. simpl in H. by injection H as <-.
Qed.

Lemma shortest_row_below (c : nat) (r : list pyval) (rs : list (list pyval)) :
  Forall (λ row, c < length row) (r :: rs) →
  c < foldr (λ row m, Nat.min (length row) m) (length r) rs.
Proof.
  intros H. inversion H as [|? ? Hr Hrs]; subst. clear H.
  induction Hrs as [|r1 rs Hr1 _ IH]; simpl; lia.
Qed.

(** A column that every row reaches is a column of the table. *)
Lemma zip_star_reaches table (c : nat) :
  table ≠ [] → Forall (λ row, c < length row) table →
  zip_star table !! c = Some ((λ row, default PNone (row !! c)) <$> table).
Proof.
  intros Hne Hall. destruct table as [|r rs]; [done|]. unfold zip_star.
  rewrite list_lookup_fmap.
  pose proof (shortest_row_below c r rs Hall) as Hc.
  by rewrite (proj2 (lookup_seq _ _ _ _) (conj eq_refl Hc)).
Qed.

Lemma shortest_row (r : list pyval) (rs : list (list pyval)) :
  Forall (λ row, foldr (λ row m, Nat.min (length row) m) (length r) rs ≤ length row)
         (r :: rs).
Proof.
  induction rs as [|r1 rs IH]; simpl.
  - by repeat constructor.
  - inversion IH as [|? ? Hr Hrs]; subst. constructor; [lia|]. constructor; [lia|].
    eapply Forall_impl; [done|]. simpl. intros; lia.
Qed.

(** No row is shorter than the table has columns. *)
Lemma zip_star_width table :
  Forall (λ row, length (zip_star table) ≤ length row) table.
Proof.
  unfold zip_star. destruct table as [|r rs]; [constructor|].
  rewrite length_fmap, length_seq. apply shortest_row.
Qed.

(** There are no columns exactly when there is no row, or a row without an
    entry. *)
Lemma zip_star_nil table : zip_star table = [] ↔ table = [] ∨ [] ∈ table.
Proof.
  split.
  - intros H. destruct table as [|r rs]; [by left|]. right.
    destruct (Forall_Exists_dec (λ row : list pyval, 0 < length row) (λ row, row = [])
                (λ row, match row with
                        | [] => right eq_refl
                        | _ :: _ => left (Nat.lt_0_succ _)
                        end) (r :: rs)) as [Hall | Hex].
    + apply zip_star_reaches in Hall; [|done]. by rewrite H in Hall.
    + apply Exists_exists in Hex as (row & Hrow & ->). done.
  - intros [-> | Hin]; [done|].
    pose proof (zip_star_width table) as Hw.
    apply (proj1 (Forall_forall _ _) Hw) in Hin. simpl in Hin.
    destruct (zip_star table); [done | simpl in Hin; lia].
Qed.

(** The columns of rows of text are columns of text, of the tokens of the
    rows. *)
Lemma zip_star_text (table : list (list string)) (c : nat) vs :
  zip_star (text_rows table) !! c = Some vs →
  ∃ ss, vs = PStr <$> ss ∧ Forall (λ s, ∃ r : list string, r ∈ table ∧ s ∈ r) ss.
Proof.
  intros Hvs.
  pose proof (zip_star_width (text_rows table)) as Hw.
  pose proof (lookup_lt_Some _ _ _ Hvs) as Hc.
  apply zip_star_lookup in Hvs as ->. unfold text_rows in *.
  assert (Forall (λ row : list string, c < length row) table) as Hrows.
  { rewrite Forall_fmap in Hw. eapply Forall_impl; [done|]. simpl.
    intros row Hrow. rewrite length_fmap in Hrow. lia. }
  exists ((λ row : list string, default EmptyString (row !! c)) <$> table). split.
  - rewrite <- !list_fmap_compose. apply Forall_fmap_ext_1.
    eapply Forall_impl; [done|]. simpl. intros row Hrow.
    rewrite list_lookup_fmap. destruct (row !! c) eqn:Htok; [done|].
    apply lookup_ge_None in Htok. lia.
  - apply Forall_fmap, Forall_forall. intros row Hin. simpl.
    pose proof (proj1 (Forall_forall _ _) Hrows row Hin) as Hrow. simpl in Hrow.
    destruct (row !! c) as [tok|] eqn:Htok.
    + simpl. exists row. split; [done|]. by eapply list_elem_of_lookup_2.
    + apply lookup_ge_None in Htok. lia.
Qed.

(** A column of text is cast entry by entry, as it is stored. *)
Lemma astype_text (dt : dtype) (ss : list string) :
  astype dt (PStr <$> ss) =
  match dt with
  | Int => zs ← mapM cast_int (PStr <$> (stored <$> ss)); Ok (CInt zs)
  | Str => ss' ← mapM cast_str (PStr <$> (stored <$> ss)); Ok (CStr ss')
  | Float => xs ← mapM cast_float (PStr <$> (stored <$> ss)); Ok (CFloat xs)
  end.
Proof.
  destruct ss as [|s ss]; [by destruct dt|].
  assert (forallb is_text (PStr <$> s :: ss) = true) as Htext.
  { apply forallb_forall. intros v Hv. apply list_elem_of_In in Hv.
    by apply list_elem_of_fmap_1 in Hv as (t & -> & _). }
  assert (as_stored <$> (PStr <$> s :: ss) = PStr <$> (stored <$> s :: ss)) as Hst
    by (by rewrite <- !list_fmap_compose).
  unfold astype.
  change (mapM as_array (PStr <$> s :: ss)) with (@None (list (list real))).
  change (forallb is_number (PStr <$> s :: ss)) with false.
  cbv iota beta zeta. by rewrite Htext, Hst.
Qed.

Lemma mapM_Raise_inv {A B} (f : A → result B) (xs : list A) (e : exc) :
  mapM f xs = Raise e → ∃ x, x ∈ xs ∧ f x = Raise e.
Proof.
  induction xs as [|x xs IH]; [discriminate|]. rewrite mapM_cons.
  destruct (f x) as [b|e1] eqn:Hx; simpl.
  - destruct (mapM f xs) as [bs|e2]; simpl; [discriminate|].
    intros [= ->]. destruct (IH eq_refl) as (y & Hy & Hfy).
    exists y. split; [apply elem_of_cons; by right | done].
  - intros [= ->]. exists x. split; [apply elem_of_cons; by left | done].
Qed.

(** What the cast of a text token raises. *)
Lemma cast_text_exception (dt : dtype) (ss : list string) (e : exc) :
  astype dt (PStr <$> ss) = Raise e →
  ∃ tok, tok ∈ ss ∧
    (e = ValueError "invalid literal for int() with base 10" (stored tok) ∨
     e = OverflowError "Python int too large to convert to C long" ∨
     e = ValueError "could not convert string to float" (stored tok)).
Proof.
  rewrite astype_text. destruct dt; intros H.
  - destruct (mapM cast_int _) as [zs|e1] eqn:Hm; [discriminate|].
    injection H as ->. apply mapM_Raise_inv in Hm as (v & Hv & Hcast).
    apply list_elem_of_fmap_1 in Hv as (t & -> & Ht).
    apply list_elem_of_fmap_1 in Ht as (tok & -> & Htok). exists tok. split; [done|].
    unfold cast_int, py_int, int_of_str in Hcast.
    destruct (integer_literal _ _) as [z|]; simpl in Hcast.
    + unfold int64 in Hcast. destruct (_ && _); [discriminate|].
      injection Hcast as <-. right. by left.
    + injection Hcast as <-. by left.
  - destruct (mapM cast_float _) as [xs|e1] eqn:Hm; [discriminate|].
    injection H as ->. apply mapM_Raise_inv in Hm as (v & Hv & Hcast).
    apply list_elem_of_fmap_1 in Hv as (t & -> & Ht).
    apply list_elem_of_fmap_1 in Ht as (tok & -> & Htok). exists tok. split; [done|].
    unfold cast_float, float_of_str in Hcast.
    destruct (match special_literal _ with Some _ => _ | None => _ end); simpl in Hcast;
      [discriminate|].
    injection Hcast as <-. right. by right.
  - destruct (mapM cast_str _) as [xs|e1] eqn:Hm; [discriminate|].
    injection H as ->. apply mapM_Raise_inv in Hm as (v & Hv & Hcast).
    by apply list_elem_of_fmap_1 in Hv as (tok & -> & Htok).
Qed.

(** A column of text with a token that does not cast. *)
Lemma astype_text_Raise (dt : dtype) (ss : list string) (tok : string) (e0 : exc) :
  tok ∈ ss → cast_fails dt (PStr (stored tok)) e0 →
  ∃ e, astype dt (PStr <$> ss) = Raise e.
Proof.
  intros Hin Hfail. rewrite astype_text.
  assert (PStr (stored tok) ∈ PStr <$> (stored <$> ss)) as Hin'
    by (by do 2 apply list_elem_of_fmap_2).
  destruct dt; unfold cast_fails in *.
  - destruct (mapM_Raise_elem cast_int _ _ e0 Hin' Hfail) as [e ->]. simpl. eauto.
  - destruct Hfail as [_ Hfail].
    destruct (mapM_Raise_elem cast_float _ _ e0 Hin' Hfail) as [e ->]. simpl. eauto.
  - destruct (mapM_Raise_elem cast_str _ _ e0 Hin' Hfail) as [e ->]. simpl. eauto.
Qed.

(** The cast loop stops at the first column that does not cast. *)
Lemma typed_columns_Raise (c : nat) :
  ∀ (headings : list string) (units : list (option string)) (dtypes : list dtype)
    (cols : list (list pyval)) name u dt vs e0,
    headings !! c = Some name → units !! c = Some u → dtypes !! c = Some dt →
    cols !! c = Some vs → astype dt vs = Raise e0 →
    ∃ e, typed_columns headings units dtypes cols = Raise e.
Proof.
  induction c as [|c IH];
    intros [|h headings] [|u0 units] [|d0 dtypes] [|v0 cols] name u dt vs e0
      Hh Hu Hd Hc Hcast; try discriminate; simpl in *.
  - injection Hd as ->. injection Hc as ->. rewrite Hcast. simpl. eauto.
  - destruct (astype d0 v0) as [d|e]; simpl; [|eauto].
    destruct (IH headings units dtypes cols name u dt vs e0) as [e ->]; try done.
    simpl. eauto.
Qed.

(** What the cast loop raises is what the cast of one of the columns
    raises. *)
Lemma typed_columns_exception (hs : list string) :
  ∀ (us : list (option string)) (ds : list dtype) (cols : list (list pyval)) (e : exc),
    typed_columns hs us ds cols = Raise e →
    ∃ c dt vs, ds !! c = Some dt ∧ cols !! c = Some vs ∧ astype dt vs = Raise e.
Proof.
  induction hs as [|h hs IH];
    intros [|u0 us] [|d0 ds] [|v0 cols] e H; simpl in H; try discriminate.
  destruct (astype d0 v0) as [d|e1] eqn:Hcast; simpl in H.
  - destruct (typed_columns hs us ds cols) as [rest|e2] eqn:Hrest;
      simpl in H; [discriminate|].
    injection H as ->. destruct (IH _ _ _ _ Hrest) as (c & dt & vs & Hd & Hc & Hvs).
    by exists (S c), dt, vs.
  - injection H as ->. by exists 0, d0, v0.
Qed.

End build_facts.

(** C8 as stated fails: a token that is no integer, in the first column of
    the first row of one file and in the second column of the second row of
    another, makes [parse] raise one and the same [ValueError], which holds
    the token and nothing about where it stood. *)
Lemma cast_failure_carries_no_position :
  (parse root (IpParser root "bad0.ip") world).1 =
    Raised (ValueError "invalid literal for int() with base 10" "x") ∧
  (parse root (IpParser root "bad1.ip") world).1 =
    Raised (ValueError "invalid literal for int() with base 10" "x") ∧
  exc_class (ValueError "invalid literal for int() with base 10" "x") ≠ "SchemaMismatch".
Proof. repeat split; try (vm_compute; reflexivity). vm_compute. discriminate. Qed.

(** A token does not fail where it is not cast: next to a row without
    tokens no column is left, and the table is built, empty. *)
Example token_beside_a_blank_row :
  build ["atomic number"; "ion"; "ionization potential"]
        [None; None; Some "1 / cm"] [Int; Int; Float]
        (text_rows [["x"; "1"; "2.0"]; []]) =
  Ok {| columns := [("atomic number", {| unit := None; data := CInt [] |});
                    ("ion", {| unit := None; data := CInt [] |});
                    ("ionization potential", {| unit := Some "1 / cm"; data := CFloat [] |})];
        meta := ∅ |}.
Proof. reflexivity. Qed.

(** C8, amended.  Rows of text tokens, each with a token in column [c], and
    a schema that declares a type for that column: if one of the tokens of
    the column, as the array of the column stores it, does not cast to the
    type, building the table raises, and so returns no table, partial or
    other.  What is raised is the table's [ValueError] for a number of
    columns that is not the number of headings or for a heading that occurs
    twice, or else what Python raises for a token of the rows that does not
    cast: [ValueError] with the token for text that is no number,
    [OverflowError] for an integer beyond 64 bits.  None of these says where
    the token stood. *)
Theorem cast_failure_aborts_build (headings : list string) (units : list (option string))
    (dtypes : list dtype) (table : list (list string)) (r c : nat)
    (row : list string) (tok : string) (u : option string) (dt : dtype) (e0 : exc) :
  table !! r = Some row → row !! c = Some tok →
  Forall (λ row, c < length row) table →
  units !! c = Some u → dtypes !! c = Some dt →
  cast_fails dt (PStr (stored tok)) e0 →
  ∃ e, build headings units dtypes (text_rows table) = Raise e ∧
       (e = ValueError "names must match number of columns" "" ∨
        e = ValueError "duplicate column names" "" ∨
        ∃ row' tok', row' ∈ table ∧ tok' ∈ row' ∧
          (e = ValueError "invalid literal for int() with base 10" (stored tok') ∨
           e = OverflowError "Python int too large to convert to C long" ∨
           e = ValueError "could not convert string to float" (stored tok'))).
Proof.
  intros Hr Hc Hall Hu Hd Hfail.
  assert (text_rows table ≠ []) as Hne.
  { unfold text_rows. destruct table; [done | discriminate]. }
  assert (Forall (λ row : list pyval, c < length row) (text_rows table)) as Hall'.
  { unfold text_rows. apply Forall_fmap. eapply Forall_impl; [done|]. simpl.
    intros row' Hrow'. by rewrite length_fmap. }
  pose proof (zip_star_reaches _ c Hne Hall') as Hcol.
  unfold build, table_data.
  destruct (zip_star (text_rows table)) as [|vs0 cols0] eqn:Hzip; [done|].
  rewrite <- Hzip in *. clear vs0 cols0 Hzip.
  destruct (length (zip_star (text_rows table)) =? length headings) eqn:Hlen; simpl;
    [|eexists; split; [done | by left]].
  destruct (bool_decide (NoDup headings)); simpl;
    [|eexists; split; [done | right; by left]].
  apply Nat.eqb_eq in Hlen.
  destruct (headings !! c) as [name|] eqn:Hname.
  2:{ apply lookup_ge_None in Hname. apply lookup_lt_Some in Hcol. lia. }
  assert (PStr tok ∈ (λ row : list pyval, default PNone (row !! c)) <$> text_rows table)
    as Hin.
  { apply list_elem_of_lookup. exists r. unfold text_rows.
    rewrite !list_lookup_fmap, Hr. simpl. by rewrite list_lookup_fmap, Hc. }
  destruct (zip_star_text _ _ _ Hcol) as (toks & Htoks & _). rewrite Htoks in Hin, Hcol.
  apply list_elem_of_fmap_1 in Hin as (tok0 & [= <-] & Hin).
  destruct (astype_text_Raise dt toks tok e0 Hin Hfail) as [e1 He1].
  destruct (typed_columns_Raise c headings units dtypes (zip_star (text_rows table))
              name u dt _ e1 Hname Hu Hd Hcol He1) as [e He].
  rewrite He. simpl. exists e. split; [done|]. right. right.
  apply typed_columns_exception in He as (c' & dt' & vs' & _ & Hc' & Hcast).
  apply zip_star_text in Hc' as (ss & -> & Hss).
  apply cast_text_exception in Hcast as (tok' & Htok' & He').
  destruct (proj1 (Forall_forall _ _) Hss tok' Htok') as (row' & Hrow' & Hin').
  by exists row', tok'.
Qed.

Lemma cast_failure_aborts_build_witness :
  ∃ e, build ["atomic number"; "ion"; "ionization potential"]
         [None; None; Some "1 / cm"] [Int; Int; Float]
         (text_rows [["1"; "1"; "2.0"]; ["2"; "x"; "3.0"]]) = Raise e ∧
       (e = ValueError "names must match number of columns" "" ∨
        e = ValueError "duplicate column names" "" ∨
        ∃ row' tok', row' ∈ [["1"; "1"; "2.0"]; ["2"; "x"; "3.0"]] ∧ tok' ∈ row' ∧
          (e = ValueError "invalid literal for int() with base 10" (stored tok') ∨
           e = OverflowError "Python int too large to convert to C long" ∨
           e = ValueError "could not convert string to float" (stored tok'))).
Proof.
  refine (cast_failure_aborts_build _ _ _ [["1"; "1"; "2.0"]; ["2"; "x"; "3.0"]] 1 1
            ["2"; "x"; "3.0"] "x" None Int
            (ValueError "invalid literal for int() with base 10" "x") _ _ _ _ _ _).
  - reflexivity.
  - reflexivity.
  - repeat constructor; simpl; lia.
  - reflexivity.
  - reflexivity.
  - reflexivity.
Defined.

(* ===================================================================== *)
(** ** The scenarios and the abundance repair                             *)
(* ===================================================================== *)

(** C6. The file ["1  7.300  h\n-1\ncomment\n"] read by [AbundParser] gives
    a table of exactly one row, [(1, 7.300, "h")], with the footer
    ["comment\n"]; the post-processing of [parse] turns the abundance into
    [10^(7.3 - 7.3) = 1]. *)
Theorem abundance_scenario :
  join abund_lines = "1  7.300  h" +:+ nl +:+ "-1" +:+ nl +:+ "comment" +:+ nl ∧
  parse_table (AbundParser root symbols "sun.abund") abund_lines =
    Ok {| columns :=
            [("atomic number", {| unit := None; data := CInt [1%Z] |});
             ("abundance relative to H", {| unit := Some ""; data := CFloat [Rat (73 # 10)] |});
             ("element", {| unit := None; data := CStr ["h"] |})];
          meta := {[ "footer" := "comment" +:+ nl ]} |} ∧
  (parse root (AbundParser root symbols "sun.abund") world).1 = Returned sun ∧
  nrows sun = 1 ∧
  columns sun =
    [("atomic number", {| unit := None; data := CInt [1%Z] |});
     ("abundance relative to H",
      {| unit := Some ""; data := CFloat [ten_pow (sub (Rat (73 # 10)) (Rat (73 # 10)))] |});
     ("element", {| unit := None; data := CStr ["h"] |})] ∧
  ten_pow (sub (Rat (73 # 10)) (Rat (73 # 10))) = Rat 1.
Proof. repeat split; vm_compute; reflexivity. Qed.

(** C5 as stated fails: the format [2I3,3E10.2] cuts the scenario's data line
    at columns 3, 6, 16 and 26, whatever the blanks, so the third field is
    ["1.0e-2 5.0"], which is no number, and [parse] raises. *)
Lemma ioneq_scenario_line_is_cut_by_width :
  fields ([I 3; I 3] ++ replicate 3 (E 10 2)) " 1  1 1.0e-2 5.0e-1 1.0e-2" =
    [" 1 "; " 1 "; "1.0e-2 5.0"; "e-1 1.0e-2"; ""] ∧
  files world !! full_path (IoneqParser root "chianti.ioneq") =
    Some ["3"; "4.00  4.50  5.00"; " 1  1 1.0e-2 5.0e-1 1.0e-2"; "-1"] ∧
  (parse root (IoneqParser root "chianti.ioneq") world).1 =
    Raised (ValueError "not a valid input for real" "1.0e-2 5.0").
Proof. repeat split; vm_compute; reflexivity. Qed.

(** After the two header lines [IoneqParser.preprocessor] leaves the parser's
    state alone and appends one row: the two integers, the temperature grid
    read from line 1, and the fractions. *)
Lemma ioneq_rows_share_grid (st st' : pstate) (table table' : list (list pyval))
    (line : string) (i : nat) :
  IoneqParser_preprocessor st table line (S (S i)) = Ok (st', table') →
  st' = st ∧
  ∃ fmt items t fr,
    fformat_ioneq st = Some fmt ∧ read fmt line = Ok items ∧
    temperature st = Some t ∧ float_array (drop 2 items) = Ok fr ∧
    table' = table ++ [take 2 items ++ [PArray t; PArray fr]].
Proof.
  simpl. intros H. step H as fmt Hfmt. step H as items Hitems.
  step H as t Ht. step H as fr Hfr. injection H as <- <-.
  apply from_option_Ok in Hfmt, Ht. split; [done|]. eauto 10.
Qed.

(** C5, amended.  With the data line laid out in the columns of the format,
    ["  1  1  1.00e-02  5.00e-01  1.00e-02"], the file parses to exactly one
    row whose temperature entry is [[10^4.00, 10^4.50, 10^5.00]] (in K) and
    whose fraction entry is [[0.01, 0.50, 0.01]]: the count 3 is read from
    line 0, the grid from line 1, and the grid is put into every data row —
    with a second data line both rows carry the same grid. *)
Theorem ioneq_fixed_width_scenario :
  files world !! full_path (IoneqParser root "fixed.ioneq") =
    Some ["3"; "4.00  4.50  5.00"; "  1  1  1.00e-02  5.00e-01  1.00e-02"; "-1"] ∧
  (∃ df, (parse root (IoneqParser root "fixed.ioneq") world).1 = Returned df ∧
     nrows df = 1 ∧
     columns df =
       [("atomic number", {| unit := None; data := CInt [1%Z] |});
        ("ion", {| unit := None; data := CInt [1%Z] |});
        ("temperature",
         {| unit := Some "K";
            data := CArray [[ten_pow (Rat 4); ten_pow (Rat (9 # 2)); ten_pow (Rat 5)]] |});
        ("ionization fraction",
         {| unit := Some "";
            data := CArray [[Rat (1 # 100); Rat (1 # 2); Rat (1 # 100)]] |})]) ∧
  (∃ df, (parse root (IoneqParser root "two.ioneq") world).1 = Returned df ∧
     nrows df = 2 ∧
     data <$> assoc "temperature" (columns df) =
       Some (CArray (replicate 2 [ten_pow (Rat 4); ten_pow (Rat (9 # 2)); ten_pow (Rat 5)])) ∧
     data <$> assoc "ionization fraction" (columns df) =
       Some (CArray [[Rat (1 # 100); Rat (1 # 2); Rat (1 # 100)];
                     [Rat (99 # 100); Rat (1 # 2); Rat (99 # 100)]])).
Proof.
  split; [vm_compute; reflexivity|]. split.
  - eexists. repeat split; vm_compute; reflexivity.
  - eexists. repeat split; vm_compute; reflexivity.
Qed.

Section abund_repair.
Variable sym : Z → option string.

Lemma assoc_set_ne {A} (name name' : string) (a : A) (l : list (string * A)) :
  name ≠ name' → assoc name' (assoc_set name a l) = assoc name' l.
Proof.
  intros Hne. induction l as [|[n b] l IH]; simpl.
  - by apply String.eqb_neq in Hne as ->.
  - destruct (String.eqb n name) eqn:E; simpl.
    + apply String.eqb_eq in E as ->. by apply String.eqb_neq in Hne as ->.
    + by rewrite IH.
Qed.

Lemma assoc_set_eq {A} (name : string) (a : A) (l : list (string * A)) :
  assoc name (assoc_set name a l) = Some a.
Proof.
  induction l as [|[n b] l IH]; simpl.
  - by rewrite String.eqb_refl.
  - destruct (String.eqb n name) eqn:E; simpl; by rewrite E.
Qed.

Lemma set_column_other (df df' : QTable) (name name' : string) (c : Column) :
  set_column df name c = Ok df' → name ≠ name' → column df' name' = column df name'.
Proof.
  unfold set_column. destruct (_ && _); [discriminate|]. intros [= <-] Hne.
  unfold column. simpl. by rewrite assoc_set_ne.
Qed.

Lemma set_column_same (df df' : QTable) (name : string) (c : Column) :
  set_column df name c = Ok df' → column df' name = Ok c.
Proof.
  unfold set_column. destruct (_ && _); [discriminate|]. intros [= <-].
  unfold column. simpl. by rewrite assoc_set_eq.
Qed.

Lemma mapM_Ok_lookup {A B} (f : A → result B) (xs : list A) (ys : list B) :
  mapM f xs = Ok ys → ∀ i x y, xs !! i = Some x → ys !! i = Some y → f x = Ok y.
Proof.
  revert ys. induction xs as [|x0 xs IH]; intros ys H i x y Hx Hy; [done|].
  rewrite mapM_cons in H. step H as y0 Hy0. step H as ys' Hys. injection H as <-.
  destruct i as [|i]; simpl in *.
  - congruence.
  - eauto.
Qed.

(** The two halves of [AbundParser.postprocessor]: the rescaling, which
    replaces the abundance column only, and the repair. *)
Lemma abund_postprocessor_Ok (fn : string) (df df' : QTable) :
  AbundParser_postprocessor sym fn df = Ok df' →
  ∃ df1 first,
    column df1 "element" = column df "element" ∧
    column df1 "atomic number" = column df "atomic number" ∧
    first_element df = Ok first ∧
    match first with
    | PStr EmptyString =>
        ∃ z col,
          column df "atomic number" = Ok z ∧
          mapM (repaired_symbol sym z) (seq 0 (col_length (data z))) = Ok col ∧
          column df' "element" = Ok {| unit := None; data := CStr col |}
    | _ => column df' "element" = column df "element"
    end.
Proof.
  unfold AbundParser_postprocessor. intros H.
  step H as c Hc. step H as xs Hxs. step H as z Hz. step H as mask Hmask.
  step H as ys Hys. step H as tt Hu. step H as df1 H1. step H as first Hfirst.
  step H as df2 H2. injection H as <-.
  assert (column df1 "element" = column df "element") as Hel
    by (by eapply set_column_other).
  assert (column df1 "atomic number" = column df "atomic number") as Hz1
    by (by eapply set_column_other).
  assert (first_element df = Ok first) as Hfirst'.
  { unfold first_element in *. by rewrite <- Hel. }
  exists df1, first. do 3 (split; [done|]).
  assert (∀ name, column (set_meta df2 "abundance_filename" fn) name = column df2 name)
    as Hmeta by done.
  rewrite Hmeta.
  destruct first as [| |[|ch s]| |]; try (injection H2 as <-; done).
  step H2 as z' Hz'. step H2 as col Hcol.
  rewrite Hz1 in Hz'. exists z', col. split; [done|]. split; [done|].
  by eapply set_column_same.
Qed.

End abund_repair.

(** C10. In [AbundParser.postprocessor] the repair of the element column
    depends on the first row alone.  The table is one as [parse] builds it
    for this class: the atomic numbers an integer column [zs], the elements
    a text column [els].  When the element of the first row is the empty
    string, the element column of the result holds, row by row, the
    lower-case symbol that the periodic table gives for the atomic number of
    the row; when it is anything else, the element column of the result is
    the one of the input, [els] — also where a later row has an empty
    element. *)
Theorem abund_repair_trigger (sym : Z → option string) (fn : string)
    (df df' : QTable) (uz ue : option string) (zs : list Z) (els : list string) :
  AbundParser_postprocessor sym fn df = Ok df' →
  column df "atomic number" = Ok {| unit := uz; data := CInt zs |} →
  column df "element" = Ok {| unit := ue; data := CStr els |} →
  ∃ e0, head els = Some e0 ∧
    (e0 = "" →
       ∃ syms, column df' "element" = Ok {| unit := None; data := CStr syms |} ∧
               Forall2 (λ z s, ∃ x, sym z = Some x ∧ s = lower x) zs syms) ∧
    (e0 ≠ "" → column df' "element" = Ok {| unit := ue; data := CStr els |}).
Proof.
  intros H Hz Hel.
  apply abund_postprocessor_Ok in H as (df1 & first & _ & _ & Hfirst & H).
  unfold first_element in Hfirst. rewrite Hel in Hfirst. simpl in Hfirst.
  apply from_option_Ok in Hfirst.
  destruct els as [|e0 els']; [discriminate|]. injection Hfirst as <-.
  exists e0. split; [done|]. destruct e0 as [|ch e0]; split.
  - intros _. destruct H as (z & col & Hz' & Hcol & Hnew).
    rewrite Hz in Hz'. injection Hz' as <-. simpl in Hcol.
    exists col. split; [done|].
    pose proof (mapM_Ok_length _ _ _ Hcol) as Hlen. rewrite length_seq in Hlen.
    apply Forall2_same_length_lookup_2; [done|]. intros i z s Hzi Hsi.
    assert (seq 0 (length zs) !! i = Some i) as Hi.
    { apply lookup_seq. split; [done|]. by apply lookup_lt_Some in Hzi. }
    pose proof (mapM_Ok_lookup _ _ _ Hcol i i s Hi Hsi) as Hrep.
    unfold repaired_symbol in Hrep. simpl in Hrep. rewrite Hzi in Hrep. simpl in Hrep.
    step Hrep as x Hx. apply from_option_Ok in Hx. injection Hrep as <-. eauto.
  - intros Habs. by destruct Habs.
  - intros Habs. discriminate.
  - intros _. by rewrite H.
Qed.

Lemma abund_repair_trigger_witness :
  ∃ e0, head [""; "xx"] = Some e0 ∧
    (e0 = "" →
       ∃ syms, column repaired "element" = Ok {| unit := None; data := CStr syms |} ∧
               Forall2 (λ z s, ∃ x, symbols z = Some x ∧ s = lower x) [1%Z; 2%Z] syms) ∧
    (e0 ≠ "" → column repaired "element" = Ok {| unit := None; data := CStr [""; "xx"] |}).
Proof.
  refine (abund_repair_trigger symbols "sun.abund" (abundances [""; "xx"]) repaired
            None None [1%Z; 2%Z] [""; "xx"] _ _ _); vm_compute; reflexivity.
Defined.

(** The repair at work, and not at work: an empty element in the first row
    has every row looked up; an empty element in the second row alone stays. *)
Example abund_repair_examples :
  (df ← AbundParser_postprocessor symbols "sun.abund" (abundances [""; "xx"]);
   column df "element") = Ok {| unit := None; data := CStr ["h"; "he"] |} ∧
  (df ← AbundParser_postprocessor symbols "sun.abund" (abundances ["h"; ""]);
   column df "element") = Ok {| unit := None; data := CStr ["h"; ""] |}.
Proof. split; vm_compute; reflexivity. Qed.

(* ===================================================================== *)
(** ** Further properties of [parse]                                      *)
(* ===================================================================== *)

Section more_parse_facts.
Implicit Types (p : Parser) (lines pre post : list string).

(** The loop stops at the first terminator and binds what follows it. *)
Lemma scan_until_terminator p pre (t : string) post :
  Forall (λ line, strip line ≠ "-1") pre → strip t = "-1" →
  ∀ st table i,
    scan p st table i (pre ++ t :: post) =
    scan p st table i pre ≫= λ r, Ok (r.1, Some (join post)).
Proof.
  intros Hpre Ht. induction Hpre as [|line pre Hline _ IH]; intros st table i; simpl.
  - by rewrite Ht.
  - apply String.eqb_neq in Hline. rewrite Hline.
    destruct (preprocessor p st table line i) as [[st' table']|e]; simpl; [|done].
    apply IH.
Qed.

(** A loop that bound [comment] left at a terminator line. *)
Lemma scan_bound_comment p lines :
  ∀ st table i rows comment,
    scan p st table i lines = Ok (rows, Some comment) →
    ∃ pre t post,
      lines = pre ++ t :: post ∧ Forall (λ line, strip line ≠ "-1") pre ∧
      strip t = "-1" ∧ comment = join post.
Proof.
  induction lines as [|line lines IH]; intros st table i rows comment H; simpl in H.
  - discriminate.
  - destruct (String.eqb (strip line) "-1") eqn:Heq.
    + apply String.eqb_eq in Heq. injection H as _ <-.
      exists [], line, lines. by repeat split.
    + apply String.eqb_neq in Heq. step H as r Hr. destruct r as [st' table'].
      destruct (IH _ _ _ _ _ H) as (pre & t & post & -> & Hpre & Ht & ->).
      exists (line :: pre), t, post. repeat split; [|done]. by constructor.
Qed.

End more_parse_facts.

(** X1. The data section of a source ends at the first line that strips to
    [-1].  The lines after it are not decoded, whatever they hold (a second
    terminator included): the rows are those of the lines before it, and the
    footer is the rest of the file, joined as it stands. *)
Theorem footer_is_the_rest_of_the_file (p : Parser) (pre : list string) (t : string)
    (post : list string) :
  Forall (λ line, strip line ≠ "-1") pre → strip t = "-1" →
  scan p fresh [] 0 (pre ++ t :: post) =
  scan p fresh [] 0 pre ≫= λ r, Ok (r.1, Some (join post)).
Proof. intros Hpre Ht. by apply scan_until_terminator. Qed.

Lemma footer_is_the_rest_of_the_file_witness :
  scan (IpParser root "chianti.ip") fresh [] 0
    (["  1  1  109678.77" +:+ nl] ++ (" -1" +:+ nl) :: ["%file" +:+ nl; "-1"; " 2 x"]) =
  scan (IpParser root "chianti.ip") fresh [] 0 ["  1  1  109678.77" +:+ nl]
    ≫= λ r, Ok (r.1, Some (join ["%file" +:+ nl; "-1"; " 2 x"])).
Proof.
  apply (footer_is_the_rest_of_the_file (IpParser root "chianti.ip")).
  - repeat constructor. vm_compute. discriminate.
  - vm_compute. reflexivity.
Defined.

Section metadata.
Variables (root : string) (sym : Z → option string).

Lemma build_meta (hs : list string) (us : list (option string)) (ds : list dtype)
    (table : list (list pyval)) (df : QTable) :
  build hs us ds table = Ok df → meta df = ∅.
Proof.
  unfold build. destruct (negb _); [discriminate|]. destruct (negb _); [discriminate|].
  intros H. step H as cs Hcs. by injection H as <-.
Qed.

Lemma set_column_meta (df df' : QTable) (name : string) (c : Column) :
  set_column df name c = Ok df' → meta df' = meta df.
Proof. unfold set_column. destruct (_ && _); [discriminate|]. by intros [= <-]. Qed.

(** Each [postprocessor] adds its own keys to the metadata and keeps the
    rest. *)
Lemma postprocessor_meta (w : writer) (df df' : QTable) :
  postprocessor (parser_of root sym w) df = Ok df' →
  meta df' = provenance w (meta df).
Proof.
  destruct w as [p|fn|fn|fn]; simpl.
  - by intros [= <-].
  - unfold AbundParser_postprocessor. intros H.
    step H as c Hc. step H as xs Hxs. step H as z Hz. step H as mask Hmask.
    step H as ys Hys. step H as tt Hu. step H as df1 H1. step H as first Hfirst.
    step H as df2 H2. injection H as <-. simpl. f_equal.
    apply set_column_meta in H1. rewrite <- H1.
    destruct first as [| |[|ch s]| |]; try (by injection H2 as <-).
    step H2 as z' Hz'. step H2 as col Hcol. by apply set_column_meta in H2.
  - by intros [= <-].
  - by intros [= <-].
Qed.

End metadata.

(** X2. The table [parse] returns carries exactly this metadata: the footer
    (the lines after the terminator, joined), the version (the first line of
    the [VERSION] file, stripped), and what the parser's own post-processor
    adds — element and ion for an ion parser, the file name for the others. *)
Theorem parsed_table_metadata (root : string) (sym : Z → option string) (w : writer)
    (world world' : World) (df : QTable) :
  parse root (parser_of root sym w) world = (Returned df, world') →
  ∃ pre t post first rest,
    files world !! full_path (parser_of root sym w) = Some (pre ++ t :: post) ∧
    Forall (λ line, strip line ≠ "-1") pre ∧ strip t = "-1" ∧
    files world !! version_path root = Some (first :: rest) ∧
    meta df =
      provenance w (<["chianti_version" := strip first]> (<["footer" := join post]> ∅)).
Proof.
  unfold parse. intros H.
  destruct (files world !! full_path _) as [lines|]; [|discriminate].
  destruct (parse_table _ lines) as [df0|e] eqn:Ht; [|discriminate].
  simpl in H. destruct (files world !! version_path root) as [vlines|]; [|discriminate].
  destruct (parse_finish _ df0 vlines) as [df1|e] eqn:Hf; [|discriminate].
  injection H as <- _.
  unfold parse_table in Ht. step Ht as r Hscan. destruct r as [table comment].
  step Ht as df00 Hbuild. step Ht as footer Hfooter.
  apply from_option_Ok in Hfooter as ->. injection Ht as <-.
  apply scan_bound_comment in Hscan as (pre & t & post & -> & Hpre & Htm & ->).
  unfold parse_finish in Hf. step Hf as first Hfirst.
  apply from_option_Ok in Hfirst. destruct vlines as [|l rest]; [discriminate|].
  injection Hfirst as ->.
  apply postprocessor_meta in Hf. apply build_meta in Hbuild.
  exists pre, t, post, first, rest. repeat split; try done.
  rewrite Hf. simpl. by rewrite Hbuild.
Qed.

Lemma parsed_table_metadata_witness :
  ∃ pre t post first rest,
    files world !! full_path (parser_of root symbols (IpWriter "chianti.ip")) =
      Some (pre ++ t :: post) ∧
    Forall (λ line, strip line ≠ "-1") pre ∧ strip t = "-1" ∧
    files world !! version_path root = Some (first :: rest) ∧
    meta (the_table (parse root (IpParser root "chianti.ip") world).1) =
      provenance (IpWriter "chianti.ip")
        (<["chianti_version" := strip first]> (<["footer" := join post]> ∅)).
Proof.
  refine (parsed_table_metadata root symbols (IpWriter "chianti.ip") world
            (parse root (IpParser root "chianti.ip") world).2
            (the_table (parse root (IpParser root "chianti.ip") world).1) _).
  vm_compute. reflexivity.
Defined.

(* ===================================================================== *)
(** ** Further properties of the table builder                            *)
(* ===================================================================== *)

Section shape.
Implicit Types (table : list (list pyval)) (vs row : list pyval).

(** Every column has one entry per row. *)
Lemma zip_star_height table :
  Forall (λ vs, length vs = length table) (zip_star table).
Proof.
  apply Forall_lookup. intros c vs Hvs. apply zip_star_lookup in Hvs as ->.
  by rewrite length_fmap.
Qed.

Lemma astype_length (dt : dtype) vs (d : coldata) :
  astype dt vs = Ok d → col_length d = length vs.
Proof.
  unfold astype. intros H.
  set (vs' := if forallb is_text vs then as_stored <$> vs else vs) in H.
  assert (length vs' = length vs) as Hlen.
  { unfold vs'. destruct (forallb is_text vs); [apply length_fmap | done]. }
  assert ((∃ xss, mapM as_array vs = Some xss ∧ d = CArray xss) ∨
          (if forallb is_number vs
           then match dt with
                | Int => zs ← mapM number_to_int vs; Ok (CInt zs)
                | Str => ss ← mapM (if forallb is_int vs then cast_str else float_text) vs;
                         Ok (CStr ss)
                | Float => xs ← mapM cast_float vs; Ok (CFloat xs)
                end
           else match dt with
                | Int => zs ← mapM cast_int vs'; Ok (CInt zs)
                | Str => ss ← mapM cast_str vs'; Ok (CStr ss)
                | Float => xs ← mapM cast_float vs'; Ok (CFloat xs)
                end) = Ok d) as [(xss & Harr & ->) | Hcast].
  { destruct vs as [|v vs0]; [by right|].
    destruct (mapM as_array (v :: vs0)) as [xss|]; [|by right].
    destruct (forallb _ xss); [|discriminate].
    destruct dt; try discriminate. injection H as <-. left. eauto. }
  - by apply length_mapM in Harr.
  - destruct (forallb is_number vs), dt; step Hcast as xs Hxs; injection Hcast as <-;
      apply mapM_Ok_length in Hxs; simpl; congruence.
Qed.

Lemma raw_columns_shape (n : nat) (hs : list string) (cols : list (list pyval)) :
  length hs = length cols → Forall (λ vs, length vs = n) cols →
  (zip hs ((λ ws, {| unit := None; data := CObject ws |}) <$> cols)).*1 = hs ∧
  Forall (λ c : string * Column, col_length (data c.2) = n)
         (zip hs ((λ ws, {| unit := None; data := CObject ws |}) <$> cols)).
Proof.
  intros Hlen Hcols. split.
  - apply fst_zip. rewrite length_fmap. lia.
  - apply Forall_lookup. intros i [name c] Hi.
    apply lookup_zip_with_Some in Hi as (h & c' & [= <- <-] & _ & Hi).
    rewrite list_lookup_fmap in Hi.
    destruct (cols !! i) as [ws|] eqn:Hws; [|done].
    injection Hi as <-. simpl. by eapply (proj1 (Forall_lookup _ _) Hcols).
Qed.

(** The cast loop keeps names and heights, and gives each cast column its
    declared unit. *)
Lemma typed_columns_shape (n : nat) :
  ∀ (hs : list string) (us : list (option string)) (ds : list dtype)
    (cols : list (list pyval)) (cs : list (string * Column)),
    typed_columns hs us ds cols = Ok cs → length hs = length cols →
    Forall (λ vs, length vs = n) cols →
    cs.*1 = hs ∧ Forall (λ c, col_length (data c.2) = n) cs ∧
    ∀ i name c u dt,
      cs !! i = Some (name, c) → us !! i = Some u → ds !! i = Some dt → unit c = u.
Proof.
  induction hs as [|h hs IH]; intros us ds cols cs H Hlen Hcols.
  - destruct cols; [|discriminate]. injection H as <-. by repeat split.
  - destruct cols as [|vs cols]; [discriminate|].
    assert (us = [] ∨ ds = [] ∨ ∃ u0 us' d0 ds', us = u0 :: us' ∧ ds = d0 :: ds') as Hcase.
    { destruct us, ds; eauto 10. }
    destruct Hcase as [-> | [-> | (u0 & us' & d0 & ds' & -> & ->)]].
    + assert (cs = zip (h :: hs)
                ((λ ws, {| unit := None; data := CObject ws |}) <$> vs :: cols)) as ->
        by (by injection H as <-).
      destruct (raw_columns_shape n (h :: hs) (vs :: cols) Hlen Hcols) as [Hn Hh].
      split; [done|]. split; [done|]. by intros i name c u dt _ Hu.
    + assert (cs = zip (h :: hs)
                ((λ ws, {| unit := None; data := CObject ws |}) <$> vs :: cols)) as ->
        by (destruct us; by injection H as <-).
      destruct (raw_columns_shape n (h :: hs) (vs :: cols) Hlen Hcols) as [Hn Hh].
      split; [done|]. split; [done|]. by intros i name c u dt _ _ Hd.
    + simpl in H, Hlen. inversion Hcols as [|? ? Hvs Hcols']; subst.
      step H as d Hd. step H as rest Hrest. injection H as <-.
      destruct (IH us' ds' cols rest Hrest) as (Hnames & Hheights & Hunits); [lia|done|].
      split; [by simpl; f_equal|]. split.
      * constructor; [|done]. simpl. by rewrite (astype_length _ _ _ Hd).
      * intros [|i] name c u dt Hi Hu Hdt; simpl in *.
        -- by injection Hi as _ <-; injection Hu as ->.
        -- eauto.
Qed.

Lemma shortest_row_take (k : nat) (r : list pyval) (rs : list (list pyval)) :
  foldr (λ row m, Nat.min (length row) m) (length (take k r)) (take k <$> rs) =
  Nat.min k (foldr (λ row m, Nat.min (length row) m) (length r) rs).
Proof.
  induction rs as [|r1 rs IH].
  - simpl. by rewrite length_take.
  - rewrite fmap_cons. cbn [foldr]. rewrite IH, length_take. lia.
Qed.

(** Entries past the last column do not reach the table. *)
Lemma zip_star_take table :
  zip_star (take (length (zip_star table)) <$> table) = zip_star table.
Proof.
  destruct table as [|r rs]; [done|].
  assert (length (zip_star (r :: rs)) =
          foldr (λ row m, Nat.min (length row) m) (length r) rs) as ->
    by (unfold zip_star; by rewrite length_fmap, length_seq).
  set (n := foldr (λ row m, Nat.min (length row) m) (length r) rs).
  unfold zip_star. rewrite fmap_cons, shortest_row_take. fold n.
  rewrite Nat.min_id. apply list_fmap_ext. intros i j Hj.
  apply lookup_seq in Hj as [-> Hj]. simpl.
  rewrite lookup_take_lt by done. f_equal.
  change (((λ row : list pyval, default PNone (row !! i)) ∘ take n) <$> rs =
          (λ row : list pyval, default PNone (row !! i)) <$> rs)
    || rewrite <- list_fmap_compose.
  apply list_fmap_ext. intros k row _. simpl. by rewrite lookup_take_lt.
Qed.

End shape.

(** X3. A table that [build] returns has exactly the declared headings as
    its column names, all distinct, and every column that was cast carries
    its declared unit.  When every row has a token, every column has one
    entry per row and no row had fewer tokens than there are headings; when
    there is no row, or a row without a token, every column is empty. *)
Theorem built_table_shape (hs : list string) (us : list (option string)) (ds : list dtype)
    (table : list (list pyval)) (df : QTable) :
  build hs us ds table = Ok df →
  colnames df = hs ∧ NoDup hs ∧
  (table ≠ [] → [] ∉ table →
     Forall (λ c, col_length (data c.2) = length table) (columns df) ∧
     Forall (λ row, length hs ≤ length row) table) ∧
  (table = [] ∨ [] ∈ table → Forall (λ c, col_length (data c.2) = 0) (columns df)) ∧
  ∀ i name c u dt,
    columns df !! i = Some (name, c) → us !! i = Some u → ds !! i = Some dt → unit c = u.
Proof.
  unfold build.
  destruct (length (table_data hs table) =? length hs) eqn:Hlen; [|discriminate].
  destruct (bool_decide (NoDup hs)) eqn:Hnd; [|discriminate]. simpl.
  apply Nat.eqb_eq in Hlen. apply bool_decide_eq_true in Hnd.
  intros H. step H as cs Hcs. injection H as <-. unfold colnames. simpl.
  unfold table_data in *. destruct (zip_star table) as [|vs0 cols0] eqn:Hzip.
  - destruct (typed_columns_shape 0 hs us ds _ cs Hcs)
      as (Hnames & Hheights & Hunits); [done | by apply Forall_fmap, Forall_true |].
    split; [done|]. split; [done|]. split; [|done].
    intros Hne Hno. apply zip_star_nil in Hzip as [? | ?]; done.
  - rewrite <- Hzip in *.
    destruct (typed_columns_shape (length table) hs us ds (zip_star table) cs Hcs)
      as (Hnames & Hheights & Hunits); [done | apply zip_star_height |].
    split; [done|]. split; [done|]. split; [|split; [|done]].
    + intros _ _. split; [done|]. rewrite <- Hlen. apply zip_star_width.
    + intros Hnil. apply zip_star_nil in Hnil. rewrite Hnil in Hzip. discriminate.
Qed.

Lemma built_table_shape_witness :
  colnames (the_result (build ["atomic number"; "ion"; "ionization potential"]
              [None; None; Some "1 / cm"] [Int; Int; Float]
              [[PStr "1"; PStr "1"; PStr "109678.77"];
               [PStr "2"; PStr "1"; PStr "198310.67"]])) =
    ["atomic number"; "ion"; "ionization potential"].
Proof.
  refine (proj1 (built_table_shape ["atomic number"; "ion"; "ionization potential"]
            [None; None; Some "1 / cm"] [Int; Int; Float]
            [[PStr "1"; PStr "1"; PStr "109678.77"]; [PStr "2"; PStr "1"; PStr "198310.67"]]
            _ _)).
  vm_compute. reflexivity.
Defined.

(** X4. When the shortest row has as many tokens as there are headings, the
    tokens that longer rows have beyond that are ignored without notice:
    [build] does the same on the rows and on the rows cut to that length. *)
Theorem surplus_tokens_are_dropped (hs : list string) (us : list (option string))
    (ds : list dtype) (table : list (list pyval)) :
  length (zip_star table) = length hs →
  build hs us ds table = build hs us ds (take (length hs) <$> table).
Proof.
  intros Hlen. unfold build, table_data. rewrite <- Hlen. by rewrite zip_star_take.
Qed.

Lemma surplus_tokens_are_dropped_witness :
  build ["atomic number"; "ion"] [None; None] [Int; Int]
    [[PStr "1"; PStr "1"]; [PStr "2"; PStr "1"; PStr "no number"]] =
  build ["atomic number"; "ion"] [None; None] [Int; Int]
    (take 2 <$> [[PStr "1"; PStr "1"]; [PStr "2"; PStr "1"; PStr "no number"]]).
Proof.
  apply (surplus_tokens_are_dropped ["atomic number"; "ion"] [None; None] [Int; Int]).
  reflexivity.
Defined.

(* ===================================================================== *)
(** ** Further properties of the decoders                                 *)
(* ===================================================================== *)

Section decoders.

(** One value per descriptor. *)
Lemma read_fields_length (fmt : list edit) :
  ∀ (record : string) (vs : list pyval),
    read_fields fmt record = Ok vs → length vs = length fmt.
Proof.
  induction fmt as [|ed fmt IH]; intros record vs H; simpl in H.
  - by injection H as <-.
  - destruct (take_field (width ed) record) as [field rest].
    step H as v Hv. step H as vs' Hvs. injection H as <-. simpl. f_equal. eauto.
Qed.

Lemma read_length (fmt : list edit) (line : string) (vs : list pyval) :
  read fmt line = Ok vs → length vs = length fmt.
Proof. apply read_fields_length. Qed.

Lemma float_array_length (vs : list pyval) (xs : list real) :
  float_array vs = Ok xs → length xs = length vs.
Proof. apply mapM_Ok_length. Qed.

Lemma ioneq_data_rows (root fn : string) (n : nat) (t : list real) (lines : list string) :
  ∀ st table i rows comment,
    fformat_ioneq st = Some ([I 3; I 3] ++ replicate n (E 10 2)) →
    temperature st = Some t → Forall (grid_row n t) table →
    scan (IoneqParser root fn) st table (S (S i)) lines = Ok (rows, comment) →
    Forall (grid_row n t) rows.
Proof.
  induction lines as [|line lines IH]; intros st table i rows comment Hfmt Ht Htable H;
    simpl in H.
  - by injection H as <- _.
  - destruct (String.eqb (strip line) "-1"); [by injection H as <- _|].
    step H as r Hr. destruct r as [st' table'].
    apply (ioneq_rows_share_grid st st' table table' line i) in Hr
      as (-> & fmt & items & t' & fr & Hfmt' & Hitems & Ht' & Hfr & ->).
    rewrite Hfmt in Hfmt'. injection Hfmt' as <-. rewrite Ht in Ht'. injection Ht' as <-.
    eapply (IH st); [exact Hfmt | exact Ht | | exact H].
    apply Forall_app. split; [done|]. constructor; [|constructor].
    apply read_length in Hitems. simpl in Hitems. rewrite length_replicate in Hitems.
    apply float_array_length in Hfr. rewrite length_drop in Hfr.
    destruct items as [|a [|b items]]; simpl in *; try lia.
    exists a, b, fr. split; [done | lia].
Qed.

End decoders.

(** X5. Every data row that [IoneqParser] decodes from a file has the four
    entries of the schema: two integers, the temperature grid and the
    fractions.  The grid is the same in all rows: [10.**] of the numbers the
    second line gives when read with the format [nF6.2], where [n], which
    may be 0, is the count on the first line; and grid and fractions both
    have [n] entries. *)
Theorem ioneq_rows_carry_one_grid (root fn : string) (lines : list string)
    (table : list (list pyval)) (comment : option string) :
  scan (IoneqParser root fn) fresh [] 0 lines = Ok (table, comment) → table ≠ [] →
  ∃ l0 l1 rest w n vs xs,
    lines = l0 :: l1 :: rest ∧
    split (strip l0) !! 0 = Some w ∧ int_of_str w = Ok n ∧ (0 ≤ n)%Z ∧
    read (replicate (Z.to_nat n) (F 6 2)) l1 = Ok vs ∧ float_array vs = Ok xs ∧
    length xs = Z.to_nat n ∧
    Forall (grid_row (Z.to_nat n) (ten_pow <$> xs)) table.
Proof.
  intros H Hne. destruct lines as [|l0 lines]; simpl in H; [by injection H as <- _|].
  destruct (String.eqb (strip l0) "-1"); [by injection H as <- _|].
  step H as r0 H0. destruct r0 as [st0 table0]. simpl in H0.
  step H0 as w Hw. step H0 as n Hn. step H0 as ft Hft. step H0 as fi Hfi.
  injection H0 as <- <-. apply from_option_Ok in Hw.
  unfold repeated in Hft, Hfi. destruct (0 <=? n)%Z eqn:Hpos; [|discriminate].
  injection Hft as <-. injection Hfi as <-. apply Z.leb_le in Hpos.
  destruct lines as [|l1 lines]; simpl in H; [by injection H as <- _|].
  destruct (String.eqb (strip l1) "-1"); [by injection H as <- _|].
  step H as r1 H1. destruct r1 as [st1 table1]. simpl in H1.
  step H1 as vs Hvs. step H1 as xs Hxs. injection H1 as <- <-.
  pose proof (read_length _ _ _ Hvs) as Hlen.
  pose proof (float_array_length _ _ Hxs) as Hlen'.
  rewrite length_replicate in Hlen.
  exists l0, l1, lines, w, n, vs, xs.
  split; [done|]. split; [done|]. split; [done|]. split; [done|].
  split; [done|]. split; [done|]. split; [lia|].
  eapply (ioneq_data_rows root fn (Z.to_nat n) (ten_pow <$> xs) lines _ [] 0 table comment);
    [| |constructor|exact H]; done.
Qed.

Lemma ioneq_rows_carry_one_grid_witness :
  ∃ l0 l1 rest w n vs xs,
    ioneq_two_rows = l0 :: l1 :: rest ∧
    split (strip l0) !! 0 = Some w ∧ int_of_str w = Ok n ∧ (0 ≤ n)%Z ∧
    read (replicate (Z.to_nat n) (F 6 2)) l1 = Ok vs ∧ float_array vs = Ok xs ∧
    length xs = Z.to_nat n ∧
    Forall (grid_row (Z.to_nat n) (ten_pow <$> xs))
      [[PInt 1; PInt 1; PArray [Rat 10000; Pow10 (Rat (9 # 2)); Rat 100000];
        PArray [Rat (1 # 100); Rat (1 # 2); Rat (1 # 100)]];
       [PInt 1; PInt 2; PArray [Rat 10000; Pow10 (Rat (9 # 2)); Rat 100000];
        PArray [Rat (99 # 100); Rat (1 # 2); Rat (99 # 100)]]].
Proof.
  refine (ioneq_rows_carry_one_grid root "two.ioneq" ioneq_two_rows _
            (Some EmptyString) _ _).
  - vm_compute. reflexivity.
  - discriminate.
Defined.

(** A count of zero is a format too: the rows then carry empty arrays. *)
Example ioneq_count_of_zero :
  scan (IoneqParser root "zero.ioneq") fresh [] 0
    ["0" +:+ nl; nl; "  1  1" +:+ nl; " -1" +:+ nl; "none" +:+ nl] =
  Ok ([[PInt 1; PInt 1; PArray []; PArray []]], Some ("none" +:+ nl)).
Proof. reflexivity. Qed.

(* ===================================================================== *)
(** ** Further properties of the abundance post-processor                 *)
(* ===================================================================== *)

Lemma fl_zero (q : Q) : q == 0 → fl q = Rat 0.
Proof.
  intros Hq. unfold fl.
  assert (Qabs q == 0) as Ha by (by rewrite Hq).
  destruct (Qle_bool huge (Qabs q)) eqn:E1.
  - apply Qle_bool_iff in E1. rewrite Ha in E1. exfalso. revert E1.
    apply Qlt_not_le. vm_compute. reflexivity.
  - destruct (Qle_bool (Qabs q) tiny) eqn:E2; [done|]. exfalso.
    apply Bool.not_true_iff_false in E2. apply E2, Qle_bool_iff.
    rewrite Ha. vm_compute. discriminate.
Qed.

Lemma ten_pow_of_difference_with_itself (q : Q) : ten_pow (sub (Rat q) (Rat q)) = Rat 1.
Proof.
  unfold sub. rewrite fl_zero by apply Qplus_opp_r. vm_compute. reflexivity.
Qed.

Lemma select_none {A} (xs : list A) (mask : list bool) :
  Forall (λ b, b = false) mask → select xs mask = [].
Proof.
  intros Hmask. revert xs. induction Hmask as [|b mask -> _ IH]; intros [|x xs]; simpl; auto.
Qed.

(** X6. [AbundParser.postprocessor] rewrites the abundance column relative
    to hydrogen: with one row of atomic number 1, of abundance [qH], every
    entry [x] becomes [10.**(x - qH)] and the column keeps its unit; the
    entry of hydrogen itself becomes exactly 1. *)
Theorem abundances_relative_to_hydrogen (sym : Z → option string) (fn : string)
    (df df' : QTable) (c z : Column) (xs : list real) (mask : list bool) (qH : Q) :
  AbundParser_postprocessor sym fn df = Ok df' →
  column df "abundance relative to H" = Ok c → as_floats (data c) = Ok xs →
  column df "atomic number" = Ok z → equals_one (data z) = Ok mask →
  select xs mask = [Rat qH] →
  column df' "abundance relative to H" =
    Ok {| unit := unit c; data := CFloat ((λ x, ten_pow (sub x (Rat qH))) <$> xs) |} ∧
  ten_pow (sub (Rat qH) (Rat qH)) = Rat 1.
Proof.
  intros H Hc Hxs Hz Hmask Hsel. split; [|apply ten_pow_of_difference_with_itself].
  unfold AbundParser_postprocessor in H.
  rewrite Hc in H. simpl in H. rewrite Hxs in H. simpl in H.
  rewrite Hz in H. simpl in H. rewrite Hmask in H. simpl in H. rewrite Hsel in H.
  step H as ys Hys. step H as tt Hu. step H as df1 H1. step H as first Hfirst.
  step H as df2 H2. injection H as <-.
  assert (ys = (λ x, sub x (Rat qH)) <$> xs) as ->.
  { unfold broadcast_sub in Hys. destruct (length [Rat qH] =? length xs) eqn:Hlen.
    - apply Nat.eqb_eq in Hlen. destruct xs as [|x [|x' xs]]; try discriminate.
      by injection Hys as <-.
    - by injection Hys as <-. }
  assert (column df1 "abundance relative to H" =
          Ok {| unit := unit c;
                data := CFloat ((λ x, ten_pow (sub x (Rat qH))) <$> xs) |}) as Hnew.
  { rewrite (set_column_same _ _ _ _ H1). do 2 f_equal. f_equal.
    by rewrite <- list_fmap_compose. }
  change (column df2 "abundance relative to H" = Ok
    {| unit := unit c; data := CFloat ((λ x, ten_pow (sub x (Rat qH))) <$> xs) |}).
  destruct first as [| |[|ch s]| |]; try (by injection H2 as <-).
  step H2 as z' Hz'. step H2 as col Hcol.
  by rewrite (set_column_other _ _ _ _ _ H2).
Qed.

Lemma abundances_relative_to_hydrogen_witness :
  column repaired "abundance relative to H" =
    Ok {| unit := Some "";
          data := CFloat ((λ x, ten_pow (sub x (Rat 12))) <$> [Rat 12; Rat (1093 # 100)]) |} ∧
  ten_pow (sub (Rat 12) (Rat 12)) = Rat 1.
Proof.
  refine (abundances_relative_to_hydrogen symbols "sun.abund" (abundances [""; "xx"]) repaired
            {| unit := Some ""; data := CFloat [Rat 12; Rat (1093 # 100)] |}
            {| unit := None; data := CInt [1%Z; 2%Z] |}
            [Rat 12; Rat (1093 # 100)] [true; false] 12 _ _ _ _ _ _);
    vm_compute; reflexivity.
Defined.

(** X7. A table with rows but none of atomic number 1 cannot be
    post-processed: there is nothing to subtract, and
    [AbundParser.postprocessor] raises a [ValueError]. *)
Theorem no_hydrogen_no_abundances (sym : Z → option string) (fn : string) (df : QTable)
    (c z : Column) (xs : list real) (zs : list Z) :
  column df "abundance relative to H" = Ok c → data c = CFloat xs → xs ≠ [] →
  column df "atomic number" = Ok z → data z = CInt zs → Forall (λ n, n ≠ 1%Z) zs →
  ∃ e, AbundParser_postprocessor sym fn df = Raise e ∧ exc_class e = "ValueError".
Proof.
  intros Hc Hxs Hne Hz Hzs Hno. unfold AbundParser_postprocessor.
  rewrite Hc. simpl. rewrite Hxs. simpl. rewrite Hz. simpl. rewrite Hzs. simpl.
  rewrite select_none.
  - unfold broadcast_sub. destruct xs as [|x xs]; [done|]. simpl. eauto.
  - apply Forall_fmap. eapply Forall_impl; [done|]. simpl.
    intros n Hn. by apply Z.eqb_neq.
Qed.

Lemma no_hydrogen_no_abundances_witness :
  ∃ e, AbundParser_postprocessor symbols "sun.abund" helium_only = Raise e ∧
       exc_class e = "ValueError".
Proof.
  refine (no_hydrogen_no_abundances symbols "sun.abund" helium_only
            {| unit := Some ""; data := CFloat [Rat (1093 # 100)] |}
            {| unit := None; data := CInt [2%Z] |}
            [Rat (1093 # 100)] [2%Z] _ _ _ _ _ _); try reflexivity.
  - discriminate.
  - repeat constructor. discriminate.
Defined.

(* ===================================================================== *)
(** ** Further properties of [GenericParser.to_hdf5]                      *)
(* ===================================================================== *)

Section generic_writer.
Implicit Types (hf : store) (k g : string) (n : node) (col : string * Column).

Lemma child_inj (g a b : string) : child g a = child g b → a = b.
Proof.
  unfold child. intros H. apply (inj (String.app g)) in H.
  by apply (inj (String.app "/")) in H.
Qed.

Lemma child_length (g name : string) :
  String.length (child g name) = String.length g + 1 + String.length name.
Proof. unfold child. rewrite !string_app_length. simpl. lia. Qed.

Lemma file_group_length (p : IonParser) :
  String.length (file_group_of p) =
  String.length (ion_group_of p) + 1 + String.length (filetype p).
Proof.
  unfold file_group_of, ion_group_of. simpl. rewrite !string_app_length. simpl. lia.
Qed.

(** The groups on the way to a path are shorter than the path. *)
Lemma ancestors_go_shorter (s : string) :
  ∀ pre k, k ∈ ancestors_go pre s → String.length k < String.length pre + String.length s.
Proof.
  induction s as [|c s IH]; intros pre k Hk; simpl in Hk.
  - by apply elem_of_nil in Hk.
  - assert (k = pre ∨ k ∈ ancestors_go (pre +:+ String c "") s) as [-> | Hin].
    { destruct (Ascii.eqb c "/"); [|by right]. apply elem_of_cons in Hk. tauto. }
    + simpl. lia.
    + apply IH in Hin. rewrite string_app_length in Hin. simpl in *. lia.
Qed.

(** Creating a group adds nothing at or beyond the length of its path,
    except the group itself. *)
Lemma create_group_long hf g hf' k :
  create_group hf g = Ok hf' → hf !! k = None → k ≠ g →
  String.length g ≤ String.length k → hf' !! k = None.
Proof.
  unfold create_group. destruct (hf !! g); [discriminate|]. intros [= <-] Hk Hne Hlen.
  rewrite lookup_insert_ne by done. rewrite ensure_groups_lookup, Hk.
  destruct (decide (k ∈ ancestors g)) as [Hin|]; [|done].
  apply ancestors_go_shorter in Hin. simpl in Hin. lia.
Qed.

Lemma with_attrs_id n : with_attrs n (attrs_of n) = n.
Proof. by destruct n. Qed.

(** One turn of the column loop: the group is a group, nothing but the
    node of the column changes, and that node ends with the column's unit. *)
Lemma write_column_Ok g hf col hf' :
  write_column g hf col = Ok hf' →
  (∃ a, hf !! g = Some (Group a)) ∧
  (∀ k, k ≠ child g col.1 → hf' !! k = hf !! k) ∧
  hf' !! child g col.1 =
    Some (match hf !! child g col.1 with
          | Some n => with_attrs n (<["unit" := unit_attr col.2]> (attrs_of n))
          | None => Dataset (Array (data col.2)) {[ "unit" := unit_attr col.2 ]}
          end).
Proof.
  unfold write_column. intros H. step H as present Hp. step H as hf1 H1.
  apply group_contains_Ok in Hp as (Hg & ->).
  apply set_attr_Ok in H as (n & Hn & ->).
  split; [done|]. destruct (contains hf (child g col.1)) eqn:Hc.
  - injection H1 as <-. rewrite Hn. split; [|by rewrite lookup_insert_eq].
    intros k Hk. by rewrite lookup_insert_ne.
  - apply contains_false in Hc. apply create_dataset_Ok in H1 as (_ & ->).
    rewrite lookup_insert_eq in Hn. injection Hn as <-. rewrite Hc. simpl. split.
    + intros k Hk. by rewrite !lookup_insert_ne.
    + by rewrite lookup_insert_eq, insert_empty.
Qed.

(** The column loop as a whole, for columns of distinct names. *)
Lemma write_columns_Ok g (cs : list (string * Column)) :
  NoDup cs.*1 →
  ∀ hf hf', for_loop (write_column g) hf cs = Ok hf' →
    (∀ k, (∀ col, col ∈ cs → k ≠ child g col.1) → hf' !! k = hf !! k) ∧
    (∀ col, col ∈ cs →
       hf' !! child g col.1 =
         Some (match hf !! child g col.1 with
               | Some n => with_attrs n (<["unit" := unit_attr col.2]> (attrs_of n))
               | None => Dataset (Array (data col.2)) {[ "unit" := unit_attr col.2 ]}
               end)) ∧
    (cs ≠ [] → ∃ a, hf !! g = Some (Group a)).
Proof.
  induction cs as [|col cs IH]; intros Hnd hf hf' H; simpl in H.
  - injection H as <-. split; [done|]. split; [|done].
    intros col Hcol. by apply elem_of_nil in Hcol.
  - rewrite fmap_cons in Hnd. apply NoDup_cons in Hnd as [Hnotin Hnd].
    step H as hf1 H1. apply write_column_Ok in H1 as (Hg & Hother & Hcol).
    destruct (IH Hnd hf1 hf' H) as (Hother' & Hcols' & _).
    split; [|split; [|done]].
    + intros k Hk. rewrite Hother'.
      * apply Hother, Hk, elem_of_cons. by left.
      * intros col' Hin. apply Hk, elem_of_cons. by right.
    + intros col' [-> | Hin]%elem_of_cons.
      * rewrite Hother'; [done|]. intros col' Hin Heq. apply child_inj in Heq.
        apply Hnotin. rewrite Heq. by apply list_elem_of_fmap_2.
      * rewrite (Hcols' col' Hin). rewrite Hother; [done|].
        intros Heq. apply child_inj in Heq.
        apply Hnotin. rewrite <- Heq. by apply list_elem_of_fmap_2.
Qed.

(** A store in which every column already has its node, stamped with its
    unit, is left as it is by the column loop. *)
Lemma write_columns_again g (cs : list (string * Column)) hf :
  (cs ≠ [] → ∃ a, hf !! g = Some (Group a)) →
  (∀ col, col ∈ cs →
     ∃ n, hf !! child g col.1 = Some n ∧ attrs_of n !! "unit" = Some (unit_attr col.2)) →
  for_loop (write_column g) hf cs = Ok hf.
Proof.
  intros Hg Hcols. assert (∀ col, col ∈ cs → write_column g hf col = Ok hf) as Hturn.
  { intros col Hcol. destruct Hg as [a Ha]; [by intros ->; apply elem_of_nil in Hcol|].
    destruct (Hcols col Hcol) as (n & Hn & Hu).
    unfold write_column, group_contains. rewrite Ha. simpl.
    assert (contains hf (child g col.1) = true) as -> by (apply contains_true; eauto).
    simpl. unfold set_attr. rewrite Hn. simpl.
    rewrite (insert_id (attrs_of n)) by done. rewrite with_attrs_id.
    by rewrite insert_id. }
  clear Hg Hcols. induction cs as [|col cs IH]; simpl; [done|].
  rewrite Hturn by (apply elem_of_cons; by left). simpl.
  apply IH. intros col' Hin. apply Hturn, elem_of_cons. by right.
Qed.

(** The steps before the column loop. *)
Lemma generic_prologue (p : IonParser) (df : QTable) hf hf3 :
  (hf1 ← (if contains hf (file_group_of p) then Ok hf
          else
            hf' ← create_group hf (file_group_of p);
            v ← get_meta df "chianti_version";
            hf' ← set_attr hf' (file_group_of p) "chianti_version" v;
            f ← get_meta df "footer";
            set_attr hf' (file_group_of p) "footer" f);
   hf2 ← set_group_attr hf1 (ion_group_of p) "element" (element p);
   set_group_attr hf2 (ion_group_of p) "ion" (ion_name p)) = Ok hf3 →
  (∃ a, hf3 !! ion_group_of p = Some (Group a) ∧
        a !! "element" = Some (element p) ∧ a !! "ion" = Some (ion_name p)) ∧
  (∀ n, hf !! file_group_of p = Some n → hf3 !! file_group_of p = Some n) ∧
  (hf !! file_group_of p = None →
   ∃ v f, get_meta df "chianti_version" = Ok v ∧ get_meta df "footer" = Ok f ∧
          hf3 !! file_group_of p =
            Some (Group (<["footer" := f]> (<["chianti_version" := v]> ∅)))) ∧
  (∀ k, String.length (file_group_of p) < String.length k → hf3 !! k = hf !! k).
Proof.
  intros H. step H as hf1 H1. step H as hf2 H2.
  apply set_group_attr_Ok in H2 as (a2 & Ha2 & ->).
  apply set_group_attr_Ok in H as (a3 & Ha3 & ->).
  rewrite lookup_insert_eq in Ha3. injection Ha3 as <-.
  pose proof (file_group_length p) as Hlen.
  assert (file_group_of p ≠ ion_group_of p) as Hne
    by (intros Heq; rewrite Heq in Hlen; lia).
  split; [|split; [|split]].
  - eexists. rewrite lookup_insert_eq. split; [done|].
    by rewrite lookup_insert_ne, !lookup_insert_eq.
  - intros n Hn. rewrite !lookup_insert_ne by done.
    assert (contains hf (file_group_of p) = true) as Hc by (apply contains_true; eauto).
    rewrite Hc in H1. by injection H1 as <-.
  - intros Hn. rewrite !lookup_insert_ne by done.
    assert (contains hf (file_group_of p) = false) as Hc by (by apply contains_false).
    rewrite Hc in H1. step H1 as hf0 H0. step H1 as v Hv. step H1 as hf0' H0'.
    step H1 as f Hf. apply create_group_Ok in H0 as (_ & Hg0 & _).
    apply set_attr_Ok in H0' as (n0 & Hn0 & ->). rewrite Hg0 in Hn0. injection Hn0 as <-.
    apply set_attr_Ok in H1 as (n1 & Hn1 & ->).
    rewrite lookup_insert_eq in Hn1. injection Hn1 as <-. simpl.
    exists v, f. by rewrite lookup_insert_eq.
  - intros k Hk.
    rewrite !lookup_insert_ne by (intros Heq; rewrite <- Heq in Hk; lia).
    destruct (contains hf (file_group_of p)) eqn:Hc; [by injection H1 as <-|].
    step H1 as hf0 H0. step H1 as v Hv. step H1 as hf0' H0'. step H1 as f Hf.
    apply set_attr_Ok in H0' as (n0 & Hn0 & ->).
    apply set_attr_Ok in H1 as (n1 & Hn1 & ->).
    rewrite !lookup_insert_ne by (intros Heq; rewrite <- Heq in Hk; lia).
    destruct (hf !! k) as [n|] eqn:Hkn.
    + apply create_group_Ok in H0 as (_ & _ & Hold & _). by apply Hold.
    + apply (create_group_long _ _ _ k H0 Hkn); [|lia].
      intros Heq. rewrite Heq in Hk. lia.
Qed.

Lemma generic_split (p : IonParser) (df : QTable) hf hf' :
  GenericParser_to_hdf5 p hf df = Ok hf' →
  ∃ hf3,
    (hf1 ← (if contains hf (file_group_of p) then Ok hf
            else
              hf' ← create_group hf (file_group_of p);
              v ← get_meta df "chianti_version";
              hf' ← set_attr hf' (file_group_of p) "chianti_version" v;
              f ← get_meta df "footer";
              set_attr hf' (file_group_of p) "footer" f);
     hf2 ← set_group_attr hf1 (ion_group_of p) "element" (element p);
     set_group_attr hf2 (ion_group_of p) "ion" (ion_name p)) = Ok hf3 ∧
    for_loop (write_column (file_group_of p)) hf3 (columns df) = Ok hf'.
Proof.
  unfold GenericParser_to_hdf5. fold (file_group_of p). fold (ion_group_of p).
  intros H. step H as hf1 H1. step H as hf2 H2. step H as hf3 H3.
  exists hf3. split; [|done]. rewrite H1. simpl. rewrite H2. simpl. done.
Qed.

End generic_writer.

Section generic_writer_results.
Implicit Types (hf : store) (p : IonParser) (df : QTable).

(** The column loop touches the nodes of columns only. *)
Lemma write_columns_elsewhere (g : string) (cs : list (string * Column)) hf hf' (k : string) :
  for_loop (write_column g) hf cs = Ok hf' → (∀ name, k ≠ child g name) →
  hf' !! k = hf !! k.
Proof.
  intros H Hk. revert H.
  apply (for_loop_invariant (write_column g) (λ s, s !! k = hf !! k)); [|done].
  intros s col s' Hs Hturn. apply write_column_Ok in Hturn as (_ & Hother & _).
  by rewrite Hother.
Qed.

Lemma generic_groups p df hf hf' :
  GenericParser_to_hdf5 p hf df = Ok hf' →
  (∃ a, hf' !! ion_group_of p = Some (Group a) ∧
        a !! "element" = Some (element p) ∧ a !! "ion" = Some (ion_name p)) ∧
  (∀ n, hf !! file_group_of p = Some n → hf' !! file_group_of p = Some n) ∧
  (hf !! file_group_of p = None →
   ∃ v f, get_meta df "chianti_version" = Ok v ∧ get_meta df "footer" = Ok f ∧
          hf' !! file_group_of p =
            Some (Group (<["footer" := f]> (<["chianti_version" := v]> ∅)))).
Proof.
  intros H. apply generic_split in H as (hf3 & Hpro & Hloop).
  apply generic_prologue in Hpro as (Hion & Hold & Hnew & _).
  pose proof (file_group_length p) as Hlen.
  assert (hf' !! ion_group_of p = hf3 !! ion_group_of p) as ->.
  { apply (write_columns_elsewhere _ _ _ _ _ Hloop). intros name Heq.
    apply (f_equal String.length) in Heq. rewrite child_length in Heq. lia. }
  assert (hf' !! file_group_of p = hf3 !! file_group_of p) as ->.
  { apply (write_columns_elsewhere _ _ _ _ _ Hloop). intros name Heq.
    symmetry in Heq. by apply child_neq in Heq. }
  done.
Qed.

Lemma generic_columns p df hf hf' :
  GenericParser_to_hdf5 p hf df = Ok hf' → NoDup (colnames df) →
  (∀ col, col ∈ columns df →
     hf' !! child (file_group_of p) col.1 =
       Some (match hf !! child (file_group_of p) col.1 with
             | Some n => with_attrs n (<["unit" := unit_attr col.2]> (attrs_of n))
             | None => Dataset (Array (data col.2)) {[ "unit" := unit_attr col.2 ]}
             end)) ∧
  (columns df ≠ [] → ∃ a, hf' !! file_group_of p = Some (Group a)).
Proof.
  intros H Hnd. apply generic_split in H as (hf3 & Hpro & Hloop).
  apply generic_prologue in Hpro as (_ & _ & _ & Hlong).
  pose proof (write_columns_Ok _ _ Hnd _ _ Hloop) as (_ & Hcols & Hg). split.
  - intros col Hcol. rewrite (Hcols col Hcol), Hlong; [done|].
    rewrite child_length. lia.
  - intros Hne. destruct (Hg Hne) as [a Ha]. exists a. rewrite <- Ha.
    apply (write_columns_elsewhere _ _ _ _ _ Hloop). intros name Heq.
    symmetry in Heq. by apply child_neq in Heq.
Qed.

End generic_writer_results.

(** X8. After [GenericParser.to_hdf5], every column of the table (column
    names being distinct) has a node under the file's group that carries a
    [unit] attribute: the column's unit, or [SKIP] for a column without one.
    Where no node of that name was in the file, the node is a dataset holding
    the column's data, with that attribute alone. *)
Theorem generic_columns_are_stored (p : IonParser) (hf : store) (df : QTable) (hf' : store)
    (name : string) (c : Column) :
  GenericParser_to_hdf5 p hf df = Ok hf' → NoDup (colnames df) →
  (name, c) ∈ columns df →
  (∃ n, hf' !! child (file_group_of p) name = Some n ∧
        attrs_of n !! "unit" = Some (unit_attr c)) ∧
  (hf !! child (file_group_of p) name = None →
   hf' !! child (file_group_of p) name =
     Some (Dataset (Array (data c)) {[ "unit" := unit_attr c ]})).
Proof.
  intros H Hnd Hin. destruct (generic_columns p df hf hf' H Hnd) as [Hcols _].
  specialize (Hcols (name, c) Hin). simpl in Hcols. split.
  - eexists. split; [exact Hcols|].
    destruct (hf !! child (file_group_of p) name) as [n|].
    + rewrite attrs_with_attrs. apply lookup_insert_eq.
    + apply lookup_singleton_eq.
  - intros Hnone. by rewrite Hnone in Hcols.
Qed.

Lemma generic_columns_are_stored_witness :
  (∃ n, levels_once !! child (file_group_of elvlc) "energy" = Some n ∧
        attrs_of n !! "unit" = Some "1 / cm") ∧
  ((∅ : store) !! child (file_group_of elvlc) "energy" = None →
   levels_once !! child (file_group_of elvlc) "energy" =
     Some (Dataset (Array (CFloat [Rat 0; Rat 82259])) {[ "unit" := "1 / cm" ]})).
Proof.
  refine (generic_columns_are_stored elvlc ∅ (levels (Some "1 / cm")) levels_once
            "energy" {| unit := Some "1 / cm"; data := CFloat [Rat 0; Rat 82259] |} _ _ _).
  - vm_compute. reflexivity.
  - apply (bool_decide_unpack _). vm_compute. constructor.
  - apply elem_of_cons. right. apply elem_of_cons. by left.
Defined.

(** X9. [GenericParser.to_hdf5] stamps the ion's group [element/ion] with
    the [element] and [ion] attributes on every write.  The file's group
    [element/ion/filetype] gets its [chianti_version] and [footer] from the
    table only when the write creates it; a group that is already there is
    left exactly as it is, so the footer and version of a later table for the
    same group are not recorded. *)
Theorem generic_group_attributes (p : IonParser) (hf : store) (df : QTable) (hf' : store) :
  GenericParser_to_hdf5 p hf df = Ok hf' →
  (∃ a, hf' !! ion_group_of p = Some (Group a) ∧
        a !! "element" = Some (element p) ∧ a !! "ion" = Some (ion_name p)) ∧
  (∀ n, hf !! file_group_of p = Some n → hf' !! file_group_of p = Some n) ∧
  (hf !! file_group_of p = None →
   ∃ v f, get_meta df "chianti_version" = Ok v ∧ get_meta df "footer" = Ok f ∧
          hf' !! file_group_of p =
            Some (Group (<["footer" := f]> (<["chianti_version" := v]> ∅)))).
Proof. apply generic_groups. Qed.

Lemma generic_group_attributes_witness :
  (∃ a, levels_twice !! ion_group_of elvlc = Some (Group a) ∧
        a !! "element" = Some (element elvlc) ∧ a !! "ion" = Some (ion_name elvlc)) ∧
  (∀ n, levels_once !! file_group_of elvlc = Some n →
        levels_twice !! file_group_of elvlc = Some n) ∧
  (levels_once !! file_group_of elvlc = None →
   ∃ v f, get_meta (levels (Some "eV")) "chianti_version" = Ok v ∧
          get_meta (levels (Some "eV")) "footer" = Ok f ∧
          levels_twice !! file_group_of elvlc =
            Some (Group (<["footer" := f]> (<["chianti_version" := v]> ∅)))).
Proof.
  apply (generic_group_attributes elvlc levels_once (levels (Some "eV")) levels_twice).
  vm_compute. reflexivity.
Defined.

(** X10. Writing the same table (of distinct column names) a second time
    with [GenericParser.to_hdf5] succeeds and leaves the file exactly as the
    first write left it. *)
Theorem generic_write_is_idempotent (p : IonParser) (hf : store) (df : QTable)
    (hf1 : store) :
  GenericParser_to_hdf5 p hf df = Ok hf1 → NoDup (colnames df) →
  GenericParser_to_hdf5 p hf1 df = Ok hf1.
Proof.
  intros H Hnd.
  destruct (generic_groups p df hf hf1 H) as ((a & Ha & Hel & Hion) & Hold & Hnew).
  destruct (generic_columns p df hf hf1 H Hnd) as [Hcols Hgrp].
  assert (is_Some (hf1 !! file_group_of p)) as Hthere.
  { destruct (hf !! file_group_of p) as [n|] eqn:Hn; [by rewrite (Hold n)|].
    destruct (Hnew eq_refl) as (v & f & _ & _ & ->). eauto. }
  unfold GenericParser_to_hdf5. fold (file_group_of p). fold (ion_group_of p).
  apply contains_true in Hthere. rewrite Hthere. simpl.
  unfold set_group_attr. rewrite Ha. simpl.
  rewrite (insert_id a) by done. rewrite (insert_id hf1) by done.
  rewrite Ha. simpl. rewrite (insert_id a) by done. rewrite (insert_id hf1) by done.
  apply write_columns_again; [done|].
  intros col Hcol. eexists. split; [by apply Hcols|].
  destruct (hf !! child (file_group_of p) col.1) as [n|].
  - rewrite attrs_with_attrs. apply lookup_insert_eq.
  - apply lookup_singleton_eq.
Qed.

Lemma generic_write_is_idempotent_witness :
  GenericParser_to_hdf5 elvlc levels_once (levels (Some "1 / cm")) = Ok levels_once.
Proof.
  apply (generic_write_is_idempotent elvlc ∅ (levels (Some "1 / cm")) levels_once).
  - vm_compute. reflexivity.
  - apply (bool_decide_unpack _). vm_compute. constructor.
Defined.

(* ===================================================================== *)
(** ** Further properties of the non-ion writers                          *)
(* ===================================================================== *)

(** X11. [IoneqParser.to_hdf5] is idempotent: writing the same table again
    succeeds and leaves the file exactly as the first write left it (the
    footer included: it is set inside the guard on the dataset name). *)
Theorem ioneq_write_is_idempotent (sym : Z → option string) (fn : string) (hf : store)
    (df : QTable) (hf1 : store) :
  IoneqParser_to_hdf5 sym fn hf df = Ok hf1 →
  IoneqParser_to_hdf5 sym fn hf1 df = Ok hf1.
Proof.
  unfold IoneqParser_to_hdf5.
  set (dn := splitext_root (basename fn)).
  match goal with |- for_loop ?f _ _ = _ → _ => set (turn := f) end.
  assert (∀ s row s', turn s row = Ok s' →
            extends s s' ∧
            ∃ g a, ion_group sym df row "ioneq" = Ok g ∧
                   s' !! g = Some (Group a) ∧ is_Some (s' !! child g dn)) as Hturn.
  { intros s row s' H. unfold turn in H.
    step H as g Hg. step H as s1 H1. step H as present Hp.
    pose proof (extends_find_or_create _ _ _ H1) as He1.
    apply group_contains_Ok in Hp as ([a Ha] & ->).
    destruct (contains s1 (child g dn)) eqn:Hc.
    - injection H as <-. split; [done|]. exists g, a.
      by apply contains_true in Hc.
    - step H as s2 H2. step H as f Hf. step H as s3 H3.
      step H as t Ht. step H as s4 H4. step H as c Hc'. step H as u Hu.
      step H as s5 H5. step H as x Hx. step H as s6 H6.
      step H as c' Hc''. step H as u' Hu'.
      pose proof (extends_fresh_group _ _ _ _ _ _ _ (extends_refl s1) H2 H3) as He3.
      pose proof (extends_fresh_dataset _ _ _ _ _ _ _ _ _ He3 H4 H5) as He5.
      pose proof (extends_fresh_dataset _ _ _ _ _ _ _ _ _ He5 H6 H) as He7.
      split; [by eapply extends_trans|]. exists g, a.
      split; [done|]. split; [by apply He7|].
      apply set_attr_Ok in H3 as (n3 & Hn3 & Hs3).
      assert (is_Some (s3 !! child g dn)) as [m Hm]
        by (rewrite Hs3, lookup_insert_eq; eauto).
      exists m.
      assert (extends s3 s') as He37.
      { eapply extends_trans.
        - eapply (extends_fresh_dataset s3 s3); [apply extends_refl | exact H4 | exact H5].
        - eapply (extends_fresh_dataset s5 s5); [apply extends_refl | exact H6 | exact H]. }
      by apply He37. }
  assert (∀ s row g a, ion_group sym df row "ioneq" = Ok g →
            s !! g = Some (Group a) → is_Some (s !! child g dn) →
            turn s row = Ok s) as Hagain.
  { intros s row g a Hg Ha Hc. unfold turn. rewrite Hg. simpl.
    unfold find_or_create.
    assert (contains s g = true) as -> by (apply contains_true; eauto). simpl.
    unfold group_contains. rewrite Ha. simpl.
    assert (contains s (child g dn) = true) as -> by (by apply contains_true).
    done. }
  generalize (seq 0 (nrows df)). intros rows H.
  assert (extends hf hf1 ∧
          ∀ row, row ∈ rows →
            ∃ g a, ion_group sym df row "ioneq" = Ok g ∧
                   hf1 !! g = Some (Group a) ∧ is_Some (hf1 !! child g dn)) as [_ Hfacts].
  { clear Hagain. revert hf H. induction rows as [|row rows IH]; intros hf H; simpl in H.
    - injection H as <-. split; [apply extends_refl|].
      intros row Hrow. by apply elem_of_nil in Hrow.
    - step H as s1 H1. apply Hturn in H1 as (He1 & g & a & Hg & Ha & [m Hm]).
      destruct (IH s1 H) as [He Hrest]. split; [by eapply extends_trans|].
      intros row' [-> | Hin]%elem_of_cons; [|by apply Hrest].
      exists g, a. split; [done|]. split; [by apply He|]. exists m. by apply He. }
  clear H Hturn. induction rows as [|row rows IH]; simpl; [done|].
  destruct (Hfacts row) as (g & a & Hg & Ha & Hc); [apply elem_of_cons; by left|].
  rewrite (Hagain hf1 row g a Hg Ha Hc). simpl.
  apply IH. intros row' Hin. apply Hfacts, elem_of_cons. by right.
Qed.

Lemma ioneq_write_is_idempotent_witness :
  IoneqParser_to_hdf5 symbols "two.ioneq" fractions_once fractions = Ok fractions_once.
Proof.
  apply (ioneq_write_is_idempotent symbols "two.ioneq" ∅ fractions fractions_once).
  vm_compute. reflexivity.
Defined.

(** X12. [AbundParser.to_hdf5] and [IpParser.to_hdf5] append the block of
    the source to the footer of a group once for every row of the table that
    is written to that group: the footer of a group none of the rows names is
    left as it is, and a table with [j] rows for one group leaves [j] copies
    of its block there. *)
Theorem footer_grows_by_one_block_per_row (sym : Z → option string) (w : writer)
    (hf : store) (df : QTable) (hf' : store) (g b : string) :
  accumulating w = true → to_hdf5 sym w hf df = Ok hf' → block w df = Ok b →
  footer_of hf' g =
  match hits sym w df g with
  | 0 => footer_of hf g
  | S j => Some (default "" (footer_of hf g) +:+ join (replicate (S j) b))
  end.
Proof. apply accumulating_footer. Qed.

Lemma footer_grows_by_one_block_per_row_witness :
  footer_of doubled "h/abundance" =
  Some ("" +:+ join (replicate 2 (footer_block "sun" ""))).
Proof.
  refine (footer_grows_by_one_block_per_row symbols (AbundWriter "sun.abund") ∅
            (abundances ["h"; "H"]) doubled "h/abundance" (footer_block "sun" "") _ _ _);
    vm_compute; reflexivity.
Defined.

Section accumulating_writers.
Variable sym : Z → option string.
Implicit Types (w : writer) (hf : store) (df : QTable) (k g : string).

(** The datasets in the file after one turn of the row loop: those that
    were there, and at most one new one, holding the row's value and the
    unit. *)
Lemma write_once_datasets hf g dn fo data u hf' k d a :
  write_once hf g dn fo data u = Ok hf' → hf' !! k = Some (Dataset d a) →
  hf !! k = Some (Dataset d a) ∨
  (k = child g dn ∧ hf !! k = None ∧
   ∃ v us, data = Ok v ∧ u = Ok us ∧ d = Scalar v ∧ a = {[ "unit" := us ]}).
Proof.
  unfold write_once. intros H Hk.
  step H as hf1 H1. step H as f Hf. step H as hf2 H2. step H as present Hp.
  apply find_or_create_Ok in H1 as (Hold & Hnew & Hfresh).
  apply set_attr_Ok in H2 as (n1 & Hn1 & ->).
  apply group_contains_Ok in Hp as ([a2 Ha2] & ->).
  rewrite lookup_insert_eq in Ha2.
  set (hf2 := <[g := with_attrs n1 (<["footer" := f +:+ fo]> (attrs_of n1))]> hf1) in *.
  assert (∀ k, hf2 !! k = None → hf !! k = None) as Hnone.
  { intros k0 Hk0. destruct (hf !! k0) as [m|] eqn:Hm; [|done].
    apply Hold in Hm. unfold hf2 in Hk0.
    destruct (decide (g = k0)) as [->|Hne].
    - by rewrite lookup_insert_eq in Hk0.
    - rewrite lookup_insert_ne in Hk0 by done. congruence. }
  assert (∀ k d a, hf2 !! k = Some (Dataset d a) → hf !! k = Some (Dataset d a)) as Hds.
  { intros k0 d0 a0 Hk0. unfold hf2 in Hk0.
    destruct (decide (g = k0)) as [->|Hne].
    - rewrite lookup_insert_eq in Hk0. congruence.
    - rewrite lookup_insert_ne in Hk0 by done.
      destruct (hf !! k0) as [m|] eqn:Hm.
      + apply Hold in Hm. congruence.
      + destruct (Hnew k0 Hm) as [Hn | Hn]; [done| |]; congruence. }
  destruct (contains hf2 (child g dn)) eqn:Hc.
  - injection H as <-. left. by apply Hds.
  - apply contains_false in Hc. step H as v Hv. step H as hf3 H3. step H as us Hu.
    apply create_dataset_Ok in H3 as (_ & ->).
    apply set_attr_Ok in H as (n3 & Hn3 & ->).
    rewrite lookup_insert_eq in Hn3. injection Hn3 as <-. simpl in Hk.
    destruct (decide (k = child g dn)) as [->|Hne].
    + right. rewrite lookup_insert_eq in Hk. injection Hk as <- <-.
      split; [done|]. split; [by apply Hnone|]. exists v, us. by rewrite insert_empty.
    + left. rewrite !lookup_insert_ne in Hk by done. by apply Hds.
Qed.

(** [AbundParser.to_hdf5] and [IpParser.to_hdf5] are the same loop, over
    the value column of each. *)
Lemma accumulating_rows w hf df hf' :
  accumulating w = true → to_hdf5 sym w hf df = Ok hf' →
  ∃ f,
    get_meta df "footer" = Ok f ∧
    for_loop (λ hf row,
        g ← row_group sym w df row;
        write_once hf g (dataset_name w) (footer_block (dataset_name w) f)
          (row_get df row (value_column w))
          (c ← column df (value_column w); unit_to_string c))
      hf (seq 0 (nrows df)) = Ok hf'.
Proof.
  intros Hw H. destruct w as [p|fn|fn|fn]; try discriminate; simpl in H.
  - unfold AbundParser_to_hdf5 in H. step H as f Hf. by exists f.
  - unfold IpParser_to_hdf5 in H. step H as f Hf. by exists f.
Qed.

Lemma row_loop_datasets (grp : nat → result string) (dn fo : string)
    (data : nat → result pyval) (u : result string) (rows : list nat) :
  ∀ hf hf' k d a,
    for_loop (λ hf row, g ← grp row; write_once hf g dn fo (data row) u) hf rows = Ok hf' →
    hf' !! k = Some (Dataset d a) →
    hf !! k = Some (Dataset d a) ∨
    ∃ row g v us,
      row ∈ rows ∧ grp row = Ok g ∧ k = child g dn ∧ hf !! k = None ∧
      data row = Ok v ∧ u = Ok us ∧ d = Scalar v ∧ a = {[ "unit" := us ]}.
Proof.
  induction rows as [|row rows IH]; intros hf hf' k d a H Hk; simpl in H.
  - injection H as <-. by left.
  - step H as hf1 H1. step H1 as g Hg.
    destruct (IH hf1 hf' k d a H Hk) as [Hk1 | (row' & g' & v & us & Hin & Hrest)].
    + destruct (write_once_datasets _ _ _ _ _ _ _ _ _ _ H1 Hk1)
        as [Hold | (-> & Hnone & v & us & Hv & Hu & -> & ->)]; [by left|].
      right. exists row, g, v, us. split; [apply elem_of_cons; by left|]. done.
    + destruct Hrest as (Hg' & -> & Hnone & Hv & Hu & -> & ->).
      destruct (hf !! child g' dn) as [m|] eqn:Hm.
      * apply write_once_Ok in H1 as (Hkeep & [a1 Ha1] & _).
        destruct (decide (child g' dn = g)) as [Heq|Hne].
        -- rewrite Heq in Hnone. congruence.
        -- rewrite (Hkeep _ _ Hm Hne) in Hnone. discriminate.
      * right. exists row', g', v, us. split; [apply elem_of_cons; by right|]. done.
Qed.

(** A group that is there with its node for the dataset name stays so in
    every later turn. *)
Lemma row_loop_keeps_entries (grp : nat → result string) (dn fo : string)
    (data : nat → result pyval) (u : result string) (rows : list nat) (g0 : string) :
  ∀ hf hf',
    for_loop (λ hf row, g ← grp row; write_once hf g dn fo (data row) u) hf rows = Ok hf' →
    (∃ a, hf !! g0 = Some (Group a)) ∧ is_Some (hf !! child g0 dn) →
    (∃ a, hf' !! g0 = Some (Group a)) ∧ is_Some (hf' !! child g0 dn).
Proof.
  intros hf hf' H HP. revert HP H.
  apply (for_loop_invariant _
           (λ s, (∃ a, s !! g0 = Some (Group a)) ∧ is_Some (s !! child g0 dn))).
  intros s row s' [[a Ha] [m Hm]] Hturn. step Hturn as g Hg.
  apply write_once_Ok in Hturn as (Hkeep & [a' Ha'] & _). split.
  - destruct (decide (g0 = g)) as [->|Hne]; [eauto|]. exists a. by apply Hkeep.
  - destruct (decide (child g0 dn = g)) as [->|Hne]; [eauto|]. exists m. by apply Hkeep.
Qed.

Lemma row_loop_entries (grp : nat → result string) (dn fo : string)
    (data : nat → result pyval) (u : result string) (rows : list nat) :
  ∀ hf hf',
    for_loop (λ hf row, g ← grp row; write_once hf g dn fo (data row) u) hf rows = Ok hf' →
    ∀ row, row ∈ rows →
      ∃ g, grp row = Ok g ∧ (∃ a, hf' !! g = Some (Group a)) ∧ is_Some (hf' !! child g dn).
Proof.
  induction rows as [|row rows IH]; intros hf hf' H row' Hin; simpl in H.
  - by apply elem_of_nil in Hin.
  - step H as hf1 H1. apply elem_of_cons in Hin as [-> | Hin]; [|by eapply IH].
    step H1 as g Hg. exists g. split; [done|].
    apply write_once_Ok in H1 as (_ & Hgrp & _ & _ & Hchild & _).
    by apply (row_loop_keeps_entries grp dn fo data u rows g hf1 hf' H).
Qed.

End accumulating_writers.

(** X13. After [AbundParser.to_hdf5] or [IpParser.to_hdf5], every row of
    the table has its group in the file, with a node of the source's dataset
    name in it; and every dataset in the file that was not there before is
    such a node, [group/stem] for the group of some row, holding that row's
    value with the unit of the value column as its only attribute.  The
    writers create no other datasets. *)
Theorem accumulating_write_result (sym : Z → option string) (w : writer) (hf : store)
    (df : QTable) (hf' : store) :
  accumulating w = true → to_hdf5 sym w hf df = Ok hf' →
  (∀ row, row < nrows df →
     ∃ g, row_group sym w df row = Ok g ∧
          (∃ a, hf' !! g = Some (Group a)) ∧
          is_Some (hf' !! child g (dataset_name w))) ∧
  (∀ k d a, hf' !! k = Some (Dataset d a) →
     hf !! k = Some (Dataset d a) ∨
     ∃ row g v c us,
       row < nrows df ∧ row_group sym w df row = Ok g ∧
       k = child g (dataset_name w) ∧ hf !! k = None ∧
       row_get df row (value_column w) = Ok v ∧
       column df (value_column w) = Ok c ∧ unit c = Some us ∧
       d = Scalar v ∧ a = {[ "unit" := us ]}).
Proof.
  intros Hw H. apply accumulating_rows in H as (f & Hf & H); [|done]. split.
  - intros row Hrow. eapply row_loop_entries; [exact H|].
    apply list_elem_of_lookup. exists row. by apply lookup_seq.
  - intros k d a Hk.
    destruct (row_loop_datasets _ _ _ _ _ _ _ _ _ _ _ H Hk)
      as [Hold | (row & g & v & us & Hin & Hg & -> & Hnone & Hv & Hu & -> & ->)];
      [by left|].
    right. step Hu as c Hc. apply from_option_Ok in Hu.
    exists row, g, v, c, us. apply list_elem_of_lookup in Hin as [i Hi].
    apply lookup_seq in Hi as [-> Hi]. done.
Qed.

Lemma accumulating_write_result_witness :
  (∀ row, row < nrows sun →
     ∃ g, row_group symbols (AbundWriter "sun.abund") sun row = Ok g ∧
          (∃ a, once !! g = Some (Group a)) ∧
          is_Some (once !! child g (dataset_name (AbundWriter "sun.abund")))) ∧
  (∀ k d a, once !! k = Some (Dataset d a) →
     (∅ : store) !! k = Some (Dataset d a) ∨
     ∃ row g v c us,
       row < nrows sun ∧ row_group symbols (AbundWriter "sun.abund") sun row = Ok g ∧
       k = child g (dataset_name (AbundWriter "sun.abund")) ∧ (∅ : store) !! k = None ∧
       row_get sun row (value_column (AbundWriter "sun.abund")) = Ok v ∧
       column sun (value_column (AbundWriter "sun.abund")) = Ok c ∧ unit c = Some us ∧
       d = Scalar v ∧ a = {[ "unit" := us ]}).
Proof.
  apply (accumulating_write_result symbols (AbundWriter "sun.abund") ∅ sun once).
  - reflexivity.
  - vm_compute. reflexivity.
Defined.

Section kinds.
Implicit Types (hf : store) (k g : string) (n : node).

Lemma same_kind_refl hf : same_kind hf hf.
Proof. intros k n Hk. eauto. Qed.

Lemma same_kind_trans hf1 hf2 hf3 :
  same_kind hf1 hf2 → same_kind hf2 hf3 → same_kind hf1 hf3.
Proof.
  intros H12 H23 k n Hk. destruct (H12 k n Hk) as (n2 & Hk2 & H2).
  destruct (H23 k n2 Hk2) as (n3 & Hk3 & H3). exists n3. split; [done | congruence].
Qed.

Lemma extends_same_kind hf hf' : extends hf hf' → same_kind hf hf'.
Proof. intros He k n Hk. eauto. Qed.

Lemma same_kind_loop {A} (f : store → A → result store) (xs : list A) hf hf' :
  (∀ s x s', f s x = Ok s' → same_kind s s') →
  for_loop f hf xs = Ok hf' → same_kind hf hf'.
Proof.
  intros Hturn. apply (for_loop_invariant f (same_kind hf)); [|apply same_kind_refl].
  intros s x s' Hs H. eapply same_kind_trans; eauto.
Qed.

Lemma same_kind_write_once hf g dn fo data u hf' :
  write_once hf g dn fo data u = Ok hf' → same_kind hf hf'.
Proof.
  intros H k n Hk. apply write_once_Ok in H as (Hkeep & [a Ha] & _ & _ & _ & Hnods).
  destruct (decide (k = g)) as [->|Hne]; [|eauto].
  exists (Group a). split; [done|]. destruct n as [a0|d a0]; [done|].
  by apply Hnods in Hk.
Qed.

Lemma same_kind_set_group_attr hf k key v hf' :
  set_group_attr hf k key v = Ok hf' → same_kind hf hf'.
Proof.
  intros H. apply set_group_attr_Ok in H as (a & Ha & ->). intros k' n Hk'.
  destruct (decide (k = k')) as [<-|Hne].
  - rewrite lookup_insert_eq. rewrite Ha in Hk'. injection Hk' as <-. eauto.
  - rewrite lookup_insert_ne by done. eauto.
Qed.

Lemma same_kind_write_column g hf col hf' :
  write_column g hf col = Ok hf' → same_kind hf hf'.
Proof.
  intros H k n Hk. apply write_column_Ok in H as (_ & Hother & Hcol).
  destruct (decide (k = child g col.1)) as [->|Hne].
  - rewrite Hcol, Hk. eexists. split; [done|]. by destruct n.
  - rewrite (Hother k Hne). eauto.
Qed.

End kinds.

(** X14. No [to_hdf5] ever removes a node from the file or changes its
    kind: after a successful write by any of the four writers, every group
    that was in the file is still a group and every dataset still a
    dataset. *)
Theorem writers_keep_every_node (sym : Z → option string) (w : writer) (hf : store)
    (df : QTable) (hf' : store) (k : string) (n : node) :
  to_hdf5 sym w hf df = Ok hf' → hf !! k = Some n →
  ∃ n', hf' !! k = Some n' ∧ is_group n' = is_group n.
Proof.
  intros H. revert k n. change (same_kind hf hf').
  destruct w as [p|fn|fn|fn].
  - apply generic_split in H as (hf3 & Hpro & Hloop).
    eapply same_kind_trans; [|eapply same_kind_loop; [|exact Hloop]];
      [|intros s col s'; apply same_kind_write_column].
    step Hpro as hf1 H1. step Hpro as hf2 H2.
    apply (same_kind_trans _ hf1);
      [|apply (same_kind_trans _ hf2);
        [exact (same_kind_set_group_attr _ _ _ _ _ H2)
        |exact (same_kind_set_group_attr _ _ _ _ _ Hpro)]].
    apply extends_same_kind.
    destruct (contains hf (file_group_of p)); [injection H1 as <-; apply extends_refl|].
    step H1 as hf0 H0. step H1 as v Hv. step H1 as hf0' H0'. step H1 as f Hf.
    pose proof (extends_fresh_group _ _ _ _ _ _ _ (extends_refl hf) H0 H0') as He.
    apply create_group_Ok in H0 as (Hg & _).
    apply set_attr_Ok in H1 as (m & _ & ->). by apply extends_insert.
  - apply (accumulating_rows sym (AbundWriter fn)) in H as (f & _ & H); [|done].
    eapply same_kind_loop; [|exact H]. intros s row s' Hturn.
    step Hturn as g Hg. by eapply same_kind_write_once.
  - apply extends_same_kind. by eapply ioneq_extends.
  - apply (accumulating_rows sym (IpWriter fn)) in H as (f & _ & H); [|done].
    eapply same_kind_loop; [|exact H]. intros s row s' Hturn.
    step Hturn as g Hg. by eapply same_kind_write_once.
Qed.

Lemma writers_keep_every_node_witness :
  ∃ n', both !! "h/abundance" = Some n' ∧
        is_group n' = is_group (Group {[ "footer" := footer_block "sun" ("comment" +:+ nl) ]}).
Proof.
  refine (writers_keep_every_node symbols (AbundWriter "other.abund") once other both
            "h/abundance" _ _ _); vm_compute; reflexivity.
Defined.

(* ===================================================================== *)
(** ** Further properties of the line decoders                            *)
(* ===================================================================== *)

Section words.
Implicit Types (s w : string) (cur : option string).

Lemma list_ascii_app s (c : ascii) :
  list_ascii_of_string (s +:+ String c "") = list_ascii_of_string s ++ [c].
Proof. induction s as [|x s IH]; [done|]. rewrite string_app_cons. simpl. by rewrite IH. Qed.

Lemma word_snoc cur (c : ascii) :
  (∀ w, cur = Some w → word w) → isspace c = false →
  word (default EmptyString cur +:+ String c "").
Proof.
  intros Hcur Hc. split.
  - destruct cur as [[|x w]|]; simpl; discriminate.
  - rewrite list_ascii_app. apply Forall_app. split; [|by repeat constructor].
    destruct cur as [w|]; simpl; [by apply Hcur | constructor].
Qed.

(** [split] yields words. *)
Lemma split_go_words s :
  ∀ cur, (∀ w, cur = Some w → word w) → Forall word (split_go s cur).
Proof.
  induction s as [|c s IH]; intros cur Hcur; simpl.
  - destruct cur as [w|]; [|constructor]. constructor; [by apply Hcur | constructor].
  - destruct (isspace c) eqn:Hc.
    + destruct cur as [w|].
      * constructor; [by apply Hcur|]. by apply IH.
      * by apply IH.
    + apply IH. intros w [= <-]. by apply word_snoc.
Qed.

(** Leading white space makes no difference to [split] ... *)
Lemma split_go_lstrip s : split_go (lstrip s) None = split_go s None.
Proof.
  induction s as [|c s IH]; [done|]. cbn [lstrip split_go].
  destruct (isspace c) eqn:Hc; [done|]. cbn [split_go]. by rewrite Hc.
Qed.

(** ... nor does trailing white space. *)
Lemma split_go_rstrip s : ∀ cur, split_go (rstrip s) cur = split_go s cur.
Proof.
  induction s as [|c s IH]; intros cur; [done|].
  cbn [rstrip]. destruct (rstrip s) as [|x r] eqn:Hr.
  - destruct (isspace c) eqn:Hc; cbn [split_go]; rewrite Hc.
    + destruct cur as [w|]; by rewrite <- IH.
    + by rewrite <- IH.
  - cbn [split_go]. destruct (isspace c).
    + destruct cur as [w|]; by rewrite <- IH.
    + by rewrite <- IH.
Qed.

Lemma split_strip s : split (strip s) = split s.
Proof. unfold split, strip. by rewrite split_go_rstrip, split_go_lstrip. Qed.

Lemma rstrip_no_space s :
  Forall (λ c, isspace c = false) (list_ascii_of_string s) → rstrip s = s.
Proof.
  induction s as [|c s IH]; [done|]. simpl. intros Hs. inversion Hs as [|? ? Hc Hs']; subst.
  rewrite (IH Hs'). destruct s; [by rewrite Hc | done].
Qed.

(** Stripping a word changes nothing. *)
Lemma strip_word w : word w → strip w = w.
Proof.
  intros [Hne Hw]. unfold strip. destruct w as [|c w]; [done|].
  simpl in Hw. inversion Hw as [|? ? Hc Hw']; subst.
  assert (lstrip (String c w) = String c w) as -> by (simpl; by rewrite Hc).
  by apply rstrip_no_space.
Qed.

End words.

(** X15. For a parser class without [fformat], [GenericParser.preprocessor]
    never fails and leaves the parser's state alone: it appends one row, the
    white-space separated words of the line.  No token is empty or contains
    white space (the line's newline included), so neither of the two [strip]
    calls in the code changes anything, and a blank line gives an empty
    row. *)
Theorem whitespace_decoder_appends_the_words (st : pstate) (table : list (list pyval))
    (line : string) (index : nat) :
  GenericParser_preprocessor None st table line index =
    Ok (st, table ++ [PStr <$> split line]) ∧
  Forall word (split line) ∧
  (strip line = EmptyString → split line = []).
Proof.
  assert (Forall word (split line)) as Hwords by (by apply split_go_words).
  split; [|split; [done|]].
  - unfold GenericParser_preprocessor. simpl. rewrite split_strip.
    do 4 f_equal. rewrite <- list_fmap_compose. apply list_fmap_ext.
    intros i w Hw. simpl. f_equal. apply strip_word.
    by apply (proj1 (Forall_lookup _ _) Hwords i).
  - intros Hblank. by rewrite <- split_strip, Hblank.
Qed.

Section stripping.
Implicit Types (s t : string).

Lemma lstrip_head s :
  lstrip s = EmptyString ∨ ∃ c t, lstrip s = String c t ∧ isspace c = false.
Proof.
  induction s as [|c s IH]; [by left|]. simpl. destruct (isspace c) eqn:Hc; [done|].
  right. by exists c, s.
Qed.

Lemma rstrip_head (c : ascii) t :
  isspace c = false → ∃ r, rstrip (String c t) = String c r.
Proof. intros Hc. simpl. rewrite Hc. destruct (rstrip t); eauto. Qed.

Lemma rstrip_idem s : rstrip (rstrip s) = rstrip s.
Proof.
  induction s as [|c s IH]; [done|]. cbn [rstrip].
  destruct (rstrip s) as [|x r] eqn:Hr.
  - destruct (isspace c) eqn:Hc; [done|]. simpl. by rewrite Hc.
  - cbn [rstrip]. cbn [rstrip] in IH. by rewrite IH.
Qed.

(** [strip] is idempotent. *)
Lemma strip_idem s : strip (strip s) = strip s.
Proof.
  unfold strip. destruct (lstrip_head s) as [-> | (c & t & -> & Hc)]; [done|].
  destruct (rstrip_head c t Hc) as [r Hr]. rewrite Hr.
  assert (lstrip (String c r) = String c r) as -> by (simpl; by rewrite Hc).
  by rewrite <- Hr, rstrip_idem.
Qed.

End stripping.

(** X16. For a parser class with [fformat], a call of
    [GenericParser.preprocessor] that does not raise leaves the parser's
    state alone and appends exactly one row to the table: one item for each
    edit descriptor of the format, however long the line is, with no white
    space around any string item. *)
Theorem fixed_width_decoder_appends_one_row (fmt : list edit) (st st' : pstate)
    (table table' : list (list pyval)) (line : string) (index : nat) :
  GenericParser_preprocessor (Some fmt) st table line index = Ok (st', table') →
  st' = st ∧
  ∃ row, table' = table ++ [row] ∧ length row = length fmt ∧
         ∀ s, PStr s ∈ row → strip s = s.
Proof.
  unfold GenericParser_preprocessor. intros H. step H as items Hitems.
  injection H as <- <-. split; [done|]. eexists. split; [done|]. split.
  - rewrite length_fmap. by apply read_length in Hitems.
  - intros s Hs. apply list_elem_of_fmap_1 in Hs as (item & Heq & _).
    destruct item; try discriminate. injection Heq as ->. apply strip_idem.
Qed.

Lemma fixed_width_decoder_appends_one_row_witness :
  fresh = fresh ∧
  ∃ row, [PInt 1; PFloat (rat (73 # 10)); PStr "h"] :: [] = [] ++ [row] ∧
         length row = length [I 3; F 7 3; A 5] ∧
         ∀ s, PStr s ∈ row → strip s = s.
Proof.
  apply (fixed_width_decoder_appends_one_row [I 3; F 7 3; A 5] fresh fresh []
           [[PInt 1; PFloat (rat (73 # 10)); PStr "h"]] "  1  7.300  h" 0).
  vm_compute. reflexivity.
Defined.

(* ===================================================================== *)
(** ** Further properties of the constructors                             *)
(* ===================================================================== *)

Section names.
Implicit Types (s t : string) (c : ascii).

Lemma split_first_app c s t :
  c ∉ list_ascii_of_string s → split_first c (s +:+ String c t) = s.
Proof.
  induction s as [|x s IH]; intros Hc.
  - simpl. by rewrite Ascii.eqb_refl.
  - rewrite string_app_cons. simpl. simpl in Hc.
    apply not_elem_of_cons in Hc as [Hx Hs].
    destruct (Ascii.eqb_spec c x) as [->|_]; [done|]. by rewrite IH.
Qed.

Lemma list_ascii_of_app s t :
  list_ascii_of_string (s +:+ t) = list_ascii_of_string s ++ list_ascii_of_string t.
Proof. induction s as [|x s IH]; [done|]. rewrite string_app_cons. simpl. by rewrite IH. Qed.

End names.

(** X17. [GenericParser.__init__] on a file name [el_stage.ext], where [el]
    has neither a dot nor an underscore and [stage] has no dot: the ion is
    [el_stage], the element is [el], the file is looked for at
    [root/el/el_stage/el_stage.ext], and [to_hdf5] addresses the groups
    [el/el_stage] and [el/el_stage/filetype].  What follows the first dot is
    not looked at. *)
Theorem ion_file_name_is_taken_apart (root : string) (p : IonParser) (el stage ext : string) :
  ion_filename p = el +:+ "_" +:+ stage +:+ "." +:+ ext →
  "."%char ∉ list_ascii_of_string el → "_"%char ∉ list_ascii_of_string el →
  "."%char ∉ list_ascii_of_string stage →
  ion_name p = el +:+ "_" +:+ stage ∧ element p = el ∧
  full_path (GenericParser root p) =
    path_join_all root [el; el +:+ "_" +:+ stage; el +:+ "_" +:+ stage +:+ "." +:+ ext] ∧
  ion_group_of p = child el (el +:+ "_" +:+ stage) ∧
  file_group_of p = child (child el (el +:+ "_" +:+ stage)) (filetype p).
Proof.
  intros Hfn Hel_dot Hel_us Hstage.
  assert (ion_name p = el +:+ "_" +:+ stage) as Hion.
  { unfold ion_name. rewrite Hfn.
    assert (el +:+ "_" +:+ stage +:+ "." +:+ ext =
            (el +:+ "_" +:+ stage) +:+ String "." ext) as ->
      by exact (eq_sym (string_app_assoc el ("_" +:+ stage) (String "." ext))).
    apply split_first_app. rewrite list_ascii_of_app. simpl.
    intros [?|[?|?]%elem_of_cons]%elem_of_app; done. }
  assert (element p = el) as Hel.
  { unfold element. rewrite Hion. by apply split_first_app. }
  split; [done|]. split; [done|]. split; [|split].
  - simpl. by rewrite Hel, Hion, Hfn.
  - unfold ion_group_of, child. by rewrite Hel, Hion.
  - unfold file_group_of, child. rewrite Hel, Hion. simpl.
    by rewrite !string_app_assoc.
Qed.

Lemma ion_file_name_is_taken_apart_witness :
  ion_name elvlc = "h" +:+ "_" +:+ "1" ∧ element elvlc = "h" ∧
  full_path (GenericParser root elvlc) =
    path_join_all root ["h"; "h" +:+ "_" +:+ "1"; "h" +:+ "_" +:+ "1" +:+ "." +:+ "elvlc"] ∧
  ion_group_of elvlc = child "h" ("h" +:+ "_" +:+ "1") ∧
  file_group_of elvlc = child (child "h" ("h" +:+ "_" +:+ "1")) (filetype elvlc).
Proof.
  apply (ion_file_name_is_taken_apart root elvlc "h" "1" "elvlc").
  - reflexivity.
  - apply (bool_decide_unpack _). vm_compute. constructor.
  - apply (bool_decide_unpack _). vm_compute. constructor.
  - apply (bool_decide_unpack _). vm_compute. constructor.
Defined.

Section stems.
Implicit Types (s t : string) (c : ascii).

Lemma existsb_eqb c (l : list ascii) : existsb (Ascii.eqb c) l = bool_decide (c ∈ l).
Proof.
  induction l as [|x l IH]; [done|]. simpl. rewrite IH.
  destruct (Ascii.eqb_spec c x) as [->|Hne]; simpl.
  - symmetry. apply bool_decide_eq_true. apply elem_of_cons. by left.
  - apply bool_decide_ext. rewrite elem_of_cons. split; [by right|]. by intros [?|?].
Qed.

Lemma after_last_none c s : c ∉ list_ascii_of_string s → after_last c s = s.
Proof.
  destruct s as [|x s]; [done|]. simpl. intros [Hx Hs]%not_elem_of_cons.
  rewrite existsb_eqb, bool_decide_eq_false_2 by done.
  by destruct (Ascii.eqb_spec c x).
Qed.

Lemma after_last_app c s t :
  c ∉ list_ascii_of_string t → after_last c (s +:+ String c t) = t.
Proof.
  intros Ht. induction s as [|x s IH].
  - simpl. by rewrite existsb_eqb, bool_decide_eq_false_2, Ascii.eqb_refl.
  - rewrite string_app_cons. cbn [after_last]. rewrite existsb_eqb, bool_decide_eq_true_2; [done|].
    rewrite list_ascii_of_app. apply elem_of_app. right. simpl. apply elem_of_cons. by left.
Qed.

Lemma before_last_none c s : c ∉ list_ascii_of_string s → before_last c s = None.
Proof.
  induction s as [|x s IH]; [done|]. simpl. intros [Hx Hs]%not_elem_of_cons.
  rewrite IH by done. by destruct (Ascii.eqb_spec c x).
Qed.

Lemma before_last_app c s t :
  c ∉ list_ascii_of_string t → before_last c (s +:+ String c t) = Some s.
Proof.
  intros Ht. induction s as [|x s IH].
  - simpl. by rewrite before_last_none, Ascii.eqb_refl.
  - rewrite string_app_cons. cbn [before_last]. by rewrite IH.
Qed.

Lemma splitext_root_app s t :
  "."%char ∉ list_ascii_of_string t →
  (∃ c, c ∈ list_ascii_of_string s ∧ c ≠ "."%char) →
  splitext_root (s +:+ String "." t) = s.
Proof.
  intros Ht (c & Hc & Hdot). unfold splitext_root. rewrite before_last_app by done.
  destruct (forallb _ _) eqn:Hall; [|done].
  rewrite forallb_forall in Hall. apply list_elem_of_In in Hc. apply Hall in Hc.
  by destruct (Ascii.eqb_spec "."%char c).
Qed.

End stems.

(** X18. The dataset name of the three non-ion writers is the stem of the
    file name: for [stem.ext] or [dir/stem.ext], where [stem] and [ext] have
    no slash, [ext] has no dot and [stem] is not made of dots only, it is
    [stem].  The directory part and what follows the last dot play no role,
    so sources that differ only there are written under one name. *)
Theorem dataset_is_named_by_the_stem (f dir stem ext : string) :
  f = stem +:+ "." +:+ ext ∨ f = dir +:+ "/" +:+ stem +:+ "." +:+ ext →
  "/"%char ∉ list_ascii_of_string stem → "/"%char ∉ list_ascii_of_string ext →
  "."%char ∉ list_ascii_of_string ext →
  (∃ c, c ∈ list_ascii_of_string stem ∧ c ≠ "."%char) →
  dataset_name (AbundWriter f) = stem ∧ dataset_name (IoneqWriter f) = stem ∧
  dataset_name (IpWriter f) = stem.
Proof.
  intros Hf Hstem Hext Hdot Hc.
  assert (splitext_root (basename f) = stem) as H; [|done].
  assert ("/"%char ∉ list_ascii_of_string (stem +:+ String "." ext)) as Hbase.
  { rewrite list_ascii_of_app. simpl.
    intros [?|[?|?]%elem_of_cons]%elem_of_app; done. }
  assert (basename f = stem +:+ String "." ext) as ->.
  { unfold basename. destruct Hf as [-> | ->].
    - by apply after_last_none.
    - by apply (after_last_app "/" dir (stem +:+ String "." ext)). }
  by apply splitext_root_app.
Qed.

Lemma dataset_is_named_by_the_stem_witness :
  dataset_name (AbundWriter "abundance/sun_photospheric.abund") = "sun_photospheric" ∧
  dataset_name (IoneqWriter "abundance/sun_photospheric.abund") = "sun_photospheric" ∧
  dataset_name (IpWriter "abundance/sun_photospheric.abund") = "sun_photospheric".
Proof.
  apply (dataset_is_named_by_the_stem _ "abundance" "sun_photospheric" "abund").
  - right. reflexivity.
  - apply (bool_decide_unpack _). vm_compute. constructor.
  - apply (bool_decide_unpack _). vm_compute. constructor.
  - apply (bool_decide_unpack _). vm_compute. constructor.
  - exists "s"%char. split; [|discriminate].
    apply (bool_decide_unpack _). vm_compute. constructor.
Defined.

(* ===================================================================== *)
(** ** Further properties of [IoneqParser.to_hdf5]                        *)
(* ===================================================================== *)

Section row_loops.
Context {A : Type}.
Implicit Types (f : store → A → result store) (hf : store).

Lemma loop_extends f (xs : list A) :
  (∀ s x s', f s x = Ok s' → extends s s') →
  ∀ hf hf', for_loop f hf xs = Ok hf' → extends hf hf'.
Proof.
  intros Hstep hf hf'. apply (for_loop_invariant f (extends hf)); [|apply extends_refl].
  intros s x s' Hs H. eapply extends_trans; eauto.
Qed.

(** A loop that only adds nodes: what each turn establishes for its row
    holds at the end, and every dataset that is new at the end was new in
    the turn of some row. *)
Lemma row_loop_result f (R : A → store → Prop)
    (Q : A → string → value → gmap string string → Prop) :
  (∀ s x s', f s x = Ok s' →
     extends s s' ∧ R x s' ∧
     ∀ k d a, s' !! k = Some (Dataset d a) →
       s !! k = Some (Dataset d a) ∨ (s !! k = None ∧ Q x k d a)) →
  (∀ x s s', extends s s' → R x s → R x s') →
  ∀ xs hf hf', for_loop f hf xs = Ok hf' →
    (∀ x, x ∈ xs → R x hf') ∧
    (∀ k d a, hf' !! k = Some (Dataset d a) →
       hf !! k = Some (Dataset d a) ∨ (hf !! k = None ∧ ∃ x, x ∈ xs ∧ Q x k d a)).
Proof.
  intros Hturn Hmono. induction xs as [|x xs IH]; intros hf hf' H; simpl in H.
  - injection H as <-. split; [by intros x Hx%elem_of_nil | by left].
  - step H as hf1 H1. destruct (Hturn _ _ _ H1) as (He1 & HR & Hds).
    pose proof (loop_extends f xs (λ s y s' Hs, proj1 (Hturn s y s' Hs)) _ _ H) as He.
    destruct (IH _ _ H) as [IHR IHds]. split.
    + intros y [->|Hy]%elem_of_cons; [by eapply Hmono | by apply IHR].
    + intros k d a Hk.
      destruct (IHds k d a Hk) as [Hk1 | (Hnone & y & Hy & HQ)].
      * destruct (Hds k d a Hk1) as [Hold | [Hnone HQ]]; [by left|].
        right. split; [done|]. exists x. split; [apply elem_of_cons; by left | done].
      * right. split; [by eapply extends_None|].
        exists y. split; [apply elem_of_cons; by right | done].
Qed.

End row_loops.

(** X19. After [IoneqParser.to_hdf5], every row of the table has its group
    in the file, with a node of the source's stem in it; and every dataset
    in the file that was not there before is [group/stem/temperature] or
    [group/stem/ionization fraction] for the group of some row, holding that
    row's entry of the column with the unit of the column as its only
    attribute.  The writer creates no other datasets and replaces none. *)
Theorem ioneq_write_result (sym : Z → option string) (fn : string) (hf : store)
    (df : QTable) (hf' : store) :
  to_hdf5 sym (IoneqWriter fn) hf df = Ok hf' →
  (∀ row, row < nrows df →
     ∃ g, row_group sym (IoneqWriter fn) df row = Ok g ∧
          (∃ a, hf' !! g = Some (Group a)) ∧
          is_Some (hf' !! child g (dataset_name (IoneqWriter fn)))) ∧
  (∀ k d a, hf' !! k = Some (Dataset d a) →
     hf !! k = Some (Dataset d a) ∨
     ∃ row g name v c us,
       row < nrows df ∧ row_group sym (IoneqWriter fn) df row = Ok g ∧
       (name = "temperature" ∨ name = "ionization fraction") ∧
       k = child (child g (dataset_name (IoneqWriter fn))) name ∧ hf !! k = None ∧
       row_get df row name = Ok v ∧ column df name = Ok c ∧ unit c = Some us ∧
       d = Scalar v ∧ a = {[ "unit" := us ]}).
Proof.
  simpl. unfold IoneqParser_to_hdf5. set (dn := splitext_root (basename fn)). intros H.
  apply (row_loop_result _
    (λ row s, ∃ g, ion_group sym df row "ioneq" = Ok g ∧
                   (∃ a, s !! g = Some (Group a)) ∧ is_Some (s !! child g dn))
    (λ row k d a, ∃ g name v c us,
       ion_group sym df row "ioneq" = Ok g ∧
       (name = "temperature" ∨ name = "ionization fraction") ∧
       k = child (child g dn) name ∧
       row_get df row name = Ok v ∧ column df name = Ok c ∧ unit c = Some us ∧
       d = Scalar v ∧ a = {[ "unit" := us ]})) in H.
  - destruct H as [HR Hds]. split.
    + intros row Hrow. apply HR, list_elem_of_lookup. exists row. by apply lookup_seq.
    + intros k d a Hk. destruct (Hds k d a Hk)
        as [Hold | (Hnone & row & Hin & g & name & v & c & us & Hrest)]; [by left|].
      right. exists row, g, name, v, c, us.
      apply list_elem_of_lookup in Hin as [i Hi]. apply lookup_seq in Hi as [-> Hi].
      destruct Hrest as (? & ? & ? & ? & ? & ? & ? & ?). done.
  - intros s row s' Hturn.
    step Hturn as g Hg. step Hturn as hf1 H1. step Hturn as present Hp.
    pose proof (extends_find_or_create _ _ _ H1) as He1.
    apply find_or_create_Ok in H1 as (Hold & Hnew & _).
    apply group_contains_Ok in Hp as ([a1 Ha1] & ->).
    assert (∀ k d a, hf1 !! k = Some (Dataset d a) → s !! k = Some (Dataset d a)) as Hds1.
    { intros k d a Hk. destruct (s !! k) as [m|] eqn:Hm.
      - apply Hold in Hm. congruence.
      - destruct (decide (k = g)) as [->|Hne]; [congruence|].
        destruct (Hnew k Hm Hne); congruence. }
    destruct (contains hf1 (child g dn)) eqn:Hc.
    + injection Hturn as <-. split; [done|]. split.
      * exists g. split; [done|]. split; [eauto|]. by apply contains_true.
      * intros k d a Hk. left. eauto.
    + apply contains_false in Hc.
      step Hturn as hf2 H2. step Hturn as f Hf. step Hturn as hf3 H3.
      step Hturn as t Ht. step Hturn as hf4 H4. step Hturn as c Hcol. step Hturn as u Hu.
      step Hturn as hf5 H5. step Hturn as x Hx. step Hturn as hf6 H6.
      step Hturn as c' Hcol'. step Hturn as u' Hu'.
      apply from_option_Ok in Hu, Hu'.
      pose proof (extends_fresh_group _ _ _ _ _ _ _ (extends_refl hf1) H2 H3) as He3.
      pose proof (extends_fresh_dataset _ _ _ _ _ _ _ _ _ He3 H4 H5) as He5.
      pose proof (extends_fresh_dataset _ _ _ _ _ _ _ _ _ He5 H6 Hturn) as He7.
      pose proof (extends_fresh_dataset _ _ _ _ _ _ _ _ _ (extends_refl hf3) H4 H5) as He35.
      pose proof (extends_fresh_dataset _ _ _ _ _ _ _ _ _ He35 H6 Hturn) as He37.
      apply create_group_Ok in H2 as (_ & Hg2 & Hold2 & Hnew2).
      apply set_attr_Ok in H3 as (n3 & Hn3 & Heq3).
      rewrite Hg2 in Hn3. injection Hn3 as <-. simpl in Heq3.
      apply create_dataset_Ok in H4 as (Hnone4 & Heq4).
      apply set_attr_Ok in H5 as (n5 & Hn5 & Heq5).
      rewrite Heq4, lookup_insert_eq in Hn5. injection Hn5 as <-. simpl in Heq5.
      apply create_dataset_Ok in H6 as (Hnone6 & Heq6).
      apply set_attr_Ok in Hturn as (n7 & Hn7 & Heq7).
      rewrite Heq6, lookup_insert_eq in Hn7. injection Hn7 as <-. simpl in Heq7.
      split; [by eapply extends_trans|]. split.
      * exists g. split; [done|]. split; [exists a1; by apply He7|].
        eexists. apply He37. rewrite Heq3. apply lookup_insert_eq.
      * intros k d a Hk. rewrite Heq7 in Hk.
        destruct (decide (k = child (child g dn) "ionization fraction")) as [->|Hnf].
        { right. rewrite lookup_insert_eq in Hk. injection Hk as <- <-. split.
          - eapply extends_None; [exact (extends_trans _ _ _ He1 He5)|done].
          - exists g, "ionization fraction", x, c', u'. rewrite insert_empty.
            split; [done|]. split; [by right | done]. }
        rewrite lookup_insert_ne in Hk by done. rewrite Heq6 in Hk.
        rewrite lookup_insert_ne in Hk by done. rewrite Heq5 in Hk.
        destruct (decide (k = child (child g dn) "temperature")) as [->|Hnt].
        { right. rewrite lookup_insert_eq in Hk. injection Hk as <- <-. split.
          - eapply extends_None; [exact (extends_trans _ _ _ He1 He3)|done].
          - exists g, "temperature", t, c, u. rewrite insert_empty.
            split; [done|]. split; [by left | done]. }
        rewrite lookup_insert_ne in Hk by done. rewrite Heq4 in Hk.
        rewrite lookup_insert_ne in Hk by done. rewrite Heq3 in Hk.
        destruct (decide (k = child g dn)) as [->|Hns].
        { by rewrite lookup_insert_eq in Hk. }
        rewrite lookup_insert_ne in Hk by done. left. apply Hds1.
        destruct (hf1 !! k) as [m|] eqn:Hm.
        -- apply Hold2 in Hm. congruence.
        -- destruct (Hnew2 k Hm); congruence.
  - intros row s s' He (g & Hg & [a Ha] & [m Hm]).
    exists g. split; [done|]. split; [exists a; by apply He | exists m; by apply He].
Qed.

Lemma ioneq_write_result_witness :
  (∀ row, row < nrows fractions →
     ∃ g, row_group symbols (IoneqWriter "two.ioneq") fractions row = Ok g ∧
          (∃ a, fractions_once !! g = Some (Group a)) ∧
          is_Some (fractions_once !! child g (dataset_name (IoneqWriter "two.ioneq")))) ∧
  (∀ k d a, fractions_once !! k = Some (Dataset d a) →
     (∅ : store) !! k = Some (Dataset d a) ∨
     ∃ row g name v c us,
       row < nrows fractions ∧
       row_group symbols (IoneqWriter "two.ioneq") fractions row = Ok g ∧
       (name = "temperature" ∨ name = "ionization fraction") ∧
       k = child (child g (dataset_name (IoneqWriter "two.ioneq"))) name ∧
       (∅ : store) !! k = None ∧
       row_get fractions row name = Ok v ∧ column fractions name = Ok c ∧
       unit c = Some us ∧ d = Scalar v ∧ a = {[ "unit" := us ]}).
Proof.
  apply (ioneq_write_result symbols "two.ioneq" ∅ fractions fractions_once).
  vm_compute. reflexivity.
Defined.

(* ===================================================================== *)
(** ** Lines and rows                                                     *)
(* ===================================================================== *)

Section row_count.
Variables (root : string) (sym : Z → option string).

(** The rows a loop over [pre] collects, when the decoder appends a row at
    every index from [h] on and none before. *)
Lemma scan_row_count (p : Parser) (h : nat) :
  (∀ st table line i st' table',
     preprocessor p st table line i = Ok (st', table') →
     length table' = length table + (if i <? h then 0 else 1)) →
  ∀ pre st table i rows c,
    Forall (λ line, strip line ≠ "-1") pre →
    scan p st table i pre = Ok (rows, c) →
    length rows + Nat.max i h = length table + Nat.max (i + length pre) h.
Proof.
  intros Hpre. induction pre as [|line pre IH]; intros st table i rows c Hall H; simpl in H.
  - injection H as <- _. simpl. lia.
  - inversion Hall as [|? ? Hline Hall']; subst.
    apply String.eqb_neq in Hline. rewrite Hline in H.
    step H as r Hr. destruct r as [st' table'].
    apply Hpre in Hr. apply IH in H; [|done]. simpl.
    destruct (Nat.ltb_spec i h); lia.
Qed.

(** Which calls of the decoder append a row. *)
Lemma preprocessor_appends (w : writer) st table line i st' table' :
  preprocessor (parser_of root sym w) st table line i = Ok (st', table') →
  length table' = length table + (if i <? header_lines w then 0 else 1).
Proof.
  assert (∀ fmt, GenericParser_preprocessor fmt st table line i = Ok (st', table') →
                 length table' = length table + 1) as Hgen.
  { intros fmt H. unfold GenericParser_preprocessor in H. step H as items Hitems.
    injection H as _ <-. by rewrite length_app. }
  destruct w as [p|fn|fn|fn]; simpl;
    [intros H; exact (Hgen _ H) | intros H; exact (Hgen _ H) | | intros H; exact (Hgen _ H)].
  intros H. destruct i as [|[|i]]; [simpl in H | simpl in H |].
  - step H as x Hx. step H as n Hn. step H as ft Hft. step H as fi Hfi.
    injection H as _ <-. simpl. lia.
  - step H as ft Hft. step H as vs Hvs. step H as xs Hxs. injection H as _ <-. simpl. lia.
  - apply (ioneq_rows_share_grid st st' table table' line i) in H
      as (_ & fmt & items & t & fr & _ & _ & _ & _ & ->).
    rewrite length_app. simpl. lia.
Qed.

Lemma build_nrows (hs : list string) (us : list (option string)) (ds : list dtype)
    (table : list (list pyval)) (df : QTable) :
  build hs us ds table = Ok df → hs ≠ [] →
  columns df ≠ [] ∧
  ([] ∉ table → nrows df = length table) ∧ ([] ∈ table → nrows df = 0).
Proof.
  unfold build. intros H Hhs.
  destruct (length (table_data hs table) =? length hs) eqn:Hlen; [|discriminate].
  destruct (bool_decide (NoDup hs)); [|discriminate]. simpl in H.
  apply Nat.eqb_eq in Hlen. step H as cs Hcs. injection H as <-.
  unfold table_data in *. unfold nrows. simpl.
  destruct (zip_star table) as [|vs0 cols0] eqn:Hzip.
  - destruct (typed_columns_shape 0 hs us ds _ cs Hcs)
      as (Hnames & Hheights & _); [done | by apply Forall_fmap, Forall_true |].
    destruct cs as [|[name c] cs]; [simpl in Hnames; congruence|].
    inversion Hheights; subst. split; [done|]. split; [|done].
    intros Hno. apply zip_star_nil in Hzip as [-> | ?]; done.
  - rewrite <- Hzip in *.
    destruct (typed_columns_shape (length table) hs us ds (zip_star table) cs Hcs)
      as (Hnames & Hheights & _); [done | apply zip_star_height |].
    destruct cs as [|[name c] cs]; [simpl in Hnames; congruence|].
    inversion Hheights; subst. split; [done|]. split; [done|].
    intros Hin. assert (zip_star table = []) as Hnil by (apply zip_star_nil; by right).
    rewrite Hnil in Hzip. discriminate.
Qed.

Lemma set_column_nrows (df df' : QTable) (name : string) (c : Column) :
  set_column df name c = Ok df' → columns df ≠ [] →
  nrows df' = nrows df ∧ columns df' ≠ [].
Proof.
  unfold set_column. intros H Hne.
  rewrite bool_decide_eq_false_2 in H by done. simpl in H.
  destruct (col_length (data c) =? nrows df) eqn:Hlen; [|discriminate].
  apply Nat.eqb_eq in Hlen. simpl in H. injection H as <-.
  unfold nrows in *. simpl. destruct (columns df) as [|[n0 c0] cs]; [done|]. simpl.
  destruct (String.eqb n0 name); done.
Qed.

(** No [postprocessor] changes the number of rows. *)
Lemma postprocessor_nrows (w : writer) (df df' : QTable) :
  postprocessor (parser_of root sym w) df = Ok df' → columns df ≠ [] →
  nrows df' = nrows df.
Proof.
  destruct w as [p|fn|fn|fn]; simpl; try (by intros [= <-]).
  unfold AbundParser_postprocessor. intros H Hne.
  step H as c Hc. step H as xs Hxs. step H as z Hz. step H as mask Hmask.
  step H as ys Hys. step H as tt Hu. step H as df1 H1. step H as first Hfirst.
  step H as df2 H2. injection H as <-.
  apply set_column_nrows in H1 as [Hn1 Hne1]; [|done].
  change (nrows df2 = nrows df). rewrite <- Hn1.
  destruct first as [| |[|ch s]| |]; try (by injection H2 as <-).
  step H2 as z' Hz'. step H2 as col Hcol.
  by apply set_column_nrows in H2 as [Hn2 _].
Qed.

End row_count.

(** X20. The rows of the table [parse] returns follow the lines of the
    file before the terminator: the decoder gives one row of tokens for each
    of them — except the first two lines of an ionization-equilibrium file,
    which give none — and the table has one row for each of these, unless
    one of them has no token at all (a blank line, for a parser that splits
    at white space): then the table has no rows.  (For an ion parser, the
    class is taken to declare at least one heading.) *)
Theorem parsed_rows_follow_the_lines (root : string) (sym : Z → option string) (w : writer)
    (world world' : World) (df : QTable) :
  parse root (parser_of root sym w) world = (Returned df, world') →
  headings (parser_of root sym w) ≠ [] →
  ∃ pre t post table,
    files world !! full_path (parser_of root sym w) = Some (pre ++ t :: post) ∧
    Forall (λ line, strip line ≠ "-1") pre ∧ strip t = "-1" ∧
    scan (parser_of root sym w) fresh [] 0 pre = Ok (table, None) ∧
    length table = length pre - header_lines w ∧
    ([] ∉ table → nrows df = length table) ∧
    ([] ∈ table → nrows df = 0).
Proof.
  unfold parse. intros H Hhs.
  destruct (files world !! full_path _) as [lines|]; [|discriminate].
  destruct (parse_table _ lines) as [df0|e] eqn:Ht; [|discriminate].
  simpl in H. destruct (files world !! version_path root) as [vlines|]; [|discriminate].
  destruct (parse_finish _ df0 vlines) as [df1|e] eqn:Hf; [|discriminate].
  injection H as <- _.
  unfold parse_table in Ht. step Ht as r Hscan. destruct r as [table comment].
  step Ht as df00 Hbuild. step Ht as footer Hfooter.
  apply from_option_Ok in Hfooter as ->. injection Ht as <-.
  pose proof Hscan as Hsplit.
  apply scan_bound_comment in Hsplit as (pre & t & post & -> & Hpre & Htm & _).
  rewrite scan_until_terminator in Hscan by done. step Hscan as r Hr.
  destruct r as [rows c]. injection Hscan as ->.
  pose proof (scan_unterminated _ _ Hpre _ _ _ _ _ Hr) as ->.
  pose proof (scan_row_count _ (header_lines w)
                (λ st tb line i st' tb', preprocessor_appends root sym w st tb line i st' tb')
                _ _ _ _ _ _ Hpre Hr) as Hcount.
  apply build_nrows in Hbuild as (Hne & Hfull & Hblank); [|done].
  unfold parse_finish in Hf. step Hf as first Hfirst.
  apply postprocessor_nrows in Hf; [|done].
  exists pre, t, post, table. split; [done|]. split; [done|]. split; [done|].
  split; [done|]. split; [simpl in Hcount; lia|].
  rewrite Hf. split; [exact Hfull | exact Hblank].
Qed.

Lemma parsed_rows_follow_the_lines_witness :
  ∃ pre t post table,
    files world !! full_path (parser_of root symbols (IoneqWriter "two.ioneq")) =
      Some (pre ++ t :: post) ∧
    Forall (λ line, strip line ≠ "-1") pre ∧ strip t = "-1" ∧
    scan (parser_of root symbols (IoneqWriter "two.ioneq")) fresh [] 0 pre =
      Ok (table, None) ∧
    length table = length pre - header_lines (IoneqWriter "two.ioneq") ∧
    ([] ∉ table → nrows fractions = length table) ∧
    ([] ∈ table → nrows fractions = 0).
Proof.
  refine (parsed_rows_follow_the_lines root symbols (IoneqWriter "two.ioneq") world
            (parse root (IoneqParser root "two.ioneq") world).2 fractions _ _).
  - vm_compute. reflexivity.
  - simpl. discriminate.
Defined.

(** A blank line before the terminator: the table has the columns of the
    schema and no rows. *)
Example blank_line_empties_the_table :
  parse_table (IpParser root "blank.ip")
    ["  1  1  109678.77" +:+ nl; nl; " -1" +:+ nl; "%file: chianti.ip" +:+ nl] =
  Ok {| columns := [("atomic number", {| unit := None; data := CInt [] |});
                    ("ion", {| unit := None; data := CInt [] |});
                    ("ionization potential", {| unit := Some "1 / cm"; data := CFloat [] |})];
        meta := {[ "footer" := "%file: chianti.ip" +:+ nl ]} |}.
Proof. reflexivity. Qed.
